(** * GoHTTP server core: connection lifecycle (server.go)

    A shallow embedding of the [Server] of package [server]: the accept
    loop, the per-connection reader, the expiry loop, [Read] and
    [Shutdown].  Every Go function is written once, as a program over a
    small set of atomic operations on the shared state; the same program
    is run to completion ([exec]) for the sequential properties and
    interleaved with the other goroutines ([step]) for the bound on the
    number of open connections and the other invariants.  The arguments
    and return values of package rpc are in module [rpc]. *)

From stdpp Require Import gmap list strings.
From Stdlib Require Import ZArith Lia.

(** ** Data model *)

(** [os.Error] values.  [PathError e] is a [*os.PathError] whose [Error]
    field is [e]; the others are plain error values. *)
Inductive Error : Type :=
| EAGAIN
| EBADF
| EOther (code : nat)
| PathError (inner : Error).

Definition error_eqb : Error -> Error -> bool :=
  fix eqb (a b : Error) : bool :=
    match a, b with
    | EAGAIN, EAGAIN => true
    | EBADF, EBADF => true
    | EOther n, EOther m => Nat.eqb n m
    | PathError x, PathError y => eqb x y
    | _, _ => false
    end.

(** Handles: a listener, a [net.Conn], a [*stampedServerConn], a parsed
    [*Request]. *)
Abbreviation Listener := nat (only parsing).
Abbreviation ConnId := nat (only parsing).
Abbreviation SscId := nat (only parsing).
Abbreviation Request := nat (only parsing).

(** Modelled from the spec: the [Query] type and its helpers
    [newQueryErr] and [getError] are not among the sources.  A Query
    carries the connection, the request, an error slot and two flags; a
    terminal Query carries only an error.  (The server reference is left
    out: there is one server.) *)
Record Query : Type := mkQuery {
  q_ssc : option SscId;
  q_req : option Request;
  q_err : option Error;
  q_fwd : bool;
  q_hijacked : bool
}.

Definition newQueryErr (err : Error) : Query :=
  mkQuery None None (Some err) false false.

Definition getError (q : Query) : option Error := q_err q.

(** A [net.Conn].  [nc_open]: the descriptor is open.  [nc_hook]: the
    connection has been wrapped by [NewRunOnCloseConn] and its hook has not
    run yet.  [nc_settmo]: what [SetReadTimeout] answers on it. *)
Record NetConn : Type := mkNetConn {
  nc_open : bool;
  nc_hook : bool;
  nc_settmo : option Error
}.

(** The result of one [ServerConn.Read]: [(req, err)]. *)
Definition ReadResult : Type := (option Request * option Error)%type.

(** [stampedServerConn]: the embedded [*ServerConn] and the stamp.
    Modelled from the spec: [ServerConn] (package http) is not among the
    sources.  It reads one request at a time from the connection it holds;
    its [Close] detaches that connection and hands it back, nil the second
    time, as [bury] expects.  [sc_conn] is the connection held, [stamp]
    the last-activity time, [sc_in] the results the peer will make
    [ServerConn.Read] return, in order. *)
Record StampedServerConn : Type := mkSsc {
  sc_conn : option ConnId;
  stamp : Z;
  sc_in : list ReadResult
}.

(** Modelled from the spec: [FDLimiter] (package util) is not among the
    sources.  It holds a fixed capacity and the number of slots held;
    [Lock] blocks until a slot is free and takes it, [Unlock] gives one
    back. *)
Record FDLimiter : Type := mkFdl {
  limit : Z;
  count : Z
}.

(** The channel [qch].  [ch_buf] holds the values handed over by senders
    and not yet received: the channel is unbuffered, so each is a sender
    waiting for its receiver, and the model lets the sender go on at once.
    [ch_closed] is set by [close]: from then on a send panics, and the
    senders that wait are released, their values not delivered.  A
    receive on a closed channel yields nil, and sets [ch_seen]; the
    builtin [closed] reports true only then, once a receive has returned
    nil from the closed channel. *)
Record Chan : Type := mkChan {
  ch_buf : list Query;
  ch_closed : bool;
  ch_seen : bool
}.

(** [type Server struct]; [lk] is [true] while the mutex is held. *)
Record Server : Type := mkServer {
  tmo : Z;
  listen : option Listener;
  conns : gmap SscId Z;
  qch : Chan;
  fdl : FDLimiter;
  lk : bool
}.

(** Goroutines started with [go]. *)
Inductive Task : Type :=
| TAcceptLoop
| TExpireLoop
| TRead (ssc : SscId).

(** What the listener will deliver next: a connection (with the answer its
    [SetReadTimeout] will give), or an error, possibly together with a
    non-nil connection. *)
Inductive Incoming : Type :=
| InConn (settmo : option Error)
| InErr (with_conn : bool) (e : Error).

(** The whole state: the server, the heap of connections and of stamped
    server connections (a handle is an index), the environment (pending
    arrivals, the listener's state, the clock) and two logs: the durations
    slept and the goroutines started. *)
Record World : Type := mkWorld {
  srv : Server;
  netconns : list NetConn;
  sscs : list StampedServerConn;
  incoming : list Incoming;
  lst_closed : bool;
  now : Z;
  slept : list Z;
  spawned : list Task
}.

(** Field updates. *)
Definition set_listen (l : option Listener) (s : Server) : Server :=
  mkServer (tmo s) l (conns s) (qch s) (fdl s) (lk s).
Definition set_conns (m : gmap SscId Z) (s : Server) : Server :=
  mkServer (tmo s) (listen s) m (qch s) (fdl s) (lk s).
Definition set_qch (c : Chan) (s : Server) : Server :=
  mkServer (tmo s) (listen s) (conns s) c (fdl s) (lk s).
Definition set_fdl (f : FDLimiter) (s : Server) : Server :=
  mkServer (tmo s) (listen s) (conns s) (qch s) f (lk s).
Definition set_lk (b : bool) (s : Server) : Server :=
  mkServer (tmo s) (listen s) (conns s) (qch s) (fdl s) b.

Definition with_srv (s : Server) (w : World) : World :=
  mkWorld s (netconns w) (sscs w) (incoming w) (lst_closed w) (now w)
          (slept w) (spawned w).
Definition with_netconns (l : list NetConn) (w : World) : World :=
  mkWorld (srv w) l (sscs w) (incoming w) (lst_closed w) (now w)
          (slept w) (spawned w).
Definition with_sscs (l : list StampedServerConn) (w : World) : World :=
  mkWorld (srv w) (netconns w) l (incoming w) (lst_closed w) (now w)
          (slept w) (spawned w).
Definition with_incoming (l : list Incoming) (w : World) : World :=
  mkWorld (srv w) (netconns w) (sscs w) l (lst_closed w) (now w)
          (slept w) (spawned w).
Definition with_lst_closed (b : bool) (w : World) : World :=
  mkWorld (srv w) (netconns w) (sscs w) (incoming w) b (now w)
          (slept w) (spawned w).
Definition with_now (t : Z) (w : World) : World :=
  mkWorld (srv w) (netconns w) (sscs w) (incoming w) (lst_closed w) t
          (slept w) (spawned w).
Definition with_slept (l : list Z) (w : World) : World :=
  mkWorld (srv w) (netconns w) (sscs w) (incoming w) (lst_closed w) (now w)
          l (spawned w).
Definition with_spawned (l : list Task) (w : World) : World :=
  mkWorld (srv w) (netconns w) (sscs w) (incoming w) (lst_closed w) (now w)
          (slept w) l.

(** [int64] arithmetic: the difference of two timestamps wraps. *)
Definition wrap64 (z : Z) : Z :=
  ((z + 2 ^ 63) mod 2 ^ 64 - 2 ^ 63)%Z.
Definition sub64 (a b : Z) : Z := wrap64 (a - b).

(** ** Atomic operations *)

(** One constructor per action a goroutine performs on the shared state
    in one step; the index is the type of what the action returns. *)
Inductive Op : Type -> Type :=
(* srv.lk *)
| SrvLock : Op unit
| SrvUnlock : Op unit
(* fields of srv *)
| MakeServer (t : Z) (l : Listener) : Op unit
| GetTmo : Op Z
| GetListen : Op (option Listener)
| SetListen (l : option Listener) : Op unit
| ConnsRange : Op (list SscId)
| ConnsLookup (ssc : SscId) : Op (option Z)
| ConnsStore (ssc : SscId) (v : Z) : Op unit
| ConnsDelete (ssc : SscId) : Op unit
(* srv.qch *)
| ChSend (q : Query) : Op unit
| ChRecv : Op (option Query)
| ChClosed : Op bool
| ChClose : Op unit
(* srv.fdl *)
| FdlInit (n : Z) : Op unit
| FdlLock : Op unit
| FdlUnlock : Op unit
(* package net *)
| Accept (l : Listener) : Op (option ConnId * option Error)
| SetKeepAlive (c : ConnId) (b : bool) : Op unit
| SetReadTimeout (c : ConnId) (d : Z) : Op (option Error)
| NewRunOnCloseConn (c : ConnId) : Op ConnId
| ConnClose (c : ConnId) : Op bool
| ListenerClose (l : Listener) : Op (option Error)
(* stampedServerConn and the embedded ServerConn *)
| AllocSsc (c : ConnId) (t : Z) : Op SscId
| SetStamp (ssc : SscId) (t : Z) : Op unit
| GetStamp (ssc : SscId) : Op Z
| ScRead (ssc : SscId) : Op ReadResult
| ScClose (ssc : SscId) : Op (option ConnId)
(* package time *)
| Nanoseconds : Op Z
| Sleep (d : Z) : Op unit
(* go statement *)
| Go (t : Task) : Op unit.

(** What an operation does in a state: it returns, blocks, or panics.
    [Accept] blocks until something has arrived and fails on a closed
    listener; a connection has one handle, before and after
    [NewRunOnCloseConn]; [ConnClose] closes the descriptor and reports
    whether the close hook is to run, which it then will not again;
    [ScRead] blocks until the peer has sent something and fails on a
    detached [ServerConn]. *)
Inductive OpResult (R : Type) : Type :=
| Ok (r : R) (w : World)
| Blocks
| Panics (msg : string).
Arguments Ok {R} r w.
Arguments Blocks {R}.
Arguments Panics {R} msg.

Definition upd_srv (f : Server -> Server) (w : World) : World :=
  with_srv (f (srv w)) w.

Definition close_conn (c : ConnId) (w : World) : World :=
  match netconns w !! c with
  | Some nc => with_netconns (<[c := mkNetConn false false (nc_settmo nc)]> (netconns w)) w
  | None => w
  end.

Definition hook_of (c : ConnId) (w : World) : bool :=
  match netconns w !! c with
  | Some nc => nc_hook nc
  | None => false
  end.

Definition alloc_conn (e : option Error) (w : World) : ConnId * World :=
  (length (netconns w),
   with_netconns (netconns w ++ [mkNetConn true false e]) w).

Definition do_op {R : Type} (op : Op R) (w : World) : OpResult R :=
  match op in Op R return OpResult R with
  | SrvLock =>
      if lk (srv w) then Blocks else Ok tt (upd_srv (set_lk true) w)
  | SrvUnlock =>
      if lk (srv w) then Ok tt (upd_srv (set_lk false) w)
      else Panics "sync: unlock of unlocked mutex"
  | MakeServer t l =>
      Ok tt (with_srv (mkServer t (Some l) ∅ (mkChan [] false false) (mkFdl 0 0) false) w)
  | GetTmo => Ok (tmo (srv w)) w
  | GetListen => Ok (listen (srv w)) w
  | SetListen l => Ok tt (upd_srv (set_listen l) w)
  | ConnsRange => Ok (map fst (map_to_list (conns (srv w)))) w
  | ConnsLookup ssc => Ok (conns (srv w) !! ssc) w
  | ConnsStore ssc v =>
      Ok tt (upd_srv (set_conns (<[ssc := v]> (conns (srv w)))) w)
  | ConnsDelete ssc =>
      Ok tt (upd_srv (set_conns (delete ssc (conns (srv w)))) w)
  | ChSend q =>
      if ch_closed (qch (srv w)) then Panics "send on closed channel"
      else Ok tt (upd_srv (set_qch (mkChan (ch_buf (qch (srv w)) ++ [q]) false
                                           (ch_seen (qch (srv w))))) w)
  | ChRecv =>
      match ch_buf (qch (srv w)) with
      | q :: rest =>
          Ok (Some q)
             (upd_srv (set_qch (mkChan rest (ch_closed (qch (srv w)))
                                       (ch_seen (qch (srv w))))) w)
      | [] =>
          if ch_closed (qch (srv w))
          then Ok None (upd_srv (set_qch (mkChan [] true true)) w)
          else Blocks
      end
  | ChClosed => Ok (ch_closed (qch (srv w)) && ch_seen (qch (srv w))) w
  | ChClose =>
      if ch_closed (qch (srv w)) then Panics "close of closed channel"
      else Ok tt (upd_srv (set_qch (mkChan [] true false)) w)
  | FdlInit n => Ok tt (upd_srv (set_fdl (mkFdl n 0)) w)
  | FdlLock =>
      if (count (fdl (srv w)) <? limit (fdl (srv w)))%Z
      then Ok tt (upd_srv (set_fdl (mkFdl (limit (fdl (srv w)))
                                         (count (fdl (srv w)) + 1))) w)
      else Blocks
  | FdlUnlock =>
      Ok tt (upd_srv (set_fdl (mkFdl (limit (fdl (srv w)))
                                    (count (fdl (srv w)) - 1))) w)
  | Accept l =>
      if lst_closed w then Ok (None, Some EBADF) w
      else match incoming w with
           | [] => Blocks
           | InConn e :: rest =>
               let (c, w') := alloc_conn e (with_incoming rest w) in
               Ok (Some c, None) w'
           | InErr true e :: rest =>
               let (c, w') := alloc_conn None (with_incoming rest w) in
               Ok (Some c, Some e) w'
           | InErr false e :: rest =>
               Ok (None, Some e) (with_incoming rest w)
           end
  | SetKeepAlive c b => Ok tt w
  | SetReadTimeout c d =>
      match netconns w !! c with
      | Some nc => Ok (nc_settmo nc) w
      | None => Ok (Some EBADF) w
      end
  | NewRunOnCloseConn c =>
      match netconns w !! c with
      | Some nc =>
          Ok c (with_netconns
                  (<[c := mkNetConn (nc_open nc) true (nc_settmo nc)]> (netconns w)) w)
      | None => Ok c w
      end
  | ConnClose c => Ok (hook_of c w) (close_conn c w)
  | ListenerClose l =>
      if lst_closed w then Ok (Some EBADF) w
      else Ok None (with_lst_closed true w)
  | AllocSsc c t =>
      Ok (length (sscs w)) (with_sscs (sscs w ++ [mkSsc (Some c) t []]) w)
  | SetStamp ssc t =>
      match sscs w !! ssc with
      | Some s => Ok tt (with_sscs (<[ssc := mkSsc (sc_conn s) t (sc_in s)]> (sscs w)) w)
      | None => Ok tt w
      end
  | GetStamp ssc =>
      match sscs w !! ssc with
      | Some s => Ok (stamp s) w
      | None => Ok 0%Z w
      end
  | ScRead ssc =>
      match sscs w !! ssc with
      | Some s =>
          match sc_conn s with
          | None => Ok (None, Some EBADF) w
          | Some _ =>
              match sc_in s with
              | [] => Blocks
              | r :: rest =>
                  Ok r (with_sscs (<[ssc := mkSsc (sc_conn s) (stamp s) rest]> (sscs w)) w)
              end
          end
      | None => Ok (None, Some EBADF) w
      end
  | ScClose ssc =>
      match sscs w !! ssc with
      | Some s =>
          Ok (sc_conn s)
             (with_sscs (<[ssc := mkSsc None (stamp s) (sc_in s)]> (sscs w)) w)
      | None => Ok None w
      end
  | Nanoseconds => Ok (now w) w
  | Sleep d => Ok tt (with_slept (slept w ++ [d]) w)
  | Go t => Ok tt (with_spawned (spawned w ++ [t]) w)
  end.

(** ** Programs *)

Inductive Prog (A : Type) : Type :=
| Ret (a : A)
| Vis {R : Type} (op : Op R) (k : R -> Prog A)
| Panic (msg : string).
Arguments Ret {A} a.
Arguments Vis {A R} op k.
Arguments Panic {A} msg.

Fixpoint bind {A B : Type} (p : Prog A) (f : A -> Prog B) : Prog B :=
  match p with
  | Ret a => f a
  | Vis op k => Vis op (fun r => bind (k r) f)
  | Panic msg => Panic msg
  end.

Definition call {R : Type} (op : Op R) : Prog R := Vis op Ret.

Notation "'let!' x ':=' p 'in' q" := (bind p (fun x => q))
  (at level 10, x name, p at level 100, q at level 200).
Notation "'do!' p 'in' q" := (bind p (fun _ => q))
  (at level 10, p at level 100, q at level 200).

(** How a loop body or a goroutine ends: [Continue] goes round the
    enclosing [for] again, [Return] leaves the function. *)
Inductive Ctl : Type := Continue | Return.

(** ** The server's functions (server.go) *)

(** [newStampedServerConn(c, r)]: a fresh wrapper stamped with the
    current time. *)
Definition newStampedServerConn (c : ConnId) : Prog SscId :=
  let! t := call Nanoseconds in
  call (AllocSsc c t).

(** [ssc.touch()], under [ssc.lk]. *)
Definition touch (ssc : SscId) : Prog unit :=
  let! t := call Nanoseconds in
  call (SetStamp ssc t).

(** [ssc.Read()]: touch, read, and the deferred touch. *)
Definition ssc_Read (ssc : SscId) : Prog ReadResult :=
  do! touch ssc in
  let! r := call (ScRead ssc) in
  do! touch ssc in
  Ret r.

(** [c.Close()] on a [net.Conn]: closes the descriptor and, for a
    connection wrapped by [NewRunOnCloseConn(c, func() { srv.fdl.Unlock() })],
    runs the hook, once.  Modelled from the spec: the wrapper (package
    util) is not among the sources; the hook releases the slot when the
    underlying connection is actually closed, and a second close does not
    release again. *)
Definition conn_Close (c : ConnId) : Prog unit :=
  let! fired := call (ConnClose c) in
  if (fired : bool) then call FdlUnlock else Ret tt.

(** [srv.register(ssc)]. *)
Definition register (ssc : SscId) : Prog bool :=
  do! call SrvLock in
  let! cl := call ChClosed in
  if (cl : bool) then
    do! call SrvUnlock in
    Ret false
  else
    let! present := call (ConnsLookup ssc) in
    match present with
    | Some _ => Panic "register twice"
    | None =>
        do! call (ConnsStore ssc 1) in
        do! call SrvUnlock in
        Ret true
    end.

(** [srv.unregister(ssc)]. *)
Definition unregister (ssc : SscId) : Prog unit :=
  do! call SrvLock in
  do! call (ConnsDelete ssc) in
  call SrvUnlock.

(** [srv.bury(ssc)]. *)
Definition bury (ssc : SscId) : Prog unit :=
  do! unregister ssc in
  let! c := call (ScClose ssc) in
  match c with
  | Some c => conn_Close c
  | None => Ret tt
  end.

(** [srv.acceptLoop()], lines 137-152: what one iteration does with a
    connection it has accepted. *)
Definition acceptLoop_conn (c : ConnId) : Prog Ctl :=
  do! call (SetKeepAlive c true) in
  let! t := call GetTmo in
  let! err := call (SetReadTimeout c t) in
  match err with
  | Some e =>
      do! conn_Close c in
      do! call FdlUnlock in
      do! call (ChSend (newQueryErr e)) in
      Ret Return
  | None =>
      let! c := call (NewRunOnCloseConn c) in
      let! ssc := newStampedServerConn c in
      let! ok := register ssc in
      do! (if (ok : bool) then Ret tt
           else do! call (ScClose ssc) in conn_Close c) in
      do! call (Go (TRead ssc)) in
      Ret Continue
  end.

(** [srv.acceptLoop()]: one iteration of the [for]. *)
Definition acceptLoop_body : Prog Ctl :=
  do! call SrvLock in
  let! l := call GetListen in
  do! call SrvUnlock in
  match l with
  | None => Ret Return
  | Some l =>
      do! call FdlLock in
      let! r := call (Accept l) in
      match r with
      | (c, Some e) =>
          do! match c with
              | Some c => conn_Close c
              | None => Ret tt
              end in
          do! call FdlUnlock in
          do! call (ChSend (newQueryErr e)) in
          Ret Return
      | (Some c, None) => acceptLoop_conn c
      | (None, None) => Panic "nil pointer dereference"
      end
  end.

(** [srv.expireLoop()]: the [for ssc := range srv.conns] that fills
    [kills].  Go leaves the order of a [range] over a map open; the model
    takes the keys in the order of [map_to_list], and nothing proved below
    depends on it. *)
Fixpoint collect_kills (t now : Z) (keys kills : list SscId)
  : Prog (list SscId) :=
  match keys with
  | [] => Ret kills
  | ssc :: rest =>
      let! st := call (GetStamp ssc) in
      collect_kills t now rest
        (if (t <=? sub64 now st)%Z then kills ++ [ssc] else kills)
  end.

(** The walk over [kills]. *)
Fixpoint bury_all (kills : list SscId) : Prog unit :=
  match kills with
  | [] => Ret tt
  | ssc :: rest => do! bury ssc in bury_all rest
  end.

(** The part of a cycle that runs under [srv.lk]: [None] when the
    listener is gone, otherwise the list of connections to kill. *)
Definition expireLoop_scan : Prog (option (list SscId)) :=
  do! call SrvLock in
  let! l := call GetListen in
  match l with
  | None =>
      do! call SrvUnlock in
      Ret None
  | Some _ =>
      let! now := call Nanoseconds in
      let! keys := call ConnsRange in
      let! t := call GetTmo in
      let! kills := collect_kills t now keys [] in
      do! call SrvUnlock in
      Ret (Some kills)
  end.

(** [srv.expireLoop()]: one iteration of the [for]. *)
Definition expireLoop_body : Prog Ctl :=
  let! scan := expireLoop_scan in
  match scan with
  | None => Ret Return
  | Some kills =>
      do! bury_all kills in
      let! t := call GetTmo in
      do! call (Sleep t) in
      Ret Continue
  end.

(** [srv.Read()], after the receive [q := <-srv.qch]. *)
Definition Read_check (q : option Query)
  : Prog (option Query * option Error) :=
  do! call SrvLock in
  let! cl := call ChClosed in
  if (cl : bool) then
    do! call SrvUnlock in
    Ret (None, Some EBADF)
  else
    do! call SrvUnlock in
    match q with
    | None => Panic "nil pointer dereference"
    | Some q =>
        match getError q with
        | Some err => Ret (None, Some err)
        | None => Ret (Some q, None)
        end
    end.

(** [srv.Read()]. *)
Definition Read : Prog (option Query * option Error) :=
  let! q := call ChRecv in
  Read_check q.

(** The type assertion of [err] to a [*os.PathError], followed by
    [perr.Error == os.EAGAIN]. *)
Definition is_timeout (err : option Error) : bool :=
  match err with
  | Some (PathError e) => error_eqb e EAGAIN
  | _ => false
  end.

(** [srv.read(ssc)]: every path through the body of its [for] returns. *)
Definition read (ssc : SscId) : Prog Ctl :=
  let! r := ssc_Read ssc in
  let (req, err) := (r : ReadResult) in
  if is_timeout err then
    do! bury ssc in
    Ret Return
  else
    match err with
    | Some _ =>
        do! bury ssc in
        Ret Return
    | None =>
        do! call (ChSend (mkQuery (Some ssc) req None false false)) in
        Ret Return
    end.

(** [srv.Shutdown()]: the [for ssc := range srv.conns] that force-closes
    the connections. *)
Fixpoint shutdown_conns (keys : list SscId) : Prog unit :=
  match keys with
  | [] => Ret tt
  | ssc :: rest =>
      let! c := call (ScClose ssc) in
      do! match c with
          | Some c => conn_Close c
          | None => Ret tt
          end in
      do! call (ConnsDelete ssc) in
      shutdown_conns rest
  end.

(** [srv.Shutdown()]. *)
Definition Shutdown : Prog (option Error) :=
  do! call SrvLock in
  let! l := call GetListen in
  do! call (SetListen None) in
  do! call ChClose in
  do! call SrvUnlock in
  let! err := match l with
              | Some l => call (ListenerClose l)
              | None => Ret None
              end in
  do! call SrvLock in
  let! keys := call ConnsRange in
  do! shutdown_conns keys in
  do! call SrvUnlock in
  Ret err.

(** [NewServer(l, tmo, fdlim)]. *)
Definition NewServer (l : Listener) (t : Z) (fdlim : Z) : Prog unit :=
  if (t <? 2)%Z then Panic "timeout too small"
  else
    do! call (MakeServer t l) in
    do! call (FdlInit fdlim) in
    do! call (Go TAcceptLoop) in
    do! call (Go TExpireLoop) in
    Ret tt.

(** ** Running programs *)

(** Running one goroutine alone until it returns, blocks or panics. *)
Inductive Outcome (A : Type) : Type :=
| Done (a : A) (w : World)
| Blocked (p : Prog A) (w : World)
| Panicked (msg : string) (w : World).
Arguments Done {A} a w.
Arguments Blocked {A} p w.
Arguments Panicked {A} msg w.

Fixpoint exec {A : Type} (p : Prog A) (w : World) : Outcome A :=
  match p with
  | Ret a => Done a w
  | Vis op k =>
      match do_op op w with
      | Ok r w' => exec (k r) w'
      | Blocks => Blocked p w
      | Panics msg => Panicked msg w
      end
  | Panic msg => Panicked msg w
  end.



(** ** The effect of the helpers on the state *)

Definition is_open (c : ConnId) (w : World) : bool :=
  match netconns w !! c with
  | Some nc => nc_open nc
  | None => false
  end.

Definition attached (ssc : SscId) (w : World) : option ConnId :=
  match sscs w !! ssc with
  | Some s => sc_conn s
  | None => None
  end.

Definition stamp_of (ssc : SscId) (w : World) : Z :=
  match sscs w !! ssc with
  | Some s => stamp s
  | None => 0%Z
  end.

Definition registered (ssc : SscId) (w : World) : Prop :=
  is_Some (conns (srv w) !! ssc).

Definition release_slot (w : World) : World :=
  upd_srv (set_fdl (mkFdl (limit (fdl (srv w))) (count (fdl (srv w)) - 1))) w.

Definition conn_Close_eff (c : ConnId) (w : World) : World :=
  if hook_of c w then release_slot (close_conn c w) else close_conn c w.

Definition unregister_eff (ssc : SscId) (w : World) : World :=
  upd_srv (set_conns (delete ssc (conns (srv w)))) w.

Definition detach (ssc : SscId) (w : World) : World :=
  match sscs w !! ssc with
  | Some s => with_sscs (<[ssc := mkSsc None (stamp s) (sc_in s)]> (sscs w)) w
  | None => w
  end.

Definition force_close (ssc : SscId) (w : World) : World :=
  match attached ssc w with
  | Some c => conn_Close_eff c (detach ssc w)
  | None => detach ssc w
  end.

Definition bury_eff (ssc : SscId) (w : World) : World :=
  force_close ssc (unregister_eff ssc w).

Definition bury_all_eff (kills : list SscId) (w : World) : World :=
  foldl (fun w ssc => bury_eff ssc w) w kills.

Definition shutdown_one (w : World) (ssc : SscId) : World :=
  unregister_eff ssc (force_close ssc w).

Definition shutdown_conns_eff (keys : list SscId) (w : World) : World :=
  foldl shutdown_one w keys.

(** The connections the expiry loop selects at time [now]. *)
Definition expired (t now : Z) (w : World) (ssc : SscId) : bool :=
  (t <=? sub64 now (stamp_of ssc w))%Z.


(** The state in which [Shutdown] leaves the server, and its result. *)
Definition Shutdown_closed (w : World) : World :=
  upd_srv (fun s => set_qch (mkChan [] true false) (set_listen None s)) w.

Definition Shutdown_listener (w : World) : option Error * World :=
  match listen (srv w) with
  | Some _ =>
      if lst_closed w then (Some EBADF, Shutdown_closed w)
      else (None, with_lst_closed true (Shutdown_closed w))
  | None => (None, Shutdown_closed w)
  end.

Definition Shutdown_eff (w : World) : option Error * World :=
  let (err, w1) := Shutdown_listener w in
  (err, upd_srv (set_lk false)
          (shutdown_conns_eff (map fst (map_to_list (conns (srv w))))
             (upd_srv (set_lk true) w1))).

(** ** Goroutines running together *)

(** A goroutine: what is left of the current pass through its [for]
    body, and the body, with which it starts over after [Continue]. *)
Record Thread : Type := mkThread {
  cur : Prog Ctl;
  body : Prog Ctl
}.

Definition thread_of (t : Task) : Thread :=
  match t with
  | TAcceptLoop => mkThread acceptLoop_body acceptLoop_body
  | TExpireLoop => mkThread expireLoop_body expireLoop_body
  | TRead ssc => mkThread (read ssc) (read ssc)
  end.

(** What the application does with the server: it calls [Read] and
    [Shutdown].  Modelled from the spec: the methods of [Query] are not
    among the sources; with a Query in hand the application replies and
    then has the server read the connection again or bury it. *)
Inductive Call : Type :=
| CallRead
| CallShutdown
| CallContinue (ssc : SscId)
| CallBury (ssc : SscId).

Definition once {A : Type} (p : Prog A) : Thread :=
  mkThread (do! p in Ret Return) (do! p in Ret Return).

Definition client (c : Call) : Thread :=
  match c with
  | CallRead => once Read
  | CallShutdown => once Shutdown
  | CallContinue ssc => thread_of (TRead ssc)
  | CallBury ssc => once (bury ssc)
  end.

(** One atomic operation of a goroutine. *)
Definition step1 (p : Prog Ctl) (w : World) : option (Prog Ctl * World) :=
  match p with
  | Vis op k =>
      match do_op op w with
      | Ok r w' => Some (k r, w')
      | _ => None
      end
  | _ => None
  end.

(** The goroutines a step has started. *)
Definition new_tasks (w w' : World) : list Task :=
  drop (length (spawned w)) (spawned w').

(** The environment: a peer connects or the listener fails, a peer sends
    something on a connection or the read on it fails, time passes. *)
Inductive env_step : World -> World -> Prop :=
| env_arrive w i :
    env_step w (with_incoming (incoming w ++ [i]) w)
| env_data w ssc s r :
    sscs w !! ssc = Some s ->
    env_step w (with_sscs (<[ssc := mkSsc (sc_conn s) (stamp s) (sc_in s ++ [r])]> (sscs w)) w)
| env_tick w d :
    (0 <= d)%Z ->
    env_step w (with_now (now w + d) w).

Inductive step : World * list Thread -> World * list Thread -> Prop :=
| step_run w ths i th p' w' :
    ths !! i = Some th ->
    step1 (cur th) w = Some (p', w') ->
    step (w, ths)
         (w', <[i := mkThread p' (body th)]> ths ++ map thread_of (new_tasks w w'))
| step_loop w ths i th :
    ths !! i = Some th ->
    cur th = Ret Continue ->
    step (w, ths) (w, <[i := mkThread (body th) (body th)]> ths)
| step_call w ths c :
    step (w, ths) (w, ths ++ [client c])
| step_env w w' ths :
    env_step w w' ->
    step (w, ths) (w', ths).

(** The state before [NewServer]: no connection has been seen. *)
Definition world0 : World :=
  mkWorld (mkServer 0 None ∅ (mkChan [] false false) (mkFdl 0 0) false)
          [] [] [] false 0 [] [].

(** [NewServer] and the goroutines it starts. *)
Definition boot (l : Listener) (t fdlim : Z) : option (World * list Thread) :=
  match exec (NewServer l t fdlim) world0 with
  | Done _ w => Some (w, map thread_of (spawned w))
  | _ => None
  end.

Inductive reachable (l : Listener) (t fdlim : Z)
  : World * list Thread -> Prop :=
| reach_boot cfg :
    boot l t fdlim = Some cfg -> reachable l t fdlim cfg
| reach_step cfg cfg' :
    reachable l t fdlim cfg -> step cfg cfg' -> reachable l t fdlim cfg'.

(** The number of connections whose descriptor is open, and of those
    whose close hook is still to run. *)
Definition open_conns (w : World) : nat :=
  length (List.filter nc_open (netconns w)).
Definition armed_conns (w : World) : nat :=
  length (List.filter nc_hook (netconns w)).

(** *** Who holds which slot *)

(** What a goroutine holds at a point of its program: [r_slots] slots
    taken from the limiter and not yet given back or tied to a close hook;
    [r_raws], the connections it has accepted and not yet wrapped or
    closed; [r_known], connections it knows to be wrapped or closed. *)
Record Res : Type := mkRes {
  r_slots : nat;
  r_raws : list ConnId;
  r_known : list ConnId
}.

Definition res0 : Res := mkRes 0 [] [].

(** What an operation requires of the holdings before it and what it
    leaves to its continuation [K]. *)
Definition safe_op {R : Type} (op : Op R) (r : Res)
  : (R -> Res -> Prop) -> Prop :=
  match op in Op R return (R -> Res -> Prop) -> Prop with
  | MakeServer _ _ => fun _ => False
  | FdlInit _ => fun _ => False
  | FdlLock => fun K =>
      K tt (mkRes (S (r_slots r)) (r_raws r) (r_known r))
  | FdlUnlock => fun K =>
      length (r_raws r) < r_slots r
      /\ K tt (mkRes (pred (r_slots r)) (r_raws r) (r_known r))
  | Accept _ => fun K =>
      length (r_raws r) < r_slots r
      /\ forall c e,
           K (c, e) match c with
                    | Some c => mkRes (r_slots r) (c :: r_raws r) (r_known r)
                    | None => r
                    end
  | NewRunOnCloseConn c => fun K =>
      In c (r_raws r)
      /\ K c (mkRes (pred (r_slots r)) (remove Nat.eq_dec c (r_raws r))
                    (c :: r_known r))
  | ConnClose c => fun K =>
      (In c (r_raws r)
       /\ K false (mkRes (r_slots r) (remove Nat.eq_dec c (r_raws r))
                         (c :: r_known r)))
      \/ (In c (r_known r)
          /\ K true (mkRes (S (r_slots r)) (r_raws r) (r_known r))
          /\ K false r)
  | ScClose _ => fun K =>
      K None r
      /\ forall c, K (Some c) (mkRes (r_slots r) (r_raws r) (c :: r_known r))
  | AllocSsc c _ => fun K =>
      In c (r_known r) /\ forall x, K x r
  | _ => fun K => forall x, K x r
  end.

(** From holdings [r], every operation of the program finds what it
    requires, and the program returns with a result and holdings that
    satisfy [Q]. *)
Fixpoint holds {A : Type} (p : Prog A) (r : Res) (Q : A -> Res -> Prop)
  : Prop :=
  match p with
  | Ret a => Q a r
  | Vis op k => safe_op op r (fun x r' => holds (k x) r' Q)
  | Panic _ => True
  end.

(** A program is slot-safe from holdings [r] when it ends holding no
    slot and no unwrapped connection. *)
Definition slot_safe {A : Type} (p : Prog A) (r : Res) : Prop :=
  holds p r (fun _ r' => r_slots r' = 0 /\ r_raws r' = []).

(** A connection accepted and neither wrapped nor closed; its negation
    for a connection that exists. *)
Definition israw (c : ConnId) (w : World) : Prop :=
  is_open c w = true /\ hook_of c w = false.
Definition nonraw (c : ConnId) (w : World) : Prop :=
  c < length (netconns w) /\ (is_open c w = false \/ hook_of c w = true).

(** The slots and the unwrapped connections the goroutines hold. *)
Fixpoint slots_held (rs : list Res) : nat :=
  match rs with
  | [] => 0
  | r :: rs' => r_slots r + slots_held rs'
  end.

Fixpoint raws_held (rs : list Res) : list ConnId :=
  match rs with
  | [] => []
  | r :: rs' => r_raws r ++ raws_held rs'
  end.

(** The invariant: the goroutines are slot-safe from holdings that add
    up, together with the armed close hooks, to the limiter's count. *)
Record Inv (C : Z) (w : World) (ths : list Thread) (rs : list Res) : Prop := {
  inv_safe :
    Forall2 (fun th r => slot_safe (cur th) r /\ slot_safe (body th) res0) ths rs;
  inv_limit : limit (fdl (srv w)) = C;
  inv_count :
    count (fdl (srv w)) = Z.of_nat (armed_conns w + slots_held rs);
  inv_bound : (count (fdl (srv w)) <= C)%Z;
  inv_raws_len : Forall (fun r => length (r_raws r) <= r_slots r) rs;
  inv_raws_raw :
    forall i r c, rs !! i = Some r -> In c (r_raws r) -> israw c w;
  inv_raws_own :
    forall i j ri rj c, rs !! i = Some ri -> rs !! j = Some rj ->
                        In c (r_raws ri) -> In c (r_raws rj) -> i = j;
  inv_raw_held :
    forall c, israw c w -> exists i r, rs !! i = Some r /\ In c (r_raws r);
  inv_known :
    forall i r c, rs !! i = Some r -> In c (r_known r) -> nonraw c w;
  inv_attached :
    forall ssc c, attached ssc w = Some c -> nonraw c w
}.

Definition b2n (b : bool) : nat := if b then 1 else 0.

(** An open connection without a close hook. *)
Definition raw_nc (nc : NetConn) : bool := nc_open nc && negb (nc_hook nc).
(** What a step of a goroutine, from holdings [ri] to [ri'] and from
    state [w] to [w'], must respect. *)
Record trade (C : Z) (w : World) (ri : Res) (w' : World) (ri' : Res) : Prop := {
  tr_limit : limit (fdl (srv w')) = limit (fdl (srv w));
  tr_count :
    (count (fdl (srv w')) + Z.of_nat (armed_conns w) + Z.of_nat (r_slots ri)
     = count (fdl (srv w)) + Z.of_nat (armed_conns w') + Z.of_nat (r_slots ri'))%Z;
  tr_bound : (count (fdl (srv w')) <= C)%Z;
  tr_len : length (r_raws ri') <= r_slots ri';
  tr_raw : forall c, In c (r_raws ri') -> israw c w';
  tr_keep : forall c, israw c w -> israw c w' \/ In c (r_raws ri);
  tr_new : forall c, In c (r_raws ri') ->
                     In c (r_raws ri) \/ ~ c < length (netconns w);
  tr_held : forall c, israw c w' ->
                      In c (r_raws ri') \/ (israw c w /\ ~ In c (r_raws ri));
  tr_stable : forall c, nonraw c w -> nonraw c w';
  tr_known : forall c, In c (r_known ri') -> nonraw c w';
  tr_attached : forall ssc c, attached ssc w' = Some c ->
                              attached ssc w = Some c \/ nonraw c w'
}.

(** ** Schedules and example states *)

(** What can happen next, and its effect when it can happen now. *)
Inductive Event : Type :=
| Run (i : nat)
| Arrive (i : Incoming)
| Data (ssc : SscId) (r : ReadResult)
| Tick (d : Z)
| Calls (c : Call).

Definition run_thread (i : nat) (cfg : World * list Thread)
  : option (World * list Thread) :=
  let (w, ths) := cfg in
  match ths !! i with
  | Some th =>
      match cur th with
      | Ret Continue => Some (w, <[i := mkThread (body th) (body th)]> ths)
      | p =>
          match step1 p w with
          | Some (p', w') =>
              Some (w', <[i := mkThread p' (body th)]> ths
                        ++ map thread_of (new_tasks w w'))
          | None => None
          end
      end
  | None => None
  end.

Definition apply_event (e : Event) (cfg : World * list Thread)
  : option (World * list Thread) :=
  match e with
  | Run i => run_thread i cfg
  | Arrive i =>
      Some (with_incoming (incoming (fst cfg) ++ [i]) (fst cfg), snd cfg)
  | Data ssc r =>
      match sscs (fst cfg) !! ssc with
      | Some s =>
          Some (with_sscs (<[ssc := mkSsc (sc_conn s) (stamp s) (sc_in s ++ [r])]>
                             (sscs (fst cfg))) (fst cfg), snd cfg)
      | None => None
      end
  | Tick d =>
      if (0 <=? d)%Z then Some (with_now (now (fst cfg) + d) (fst cfg), snd cfg)
      else None
  | Calls c => Some (fst cfg, snd cfg ++ [client c])
  end.

Fixpoint schedule (es : list Event) (cfg : World * list Thread)
  : option (World * list Thread) :=
  match es with
  | [] => Some cfg
  | e :: es' =>
      match apply_event e cfg with
      | Some cfg' => schedule es' cfg'
      | None => None
      end
  end.

(** A server with room for two connections and a timeout of 5, at time
    100, with [inc] waiting at the listener. *)
Definition world_ex (inc : list Incoming) : World :=
  mkWorld (mkServer 5 (Some 0) ∅ (mkChan [] false false) (mkFdl 2 0) false)
          [] [] inc false 100 [] [].

(** The first [n] operations of a program. *)
Fixpoint run_ops {A : Type} (n : nat) (p : Prog A) (w : World)
  : Prog A * World :=
  match n with
  | O => (p, w)
  | S n' =>
      match p with
      | Vis op k =>
          match do_op op w with
          | Ok r w' => run_ops n' (k r) w'
          | _ => (p, w)
          end
      | _ => (p, w)
      end
  end.

Definition world_after {A : Type} (p : Prog A) (w : World) : World :=
  match exec p w with
  | Done _ w' => w'
  | Blocked _ w' => w'
  | Panicked _ w' => w'
  end.

(** One connection accepted and registered. *)
Definition world_one : World :=
  world_after acceptLoop_body (world_ex [InConn None]).

(** The same, with a failed read pending on it. *)
Definition world_read_fails : World :=
  with_sscs [mkSsc (Some 0) 100 [(None, Some (PathError EAGAIN))]] world_one.

(** The same, 50 time units later. *)
Definition world_later : World := with_now 150 world_one.

(** The same, with the request read from it waiting in the channel. *)
Definition query_ex : Query := mkQuery (Some 0) (Some 1) None false false.
Definition world_query : World :=
  upd_srv (set_qch (mkChan [query_ex] false false)) world_one.

(** The state a schedule leads to from [NewServer]; the events that
    cannot happen when their turn comes end the schedule. *)
Definition run_events (l : Listener) (t fdlim : Z) (es : list Event)
  : World * list Thread :=
  match boot l t fdlim with
  | Some cfg0 =>
      match schedule es cfg0 with
      | Some cfg => cfg
      | None => cfg0
      end
  | None => (world0, [])
  end.

(** The two connections the limiter allows, accepted one after the other,
    a third one waiting; the accept loop then takes three more steps, up
    to the limiter. *)
Definition events_full : list Event :=
  [Arrive (InConn None); Arrive (InConn None); Arrive (InConn None)]
  ++ repeat (Run 0) 39.

Definition cfg_full : World * list Thread := run_events 0 5 2 events_full.

(** The accept loop has taken a connection from the listener (five
    operations into its iteration) and the application waits in [Read]
    when it calls [Shutdown], which runs to its end (nine operations);
    the close releases the [Read], whose receive yields nil and which
    returns (four operations). *)
Definition events_race : list Event :=
  [Arrive (InConn None)] ++ repeat (Run 0) 5
  ++ [Calls CallRead; Calls CallShutdown] ++ repeat (Run 3) 9
  ++ repeat (Run 2) 4.

Definition cfg_race : World * list Thread := run_events 0 5 2 events_race.

Definition world_race : World := fst cfg_race.

(** The same without the [Read]: nothing has received from the channel
    since [Shutdown] closed it.  The accept loop has gone on with the
    connection it had accepted (six operations) and is about to call
    [register]. *)
Definition events_unseen : list Event :=
  [Arrive (InConn None)] ++ repeat (Run 0) 5
  ++ [Calls CallShutdown] ++ repeat (Run 2) 9
  ++ repeat (Run 0) 6.

Definition cfg_unseen : World * list Thread := run_events 0 5 2 events_unseen.

Definition world_unseen : World := fst cfg_unseen.

(** After [bury] a goroutine holds what it held before. *)
Definition same_holdings (r : Res) (_ : unit) (r' : Res) : Prop :=
  r_slots r' = r_slots r /\ r_raws r' = r_raws r.

(** One connection accepted and registered, a request read from it
    pending. *)
Definition world_request : World :=
  with_sscs [mkSsc (Some 0) 100 [(Some 1, None)]] world_one.
(** ** The mutex [srv.lk] *)

(** What an operation requires of the goroutine that performs it: [h],
    it holds [srv.lk]; [d], it has set the listener reference to nil and
    not yet closed the channel.  The fields [listen] and [conns], and
    [closed(srv.qch)] and [close(srv.qch)], are for the holder only. *)
Definition lock_op {R : Type} (op : Op R) (h d : bool)
  : (R -> bool -> bool -> Prop) -> Prop :=
  match op in Op R return (R -> bool -> bool -> Prop) -> Prop with
  | MakeServer _ _ => fun _ => False
  | SrvLock => fun K => h = false /\ K tt true false
  | SrvUnlock => fun K => h = true /\ d = false /\ K tt false false
  | SetListen None => fun K => h = true /\ K tt true true
  | SetListen (Some _) => fun _ => False
  | ChClose => fun K => h = true /\ d = true /\ K tt true false
  | GetListen => fun K => h = true /\ forall x, K x h d
  | ConnsRange => fun K => h = true /\ forall x, K x h d
  | ConnsLookup _ => fun K => h = true /\ forall x, K x h d
  | ConnsStore _ _ => fun K => h = true /\ forall x, K x h d
  | ConnsDelete _ => fun K => h = true /\ forall x, K x h d
  | ChClosed => fun K => h = true /\ forall x, K x h d
  | _ => fun K => forall x, K x h d
  end.

Fixpoint lock_holds {A : Type} (p : Prog A) (h d : bool)
    (Q : A -> bool -> bool -> Prop) : Prop :=
  match p with
  | Ret a => Q a h d
  | Vis op k => lock_op op h d (fun x h' d' => lock_holds (k x) h' d' Q)
  | Panic _ => True
  end.

(** A program keeps the lock discipline when, started without the mutex,
    it takes it before every such access and ends without it. *)
Definition lock_safe {A : Type} (p : Prog A) : Prop :=
  lock_holds p false false (fun _ h d => h = false /\ d = false).

(** The operations only the holder of the mutex performs. *)
Definition protected {R : Type} (op : Op R) : bool :=
  match op with
  | SrvUnlock | GetListen | SetListen _ | ConnsRange | ConnsLookup _
  | ConnsStore _ _ | ConnsDelete _ | ChClosed | ChClose => true
  | _ => false
  end.

(** A goroutine whose next operation is one of those. *)
Definition critical {A : Type} (p : Prog A) : Prop :=
  match p with
  | Vis op _ => protected op = true
  | _ => False
  end.

(** The invariant: [ho] is the goroutine that holds the mutex, if any;
    [d] tells whether it is between [srv.listen = nil] and
    [close(srv.qch)]. *)
Record LockInv (w : World) (ths : list Thread) (ho : option nat) (d : bool)
  : Prop := {
  li_safe :
    forall i th, ths !! i = Some th ->
      lock_holds (cur th) (bool_decide (ho = Some i))
                 (d && bool_decide (ho = Some i))
                 (fun _ h d => h = false /\ d = false)
      /\ lock_safe (body th);
  li_lk : lk (srv w) = true <-> is_Some ho;
  li_range : forall i, ho = Some i -> i < length ths;
  li_debt : d = true -> is_Some ho /\ listen (srv w) = None;
  li_agree :
    d = false -> (listen (srv w) = None <-> ch_closed (qch (srv w)) = true)
}.

(** What one operation of a goroutine does to the mutex, the listener
    reference and the channel: [h], [d] before and [h'], [d'] after. *)
Inductive lock_move (w w' : World) : bool -> bool -> bool -> bool -> Prop :=
| lm_same h d :
    lk (srv w') = lk (srv w) ->
    listen (srv w') = listen (srv w) ->
    ch_closed (qch (srv w')) = ch_closed (qch (srv w)) ->
    lock_move w w' h d h d
| lm_lock d :
    lk (srv w) = false -> lk (srv w') = true ->
    listen (srv w') = listen (srv w) ->
    ch_closed (qch (srv w')) = ch_closed (qch (srv w)) ->
    lock_move w w' false d true false
| lm_unlock :
    lk (srv w') = false ->
    listen (srv w') = listen (srv w) ->
    ch_closed (qch (srv w')) = ch_closed (qch (srv w)) ->
    lock_move w w' true false false false
| lm_nil d :
    lk (srv w') = lk (srv w) ->
    listen (srv w') = None ->
    ch_closed (qch (srv w')) = ch_closed (qch (srv w)) ->
    lock_move w w' true d true true
| lm_close :
    lk (srv w') = lk (srv w) ->
    listen (srv w') = listen (srv w) ->
    ch_closed (qch (srv w')) = true ->
    lock_move w w' true true true false.
(** The application calls [Shutdown], which has taken the mutex. *)
Definition events_locked : list Event := [Calls CallShutdown; Run 2].

Definition cfg_locked : World * list Thread := run_events 0 5 2 events_locked.
(** ** The panics that never happen *)

(** What the builtin [closed(srv.qch)] reports. *)
Definition closed_seen (w : World) : bool :=
  ch_closed (qch (srv w)) && ch_seen (qch (srv w)).

(** What a goroutine knows at a point of its program: [f], a server
    connection it has just made and not yet registered; [kc], that
    [closed(srv.qch)] holds.  [srv.conns[ssc]] is looked up for such a
    connection only, and finds nothing; [Accept] returns a connection or
    an error; [closed(srv.qch)] is true for who has received from the
    closed channel. *)
Definition np_op {R : Type} (op : Op R) (f : option SscId) (kc : bool)
  : (R -> option SscId -> bool -> Prop) -> Prop :=
  match op in Op R return (R -> option SscId -> bool -> Prop) -> Prop with
  | MakeServer _ _ => fun _ => False
  | AllocSsc _ _ => fun K => forall x, K x (Some x) kc
  | ConnsLookup ssc => fun K => f = Some ssc /\ K None f kc
  | ConnsStore ssc _ => fun K => f = Some ssc /\ K tt None kc
  | Accept _ => fun K => forall x, x <> (None, None) -> K x f kc
  | ChRecv => fun K => (forall q, K (Some q) f kc) /\ K None f true
  | ChClosed => fun K => K true f kc /\ (kc = false -> K false f kc)
  | _ => fun K => forall x, K x f kc
  end.

(** No path of the program leads to a [panic] statement. *)
Fixpoint np_holds {A : Type} (p : Prog A) (f : option SscId) (kc : bool)
  : Prop :=
  match p with
  | Ret _ => True
  | Vis op k => np_op op f kc (fun x f' kc' => np_holds (k x) f' kc')
  | Panic _ => False
  end.

Definition np_safe {A : Type} (p : Prog A) : Prop := np_holds p None false.

(** The invariant: what is registered has been made; what a goroutine has
    just made is not registered, and is no other goroutine's;
    [closed(srv.qch)] holds when a goroutine knows it to. *)
Record NpInv (w : World) (ths : list Thread)
    (ks : list (option SscId * bool)) : Prop := {
  np_threads :
    Forall2 (fun th k => np_holds (cur th) (fst k) (snd k) /\ np_safe (body th))
            ths ks;
  np_made :
    forall ssc, is_Some (conns (srv w) !! ssc) -> ssc < length (sscs w);
  np_fresh :
    forall i k ssc, ks !! i = Some k -> fst k = Some ssc ->
      ssc < length (sscs w) /\ conns (srv w) !! ssc = None;
  np_own :
    forall i j ki kj ssc, ks !! i = Some ki -> ks !! j = Some kj ->
      fst ki = Some ssc -> fst kj = Some ssc -> i = j;
  np_closed :
    forall i k, ks !! i = Some k -> snd k = true ->
      closed_seen w = true
}.

(** What one operation does to the registry, the server connections and
    the channel, and to what the goroutine knows. *)
Record np_move (w w' : World) (f : option SscId) (kc : bool)
    (f' : option SscId) (kc' : bool) : Prop := {
  nm_closed : closed_seen w = true -> closed_seen w' = true;
  nm_knows : kc' = true -> closed_seen w' = true;
  nm_sscs : length (sscs w) <= length (sscs w');
  nm_conns :
    forall ssc, is_Some (conns (srv w') !! ssc) ->
      is_Some (conns (srv w) !! ssc) \/ (f = Some ssc /\ f' = None);
  nm_fresh :
    forall ssc, f' = Some ssc ->
      f = Some ssc \/ (ssc = length (sscs w) /\ ssc < length (sscs w'))
}.
(** * RPC arguments and return values (package rpc) *)

Module rpc.

(** An [os.Error] made by [os.NewError]. *)
Inductive OsError : Type := NewError (msg : string).

Definition ErrArg : OsError := NewError "bad or missing RPC argument".

(** A value of type [interface{}]: the strings and the ints the setters
    store, and whatever else [SetInterface] or the JSON decoder puts
    there. *)
Inductive Iface : Type :=
| VString (s : string)
| VInt (n : Z)
| VOther (tag : nat).

(** A [*http.Cookie]. *)
Abbreviation CookiePtr := nat (only parsing).

(** [Args]; a map that is [nil] is [None]. *)
Record Args : Type := mkArgs {
  Method : string;
  Cookies : list CookiePtr;
  Query : option (gmap string (list string));
  Body : option (gmap string Iface)
}.

(** [a.QueryBool(key)]. *)
Definition QueryBool (a : Args) (key : string) : bool * option OsError :=
  match Query a with
  | None => (false, Some ErrArg)
  | Some m =>
      match m !! key with
      | None => (false, Some ErrArg)
      | Some [] => (false, Some ErrArg)
      | Some (v0 :: _) =>
          if String.eqb v0 "0" then (false, None)
          else if String.eqb v0 "1" then (true, None)
          else (false, Some ErrArg)
      end
  end.

(** [a.QueryString(key)]. *)
Definition QueryString (a : Args) (key : string) : string * option OsError :=
  match Query a with
  | None => (EmptyString, Some ErrArg)
  | Some m =>
      match m !! key with
      | None => (EmptyString, Some ErrArg)
      | Some [] => (EmptyString, Some ErrArg)
      | Some (v0 :: _) => (v0, None)
      end
  end.

(** [Ret]. *)
Record Ret : Type := mkRet {
  SetCookies : list CookiePtr;
  Value : option (gmap string Iface)
}.

(** [r.initIfZero()]. *)
Definition initIfZero (r : Ret) : Ret :=
  match Value r with
  | None => mkRet (SetCookies r) (Some ∅)
  | Some _ => r
  end.

(** [r.Value[key] = v]; an assignment to an entry of a nil map panics,
    which is [None] here. *)
Definition assign (r : Ret) (key : string) (v : Iface) : option Ret :=
  match Value r with
  | None => None
  | Some m => Some (mkRet (SetCookies r) (Some (<[key := v]> m)))
  end.

(** [r.SetBool(key, value)]. *)
Definition SetBool (r : Ret) (key : string) (value : bool) : option Ret :=
  let r := initIfZero r in
  let s := if value then "1"%string else "0"%string in
  assign r key (VString s).

(** [r.SetInt(key, value)]. *)
Definition SetInt (r : Ret) (key : string) (value : Z) : option Ret :=
  let r := initIfZero r in
  assign r key (VInt value).

(** [r.SetString(key, value)]. *)
Definition SetString (r : Ret) (key : string) (value : string) : option Ret :=
  let r := initIfZero r in
  assign r key (VString value).

(** [r.SetInterface(key, value)]. *)
Definition SetInterface (r : Ret) (key : string) (value : Iface) : option Ret :=
  let r := initIfZero r in
  assign r key value.

(** [r.AddSetCookie(setCookie)]. *)
Definition AddSetCookie (r : Ret) (setCookie : CookiePtr) : Ret :=
  let r := initIfZero r in
  mkRet (SetCookies r ++ [setCookie]) (Value r).

(** What a key maps to in [r.Value]; nothing in a nil map. *)
Definition value_of (r : Ret) (key : string) : option Iface :=
  match Value r with
  | Some m => m !! key
  | None => None
  end.

(** One of the four setters, with the value it stores. *)
Inductive Setter : Type :=
| ByBool (b : bool)
| ByInt (n : Z)
| ByString (s : string)
| ByInterface (v : Iface).

Definition set (r : Ret) (key : string) (s : Setter) : option Ret :=
  match s with
  | ByBool b => SetBool r key b
  | ByInt n => SetInt r key n
  | ByString s => SetString r key s
  | ByInterface v => SetInterface r key v
  end.

Definition stored (s : Setter) : Iface :=
  match s with
  | ByBool b => VString (if b then "1" else "0")
  | ByInt n => VInt n
  | ByString s => VString s
  | ByInterface v => v
  end.

End rpc.

(** * Properties *)

Ltac open_world w :=
  destruct w as [[?wt ?wl ?wm [?wbuf ?wcl ?wseen] [?wlim ?wcnt] ?wlk]
                   ?wncs ?wss ?winc ?wlc ?wnow ?wsl ?wsp];
  cbn in *; subst.

Lemma exec_bind {A B : Type} (p : Prog A) (f : A -> Prog B) (w : World) :
  exec (bind p f) w =
  match exec p w with
  | Done a w' => exec (f a) w'
  | Blocked p' w' => Blocked (bind p' f) w'
  | Panicked msg w' => Panicked msg w'
  end.
Proof.
  revert w. induction p as [a | R op k IH | msg]; intros w; simpl; try reflexivity.
  destruct (do_op op w); try reflexivity. apply IH.
Qed.

(** *** Frame facts about the effects *)

Lemma srv_close_conn c w : srv (close_conn c w) = srv w.
Proof. unfold close_conn. destruct (netconns w !! c); reflexivity. Qed.

Lemma sscs_close_conn c w : sscs (close_conn c w) = sscs w.
Proof. unfold close_conn. destruct (netconns w !! c); reflexivity. Qed.

Lemma spawned_close_conn c w : spawned (close_conn c w) = spawned w.
Proof. unfold close_conn. destruct (netconns w !! c); reflexivity. Qed.

Lemma srv_detach ssc w : srv (detach ssc w) = srv w.
Proof. unfold detach. destruct (sscs w !! ssc); reflexivity. Qed.

Lemma netconns_detach ssc w : netconns (detach ssc w) = netconns w.
Proof. unfold detach. destruct (sscs w !! ssc); reflexivity. Qed.

Lemma spawned_detach ssc w : spawned (detach ssc w) = spawned w.
Proof. unfold detach. destruct (sscs w !! ssc); reflexivity. Qed.

Lemma is_open_close_conn c c' w :
  is_open c' (close_conn c w) = if decide (c = c') then false else is_open c' w.
Proof.
  unfold is_open, close_conn.
  destruct (netconns w !! c) as [nc|] eqn:E; simpl.
  - destruct (decide (c = c')) as [->|Hne].
    + rewrite list_lookup_insert_eq; [reflexivity|].
      apply lookup_lt_Some in E. exact E.
    + rewrite list_lookup_insert_ne by exact Hne. reflexivity.
  - destruct (decide (c = c')) as [->|Hne]; [|reflexivity].
    rewrite E. reflexivity.
Qed.

Lemma is_open_conn_Close_eff c c' w :
  is_open c' (conn_Close_eff c w) = if decide (c = c') then false else is_open c' w.
Proof.
  unfold conn_Close_eff. destruct (hook_of c w).
  - unfold release_slot, is_open. simpl. apply is_open_close_conn.
  - apply is_open_close_conn.
Qed.

Lemma is_open_detach ssc c w : is_open c (detach ssc w) = is_open c w.
Proof. unfold is_open. rewrite netconns_detach. reflexivity. Qed.

Lemma is_open_force_close_mono ssc c w :
  is_open c w = false -> is_open c (force_close ssc w) = false.
Proof.
  intros H. unfold force_close. destruct (attached ssc w) as [c0|].
  - rewrite is_open_conn_Close_eff. case_decide; [reflexivity|].
    rewrite is_open_detach. exact H.
  - rewrite is_open_detach. exact H.
Qed.

Lemma is_open_force_close ssc c w :
  attached ssc w = Some c -> is_open c (force_close ssc w) = false.
Proof.
  intros H. unfold force_close. rewrite H.
  rewrite is_open_conn_Close_eff. case_decide; [reflexivity|congruence].
Qed.

Lemma attached_detach ssc ssc' w :
  attached ssc' (detach ssc w) =
  if decide (ssc = ssc') then None else attached ssc' w.
Proof.
  unfold attached, detach.
  destruct (sscs w !! ssc) as [s|] eqn:E; simpl.
  - destruct (decide (ssc = ssc')) as [->|Hne].
    + rewrite list_lookup_insert_eq; [reflexivity|].
      apply lookup_lt_Some in E. exact E.
    + rewrite list_lookup_insert_ne by exact Hne. reflexivity.
  - destruct (decide (ssc = ssc')) as [->|Hne]; [|reflexivity].
    rewrite E. reflexivity.
Qed.

Lemma sscs_conn_Close_eff c w : sscs (conn_Close_eff c w) = sscs w.
Proof.
  unfold conn_Close_eff. destruct (hook_of c w); simpl; apply sscs_close_conn.
Qed.

Lemma attached_force_close ssc ssc' w :
  attached ssc' (force_close ssc w) =
  if decide (ssc = ssc') then None else attached ssc' w.
Proof.
  unfold force_close. destruct (attached ssc w) as [c|] eqn:E.
  - unfold attached at 1. rewrite sscs_conn_Close_eff.
    apply attached_detach.
  - apply attached_detach.
Qed.

Lemma conns_force_close ssc w :
  conns (srv (force_close ssc w)) = conns (srv w).
Proof.
  unfold force_close, conn_Close_eff.
  destruct (attached ssc w) as [c|]; [|rewrite srv_detach; reflexivity].
  destruct (hook_of c (detach ssc w)); simpl;
    rewrite srv_close_conn, srv_detach; reflexivity.
Qed.

Lemma qch_force_close ssc w :
  qch (srv (force_close ssc w)) = qch (srv w).
Proof.
  unfold force_close, conn_Close_eff.
  destruct (attached ssc w) as [c|]; [|rewrite srv_detach; reflexivity].
  destruct (hook_of c (detach ssc w)); simpl;
    rewrite srv_close_conn, srv_detach; reflexivity.
Qed.

Lemma lk_force_close ssc w :
  lk (srv (force_close ssc w)) = lk (srv w).
Proof.
  unfold force_close, conn_Close_eff.
  destruct (attached ssc w) as [c|]; [|rewrite srv_detach; reflexivity].
  destruct (hook_of c (detach ssc w)); simpl;
    rewrite srv_close_conn, srv_detach; reflexivity.
Qed.


Lemma spawned_force_close ssc w :
  spawned (force_close ssc w) = spawned w.
Proof.
  unfold force_close, conn_Close_eff.
  destruct (attached ssc w) as [c|]; [|apply spawned_detach].
  destruct (hook_of c (detach ssc w)); simpl;
    rewrite spawned_close_conn, spawned_detach; reflexivity.
Qed.

(** *** What the helpers compute *)

Lemma exec_conn_Close c w :
  exec (conn_Close c) w = Done tt (conn_Close_eff c w).
Proof.
  unfold conn_Close, conn_Close_eff. simpl.
  destruct (hook_of c w); reflexivity.
Qed.

Lemma exec_unregister ssc w :
  lk (srv w) = false ->
  exec (unregister ssc) w = Done tt (unregister_eff ssc w).
Proof. intros H. open_world w. reflexivity. Qed.

Lemma exec_force_close {A : Type} ssc (k : Prog A) w :
  exec (let! c := call (ScClose ssc) in
        do! match c with
            | Some c => conn_Close c
            | None => Ret tt
            end in k) w
  = exec k (force_close ssc w).
Proof.
  unfold force_close, attached, detach. cbn [exec call do_op bind].
  destruct (sscs w !! ssc) as [s|]; cbn [exec call do_op bind].
  - destruct (sc_conn s) as [c|]; cbn [exec call do_op bind]; [|reflexivity].
    rewrite exec_bind, exec_conn_Close. reflexivity.
  - reflexivity.
Qed.

Lemma exec_bury ssc w :
  lk (srv w) = false ->
  exec (bury ssc) w = Done tt (bury_eff ssc w).
Proof.
  intros H. unfold bury. rewrite exec_bind, exec_unregister by exact H.
  unfold bury_eff.
  set (w1 := unregister_eff ssc w).
  unfold force_close, attached, detach. cbn [exec call do_op bind].
  destruct (sscs w1 !! ssc) as [s|]; cbn [exec call do_op bind].
  - destruct (sc_conn s) as [c|]; cbn [exec call do_op bind]; [|reflexivity].
    apply exec_conn_Close.
  - reflexivity.
Qed.

Lemma lk_bury_eff ssc w : lk (srv (bury_eff ssc w)) = lk (srv w).
Proof. unfold bury_eff. rewrite lk_force_close. reflexivity. Qed.

Lemma qch_bury_eff ssc w : qch (srv (bury_eff ssc w)) = qch (srv w).
Proof. unfold bury_eff. rewrite qch_force_close. reflexivity. Qed.

Lemma conns_bury_eff ssc w :
  conns (srv (bury_eff ssc w)) = delete ssc (conns (srv w)).
Proof. unfold bury_eff. rewrite conns_force_close. reflexivity. Qed.

Lemma spawned_bury_eff ssc w : spawned (bury_eff ssc w) = spawned w.
Proof. unfold bury_eff. rewrite spawned_force_close. reflexivity. Qed.

Lemma attached_unregister_eff ssc ssc' w :
  attached ssc' (unregister_eff ssc w) = attached ssc' w.
Proof. reflexivity. Qed.


(** *** The loops over lists *)

Lemma exec_shutdown_conns keys w :
  exec (shutdown_conns keys) w = Done tt (shutdown_conns_eff keys w).
Proof.
  revert w. induction keys as [|ssc rest IH]; intros w; [reflexivity|].
  cbn [shutdown_conns]. rewrite exec_force_close.
  cbn [exec call do_op bind]. rewrite IH. reflexivity.
Qed.

Lemma exec_bury_all kills w :
  lk (srv w) = false ->
  exec (bury_all kills) w = Done tt (bury_all_eff kills w).
Proof.
  revert w. induction kills as [|ssc rest IH]; intros w H; [reflexivity|].
  cbn [bury_all]. rewrite exec_bind, exec_bury by exact H.
  rewrite IH by (rewrite lk_bury_eff; exact H). reflexivity.
Qed.

Lemma exec_collect_kills t nw keys acc w :
  exec (collect_kills t nw keys acc) w
  = Done (acc ++ List.filter (expired t nw w) keys) w.
Proof.
  revert acc. induction keys as [|ssc rest IH]; intros acc.
  - simpl. rewrite app_nil_r. reflexivity.
  - cbn [collect_kills exec call bind List.filter].
    assert (E : do_op (GetStamp ssc) w = Ok (stamp_of ssc w) w).
    { unfold stamp_of. simpl. destruct (sscs w !! ssc); reflexivity. }
    rewrite E. rewrite IH. unfold expired at 2.
    destruct (t <=? sub64 nw (stamp_of ssc w))%Z.
    + rewrite <- app_assoc. reflexivity.
    + reflexivity.
Qed.

(** *** The forced teardown *)
Lemma conns_shutdown_conns_eff keys w :
  conns (srv (shutdown_conns_eff keys w))
  = foldl (fun m k => delete k m) (conns (srv w)) keys.
Proof.
  revert w. induction keys as [|k rest IH]; intros w; [reflexivity|].
  unfold shutdown_conns_eff in *. cbn [foldl]. rewrite IH.
  unfold shutdown_one. cbn. rewrite conns_force_close. reflexivity.
Qed.

Lemma lookup_foldl_delete (m : gmap SscId Z) keys k :
  foldl (fun m k => delete k m) m keys !! k
  = if decide (k ∈ keys) then None else m !! k.
Proof.
  revert m. induction keys as [|k0 rest IH]; intros m.
  - cbn [foldl]. case_decide as H; [inversion H|reflexivity].
  - cbn [foldl]. rewrite IH.
    destruct (decide (k ∈ rest)) as [Hin|Hnin].
    + rewrite decide_True by (right; exact Hin). reflexivity.
    + destruct (decide (k0 = k)) as [->|Hne].
      * rewrite decide_True by left. apply lookup_delete_eq.
      * rewrite decide_False by (intros H; inversion H; subst; congruence).
        apply lookup_delete_ne. exact Hne.
Qed.

Lemma In_keys (m : gmap SscId Z) k :
  k ∈ map fst (map_to_list m) <-> is_Some (m !! k).
Proof.
  rewrite list_elem_of_fmap. split.
  - intros [[k' v] [-> H]]. apply elem_of_map_to_list in H. simpl. eauto.
  - intros [v H]. exists (k, v). split; [reflexivity|].
    apply elem_of_map_to_list. exact H.
Qed.

Lemma foldl_delete_all (m : gmap SscId Z) :
  foldl (fun m k => delete k m) m (map fst (map_to_list m)) = ∅.
Proof.
  apply map_eq. intros k. rewrite lookup_foldl_delete, lookup_empty.
  case_decide as H; [reflexivity|].
  destruct (m !! k) eqn:E; [|reflexivity].
  exfalso. apply H, In_keys. eauto.
Qed.

Lemma qch_shutdown_conns_eff keys w :
  qch (srv (shutdown_conns_eff keys w)) = qch (srv w).
Proof.
  revert w. induction keys as [|k rest IH]; intros w; [reflexivity|].
  unfold shutdown_conns_eff in *. cbn [foldl]. rewrite IH.
  unfold shutdown_one. cbn. apply qch_force_close.
Qed.

Lemma lk_shutdown_conns_eff keys w :
  lk (srv (shutdown_conns_eff keys w)) = lk (srv w).
Proof.
  revert w. induction keys as [|k rest IH]; intros w; [reflexivity|].
  unfold shutdown_conns_eff in *. cbn [foldl]. rewrite IH.
  unfold shutdown_one. cbn. apply lk_force_close.
Qed.




Lemma exec_Shutdown w :
  lk (srv w) = false -> ch_closed (qch (srv w)) = false ->
  exec Shutdown w = Done (fst (Shutdown_eff w)) (snd (Shutdown_eff w)).
Proof.
  intros Hl Hc. unfold Shutdown, Shutdown_eff, Shutdown_listener, Shutdown_closed.
  open_world w. cbn.
  destruct wl as [l|]; [destruct wlc|]; cbn;
    rewrite exec_bind, exec_shutdown_conns; cbn [exec do_op];
    rewrite lk_shutdown_conns_eff; reflexivity.
Qed.

Lemma Shutdown_eff_closed w :
  ch_closed (qch (srv (snd (Shutdown_eff w)))) = true.
Proof.
  unfold Shutdown_eff, Shutdown_listener.
  destruct (listen (srv w)); [destruct (lst_closed w)|]; cbn;
    rewrite qch_shutdown_conns_eff; reflexivity.
Qed.

Lemma Shutdown_eff_lk w : lk (srv (snd (Shutdown_eff w))) = false.
Proof.
  unfold Shutdown_eff, Shutdown_listener.
  destruct (listen (srv w)); [destruct (lst_closed w)|]; reflexivity.
Qed.


Lemma Shutdown_eff_buf w :
  ch_buf (qch (srv (snd (Shutdown_eff w)))) = [].
Proof.
  unfold Shutdown_eff, Shutdown_listener.
  destruct (listen (srv w)); [destruct (lst_closed w)|]; cbn;
    rewrite qch_shutdown_conns_eff; reflexivity.
Qed.

Lemma Shutdown_eff_seen w :
  ch_seen (qch (srv (snd (Shutdown_eff w)))) = false.
Proof.
  unfold Shutdown_eff, Shutdown_listener.
  destruct (listen (srv w)); [destruct (lst_closed w)|]; cbn;
    rewrite qch_shutdown_conns_eff; reflexivity.
Qed.

Lemma Shutdown_eff_conns w : conns (srv (snd (Shutdown_eff w))) = ∅.
Proof.
  unfold Shutdown_eff, Shutdown_listener.
  destruct (listen (srv w)); [destruct (lst_closed w)|]; cbn;
    rewrite conns_shutdown_conns_eff; cbn; apply foldl_delete_all.
Qed.


(** Why [Shutdown] can stop short of returning: the mutex is held, or the
    channel is already closed. *)
Lemma exec_Shutdown_inv w err w' :
  exec Shutdown w = Done err w' ->
  lk (srv w) = false /\ ch_closed (qch (srv w)) = false.
Proof.
  intros H. destruct (lk (srv w)) eqn:Hl.
  - open_world w. discriminate H.
  - destruct (ch_closed (qch (srv w))) eqn:Hc; [|auto].
    open_world w. discriminate H.
Qed.

(** On a closed channel with nothing pending the receive of [Read]
    yields nil, after which [closed(srv.qch)] holds. *)
Lemma exec_Read_closed w :
  lk (srv w) = false -> ch_closed (qch (srv w)) = true ->
  ch_buf (qch (srv w)) = [] ->
  exists w', exec Read w = Done (None, Some EBADF) w'
             /\ lk (srv w') = false /\ ch_closed (qch (srv w')) = true
             /\ ch_buf (qch (srv w')) = [] /\ ch_seen (qch (srv w')) = true.
Proof.
  intros Hl Hc Hb. open_world w. cbn. eauto 6.
Qed.


(** *** Symbolic execution *)

Lemma lookup_snoc {A : Type} (l : list A) (x : A) :
  (l ++ [x]) !! length l = Some x.
Proof. apply list_lookup_middle. reflexivity. Qed.

Lemma insert_snoc {A : Type} (l : list A) (x y : A) :
  <[length l := y]> (l ++ [x]) = l ++ [y].
Proof.
  induction l as [|a l IH]; [reflexivity|]. cbn. f_equal. exact IH.
Qed.


Ltac run :=
  repeat (progress (cbn; unfold hook_of, close_conn, is_open, attached; cbn;
                    rewrite ?lookup_snoc, ?insert_snoc)).

Ltac run_at H Hlt :=
  repeat (progress (run;
                    rewrite ?H, ?list_lookup_insert_eq, ?list_insert_insert_eq
                      by exact Hlt)).

(** ** The accept loop *)

(** C1. When [register] fails, which it does when [closed(srv.qch)]
    holds (the channel has been closed and a receive has seen it), the
    iteration closes the connection it has just accepted, which gives its
    slot back, and then goes on to start a reader goroutine for it all the
    same: the [if !ok] block does not leave the iteration. *)
Theorem acceptLoop_register_failure_spawns_reader (w : World) (c : ConnId) (nc : NetConn) :
  lk (srv w) = false ->
  ch_closed (qch (srv w)) = true ->
  ch_seen (qch (srv w)) = true ->
  netconns w !! c = Some nc ->
  nc_settmo nc = None ->
  exists w',
    exec (acceptLoop_conn c) w = Done Continue w'
    /\ is_open c w' = false
    /\ count (fdl (srv w')) = (count (fdl (srv w)) - 1)%Z
    /\ conns (srv w') = conns (srv w)
    /\ attached (length (sscs w)) w' = None
    /\ spawned w' = spawned w ++ [TRead (length (sscs w))].
Proof.
  intros Hl Hc Hsn Hnc Hs. open_world w. destruct nc as [o h s]. cbn in Hs. subst s.
  assert (Hlt : c < length wncs) by (eapply lookup_lt_Some; eauto).
  eexists. split; [run_at Hnc Hlt; reflexivity|].
  run_at Hnc Hlt. auto.
Qed.





(** ** The reader *)

(** C4. When the one read of a reader fails, with the deadline error or
    with any other, the reader buries the connection (it leaves the
    registry, the server connection is detached and the connection closed)
    and returns; the channel is not touched. *)
Theorem read_failure_buries_silently (w : World) (ssc : SscId)
    (s : StampedServerConn) (c : ConnId) (req : option Request) (e : Error)
    (rest : list ReadResult) :
  lk (srv w) = false ->
  sscs w !! ssc = Some s ->
  sc_conn s = Some c ->
  sc_in s = (req, Some e) :: rest ->
  exists w',
    exec (read ssc) w = Done Return w'
    /\ qch (srv w') = qch (srv w)
    /\ conns (srv w') = delete ssc (conns (srv w))
    /\ attached ssc w' = None
    /\ is_open c w' = false
    /\ count (fdl (srv w')) =
         (count (fdl (srv w)) - if hook_of c w then 1 else 0)%Z
    /\ spawned w' = spawned w.
Proof.
  intros Hl Hs Hc Hin. open_world w. destruct s as [sc st si]. cbn in Hc, Hin. subst.
  assert (Hlt : ssc < length wss) by (eapply lookup_lt_Some; eauto).
  unfold read, ssc_Read, touch, bury, unregister, conn_Close.
  run_at Hs Hlt.
  match goal with
  | |- context [exec (if ?b then ?p else _) _] =>
      replace (if b then p else p) with p by (destruct b; reflexivity)
  end.
  run_at Hs Hlt.
  destruct (wncs !! c) as [[o h t]|] eqn:Hn.
  - assert (Hlt' : c < length wncs) by (eapply lookup_lt_Some; eauto).
    destruct h; run_at Hn Hlt';
      (eexists; split; [reflexivity|]); run_at Hs Hlt; run_at Hn Hlt';
      repeat split; auto; lia.
  - run.
    eexists; split; [reflexivity|]. run_at Hs Hlt. rewrite ?Hn.
    repeat split; auto; lia.
Qed.

(** ** Shutdown and Read *)


(** C7. [register] tests [closed(srv.qch)], which turns true only when
    a receive has returned nil from the closed channel.  So where the
    channel has been closed and no receive has seen it, as in the state in
    which [Shutdown] returns, [register] returns [true] and adds the
    connection to the registry; it fails, leaving the state as it was,
    once a receive, that of [Read] for one, has seen the close. *)
Theorem register_after_close_succeeds (w : World) (ssc : SscId) :
  lk (srv w) = false ->
  ch_closed (qch (srv w)) = true ->
  ch_seen (qch (srv w)) = false ->
  conns (srv w) !! ssc = None ->
  (exists w', exec (register ssc) w = Done true w'
              /\ conns (srv w') = <[ssc := 1%Z]> (conns (srv w))
              /\ ch_closed (qch (srv w')) = true
              /\ listen (srv w') = listen (srv w))
  /\ (forall w0 err wS, exec Shutdown w0 = Done err wS ->
        conns (srv wS) = ∅
        /\ exists w', exec (register ssc) wS = Done true w'
                      /\ conns (srv w') = {[ssc := 1%Z]})
  /\ (forall w2, lk (srv w2) = false -> ch_closed (qch (srv w2)) = true ->
        ch_seen (qch (srv w2)) = true ->
        exec (register ssc) w2 = Done false w2)
  /\ (ch_buf (qch (srv w)) = [] ->
      exists w1, exec Read w = Done (None, Some EBADF) w1
                 /\ exec (register ssc) w1 = Done false w1).
Proof.
  intros Hl Hc Hsn Hn.
  assert (G : forall w2, lk (srv w2) = false -> ch_closed (qch (srv w2)) = true ->
                ch_seen (qch (srv w2)) = true ->
                exec (register ssc) w2 = Done false w2).
  { intros w2 Hl2 Hc2 Hs2. open_world w2. reflexivity. }
  assert (F : forall w2, lk (srv w2) = false -> ch_seen (qch (srv w2)) = false ->
                conns (srv w2) !! ssc = None ->
                exists w', exec (register ssc) w2 = Done true w'
                           /\ conns (srv w') = <[ssc := 1%Z]> (conns (srv w2))
                           /\ ch_closed (qch (srv w')) = ch_closed (qch (srv w2))
                           /\ listen (srv w') = listen (srv w2)).
  { intros w2 Hl2 Hs2 Hn2. open_world w2. cbn. rewrite andb_false_r. cbn.
    rewrite Hn2. cbn. eexists. repeat split; reflexivity. }
  split; [|split; [|split]].
  - destruct (F w Hl Hsn Hn) as (w' & E & Hco & Hcl & Hli).
    exists w'. rewrite Hcl. auto.
  - intros w0 err wS H.
    destruct (exec_Shutdown_inv _ _ _ H) as [Hl0 Hc0].
    rewrite exec_Shutdown in H by assumption. injection H as _ <-.
    split; [apply Shutdown_eff_conns|].
    destruct (F (snd (Shutdown_eff w0))) as (w' & E & Hco & _).
    + apply Shutdown_eff_lk.
    + apply Shutdown_eff_seen.
    + rewrite Shutdown_eff_conns. apply lookup_empty.
    + exists w'. split; [exact E|].
      rewrite Hco, Shutdown_eff_conns. reflexivity.
  - exact G.
  - intros Hb.
    destruct (exec_Read_closed w Hl Hc Hb) as (w1 & E & Hl1 & Hc1 & _ & Hs1).
    exists w1. split; [exact E|]. apply G; assumption.
Qed.

(** C9. [Read] checks [closed(srv.qch)] after it has taken a value from
    the channel.  When that holds, the channel closed and the close seen
    by a receive, [Read] returns [os.EBADF] and the value is dropped.  A
    [Shutdown] that runs between the receive and the check does not by
    itself have this effect: [Read] returns the value, as it does without
    the [Shutdown].  The value is lost when moreover another [Read]
    receives from the closed channel in between. *)
Theorem Read_drops_query_when_close_seen (w : World) (q : Query)
    (rest : list Query) :
  lk (srv w) = false ->
  ch_closed (qch (srv w)) = false ->
  ch_buf (qch (srv w)) = q :: rest ->
  getError q = None ->
  let w1 := upd_srv (set_qch (mkChan rest false (ch_seen (qch (srv w))))) w in
  do_op ChRecv w = Ok (Some q) w1
  /\ exec (Read_check (Some q)) w1 = Done (Some q, None) w1
  /\ (forall w2, lk (srv w2) = false -> ch_closed (qch (srv w2)) = true ->
        ch_seen (qch (srv w2)) = true ->
        exec (Read_check (Some q)) w2 = Done (None, Some EBADF) w2)
  /\ (forall err w2, exec Shutdown w1 = Done err w2 ->
        exec (Read_check (Some q)) w2 = Done (Some q, None) w2)
  /\ (forall err w2, exec Shutdown w1 = Done err w2 ->
        exists w3, exec Read w2 = Done (None, Some EBADF) w3
                   /\ exec (Read_check (Some q)) w3 = Done (None, Some EBADF) w3
                   /\ ch_buf (qch (srv w3)) = []).
Proof.
  intros Hl Hc Hb He.
  assert (G : forall w2, lk (srv w2) = false -> ch_closed (qch (srv w2)) = true ->
        ch_seen (qch (srv w2)) = true ->
        exec (Read_check (Some q)) w2 = Done (None, Some EBADF) w2).
  { intros w2 Hl2 Hc2 Hs2. open_world w2. reflexivity. }
  assert (K : forall w2, lk (srv w2) = false -> ch_seen (qch (srv w2)) = false ->
        exec (Read_check (Some q)) w2 = Done (Some q, None) w2).
  { intros w2 Hl2 Hs2. open_world w2. destruct q as [qs qr qe qf qh].
    cbn in He. subst. cbn. rewrite andb_false_r. reflexivity. }
  split; [|split; [|split; [|split]]].
  - open_world w. reflexivity.
  - open_world w. destruct q as [qs qr qe qf qh]. cbn in He. subst. reflexivity.
  - exact G.
  - intros err w2 H.
    destruct (exec_Shutdown_inv _ _ _ H) as [Hl1 Hc1].
    rewrite exec_Shutdown in H by assumption. injection H as _ <-.
    apply K; [apply Shutdown_eff_lk|apply Shutdown_eff_seen].
  - intros err w2 H.
    destruct (exec_Shutdown_inv _ _ _ H) as [Hl1 Hc1].
    rewrite exec_Shutdown in H by assumption. injection H as _ <-.
    match goal with
    | |- context [exec Read (snd (Shutdown_eff ?w0))] =>
        destruct (exec_Read_closed (snd (Shutdown_eff w0)))
          as (w3 & E & Hl3 & Hc3 & Hb3 & Hs3);
          [apply Shutdown_eff_lk|apply Shutdown_eff_closed
          |apply Shutdown_eff_buf|]
    end.
    exists w3. split; [exact E|]. split; [|exact Hb3]. apply G; assumption.
Qed.

(** ** Construction *)

(** C8. [NewServer] panics when the timeout is below 2; otherwise it
    returns, having set up the server and started the accept loop and the
    expiry loop, neither of which has run yet. *)
Theorem NewServer_timeout_guard (l : Listener) (t fdlim : Z) (w : World) :
  exec (NewServer l t fdlim) w =
  if (t <? 2)%Z then Panicked "timeout too small" w
  else Done tt
         (with_spawned (spawned w ++ [TAcceptLoop; TExpireLoop])
            (with_srv (mkServer t (Some l) ∅ (mkChan [] false false)
                                (mkFdl fdlim 0) false) w)).
Proof.
  unfold NewServer. destruct (t <? 2)%Z; [reflexivity|].
  cbn. rewrite <- app_assoc. reflexivity.
Qed.

(** ** The expiry loop *)

Lemma sub64_exact (a b : Z) :
  (- 2 ^ 63 <= a - b < 2 ^ 63)%Z -> sub64 a b = (a - b)%Z.
Proof.
  intros H. unfold sub64, wrap64.
  rewrite Z.mod_small by lia. lia.
Qed.

Lemma conns_bury_all_eff kills w :
  conns (srv (bury_all_eff kills w))
  = foldl (fun m k => delete k m) (conns (srv w)) kills.
Proof.
  revert w. induction kills as [|k rest IH]; intros w; [reflexivity|].
  unfold bury_all_eff in *. cbn [foldl]. rewrite IH, conns_bury_eff.
  reflexivity.
Qed.

Lemma qch_bury_all_eff kills w :
  qch (srv (bury_all_eff kills w)) = qch (srv w).
Proof.
  revert w. induction kills as [|k rest IH]; intros w; [reflexivity|].
  unfold bury_all_eff in *. cbn [foldl]. rewrite IH. apply qch_bury_eff.
Qed.

Lemma tmo_slept_force_close ssc w :
  tmo (srv (force_close ssc w)) = tmo (srv w)
  /\ slept (force_close ssc w) = slept w.
Proof.
  unfold force_close, conn_Close_eff, detach, close_conn, release_slot.
  destruct (attached ssc w) as [c|];
    destruct (sscs w !! ssc) as [s|]; cbn;
    repeat match goal with
           | |- context [if ?b then _ else _] => destruct b; cbn
           | |- context [match ?l !! ?i with _ => _ end] =>
               destruct (l !! i); cbn
           end; auto.
Qed.

Lemma tmo_slept_bury_all_eff kills w :
  tmo (srv (bury_all_eff kills w)) = tmo (srv w)
  /\ slept (bury_all_eff kills w) = slept w.
Proof.
  revert w. induction kills as [|k rest IH]; intros w; [auto|].
  unfold bury_all_eff in *. cbn [foldl].
  destruct (IH (bury_eff k w)) as [-> ->]. unfold bury_eff.
  destruct (tmo_slept_force_close k (unregister_eff k w)) as [-> ->]. auto.
Qed.

Lemma is_open_bury_all_mono kills c w :
  is_open c w = false -> is_open c (bury_all_eff kills w) = false.
Proof.
  revert w. induction kills as [|k rest IH]; intros w H; [exact H|].
  unfold bury_all_eff in *. cbn [foldl]. apply IH.
  unfold bury_eff. apply is_open_force_close_mono. exact H.
Qed.

Lemma is_open_bury_all_eff kills ssc c w :
  ssc ∈ kills -> attached ssc w = Some c ->
  is_open c (bury_all_eff kills w) = false.
Proof.
  revert w. induction kills as [|k rest IH]; intros w Hin Ha; [inversion Hin|].
  unfold bury_all_eff in *. cbn [foldl].
  destruct (decide (k = ssc)) as [->|Hne].
  - apply is_open_bury_all_mono. unfold bury_eff.
    apply is_open_force_close. exact Ha.
  - apply IH.
    + inversion Hin; subst; [congruence|assumption].
    + unfold bury_eff. rewrite attached_force_close.
      rewrite decide_False by exact Hne. exact Ha.
Qed.

Lemma exec_expireLoop_scan w l :
  lk (srv w) = false -> listen (srv w) = Some l ->
  exec expireLoop_scan w
  = Done (Some (List.filter (expired (tmo (srv w)) (now w) w)
                            (map fst (map_to_list (conns (srv w)))))) w.
Proof.
  intros Hl Hli. open_world w. unfold expireLoop_scan.
  cbn [exec call do_op bind srv lk listen upd_srv with_srv set_lk now conns tmo].
  rewrite exec_bind, exec_collect_kills. reflexivity.
Qed.

(** C6. One cycle of the expiry loop.  With the listener gone it returns
    at once.  Otherwise it selects, with the mutex held and without
    changing anything, the registered connections whose stamp is at least
    [tmo] old; then, the mutex released, it buries those and only those;
    then it sleeps [tmo], once, and goes round again.  (With the mutex
    held neither the scan nor [bury] would start.) *)
Theorem expireLoop_cycle (w : World) :
  lk (srv w) = false ->
  match listen (srv w) with
  | None => exec expireLoop_body w = Done Return w
  | Some _ =>
      let kills := List.filter (expired (tmo (srv w)) (now w) w)
                               (map fst (map_to_list (conns (srv w)))) in
      let w' := bury_all_eff kills w in
      exec expireLoop_scan w = Done (Some kills) w
      /\ (forall ssc, ssc ∈ kills <->
            registered ssc w
            /\ (tmo (srv w) <= sub64 (now w) (stamp_of ssc w))%Z)
      /\ exec (bury_all kills) w = Done tt w'
      /\ exec expireLoop_body w
         = Done Continue (with_slept (slept w ++ [tmo (srv w)]) w')
      /\ (forall ssc, registered ssc w' <-> registered ssc w /\ ssc ∉ kills)
      /\ (forall ssc c, ssc ∈ kills -> attached ssc w = Some c ->
                        is_open c w' = false)
      /\ qch (srv w') = qch (srv w)
  end
  /\ (forall w0, lk (srv w0) = true ->
        exec expireLoop_scan w0 = Blocked expireLoop_scan w0)
  /\ (forall ssc w0, lk (srv w0) = true ->
        exec (bury ssc) w0 = Blocked (bury ssc) w0)
  /\ (forall ssc, (- 2 ^ 63 <= now w - stamp_of ssc w < 2 ^ 63)%Z ->
        sub64 (now w) (stamp_of ssc w) = (now w - stamp_of ssc w)%Z).
Proof.
  intros Hl. split; [|split; [|split]].
  - destruct (listen (srv w)) as [l|] eqn:Hli.
    + cbn zeta.
      set (kills := List.filter _ _).
      assert (Hscan : exec expireLoop_scan w = Done (Some kills) w)
        by (eapply exec_expireLoop_scan; eauto).
      assert (Hk : forall ssc, ssc ∈ kills <->
            registered ssc w
            /\ (tmo (srv w) <= sub64 (now w) (stamp_of ssc w))%Z).
      { intros ssc. unfold kills. rewrite list_elem_of_In, filter_In.
        rewrite <- list_elem_of_In, In_keys. unfold expired, registered.
        rewrite Z.leb_le. reflexivity. }
      split; [exact Hscan|]. split; [exact Hk|].
      split; [apply exec_bury_all; exact Hl|].
      split.
      { unfold expireLoop_body. rewrite exec_bind, Hscan.
        cbn [bind]. rewrite exec_bind, exec_bury_all by exact Hl.
        cbn [exec call do_op bind].
        destruct (tmo_slept_bury_all_eff kills w) as [-> ->]. reflexivity. }
      split.
      { intros ssc. unfold registered.
        rewrite conns_bury_all_eff, lookup_foldl_delete.
        case_decide as Hin; split.
        - intros [? ?]; discriminate.
        - intros [_ ?]; contradiction.
        - intros H; split; assumption.
        - intros [H _]; exact H. }
      split; [intros ssc c; apply is_open_bury_all_eff|].
      apply qch_bury_all_eff.
    + open_world w. reflexivity.
  - intros w0 H0. open_world w0. reflexivity.
  - intros ssc w0 H0. open_world w0. reflexivity.
  - intros ssc. apply sub64_exact.
Qed.


(** ** The programs are slot-safe *)

Lemma safe_op_mono {R : Type} (op : Op R) (r : Res) (K K' : R -> Res -> Prop) :
  (forall x r', K x r' -> K' x r') -> safe_op op r K -> safe_op op r K'.
Proof.
  intros H. destruct op; cbn; try (intros HK x; apply H, HK); try tauto.
  - apply H.
  - intros [? ?]; split; [assumption|]. apply H. assumption.
  - intros [? HK]; split; [assumption|]. intros c e. apply H, HK.
  - intros [? ?]; split; [assumption|]. apply H. assumption.
  - intros [[? ?]|[? [? ?]]]; [left|right]; repeat split; auto.
  - intros [? HK]; split; [assumption|]. intros x. apply H, HK.
  - intros [? HK]; split; [apply H; assumption|]. intros c. apply H, HK.
Qed.

Lemma holds_mono {A : Type} (p : Prog A) (r : Res) (Q Q' : A -> Res -> Prop) :
  (forall a r', Q a r' -> Q' a r') -> holds p r Q -> holds p r Q'.
Proof.
  intros H. revert r. induction p as [a | R op k IH | msg]; intros r; cbn.
  - apply H.
  - apply safe_op_mono. intros x r'. apply IH.
  - auto.
Qed.

Lemma holds_bind {A B : Type} (p : Prog A) (f : A -> Prog B) (r : Res)
    (Q : B -> Res -> Prop) :
  holds p r (fun a r' => holds (f a) r' Q) -> holds (bind p f) r Q.
Proof.
  revert r. induction p as [a | R op k IH | msg]; intros r; cbn.
  - auto.
  - apply safe_op_mono. intros x r'. apply IH.
  - auto.
Qed.

Ltac safe_step :=
  match goal with
  | |- context [Nat.eq_dec ?a ?a] =>
      destruct (Nat.eq_dec a a); [|congruence]
  | |- holds (match ?x with _ => _ end) _ _ => destruct x
  | |- holds (bind (match ?x with _ => _ end) _) _ _ => destruct x
  | |- True => exact I
  | |- _ /\ _ => split
  | |- forall _, _ => intro
  | |- In _ _ => cbn; auto; fail
  | |- _ < _ => cbn; lia
  | |- _ = _ => reflexivity
  | |- ?a = ?a \/ _ => left; reflexivity
  | |- _ \/ _ =>
      first [ left; split; [cbn; auto; fail|]
            | right; split; [cbn; auto; fail|] ]
  end; cbn.

Ltac safe := unfold slot_safe; cbn; repeat safe_step.

Lemma holds_bury (ssc : SscId) (r : Res) :
  length (r_raws r) <= r_slots r ->
  holds (bury ssc) r (same_holdings r).
Proof.
  intros Hlen. destruct r as [n raws kn]. cbn in Hlen.
  unfold same_holdings. safe.
Qed.

Lemma holds_bury_all (kills : list SscId) (r : Res) :
  length (r_raws r) <= r_slots r ->
  holds (bury_all kills) r (same_holdings r).
Proof.
  revert r. induction kills as [|ssc rest IH]; intros r Hlen.
  - cbn. split; reflexivity.
  - cbn [bury_all]. apply holds_bind.
    eapply holds_mono; [|apply holds_bury; exact Hlen].
    intros [] r' [Hs Hr]. cbn beta.
    eapply holds_mono; [|apply IH; rewrite Hs, Hr; exact Hlen].
    intros [] r'' [Hs' Hr']. split; congruence.
Qed.

Lemma holds_collect_kills (t nw : Z) (keys acc : list SscId) (r : Res) :
  holds (collect_kills t nw keys acc) r (fun _ r' => r' = r).
Proof.
  revert acc. induction keys as [|ssc rest IH]; intros acc; cbn.
  - reflexivity.
  - intros st. apply IH.
Qed.

Lemma holds_shutdown_conns (keys : list SscId) (r : Res) :
  length (r_raws r) <= r_slots r ->
  holds (shutdown_conns keys) r (same_holdings r).
Proof.
  revert r. induction keys as [|ssc rest IH]; intros r Hlen.
  - cbn. split; reflexivity.
  - destruct r as [n raws kn]. cbn in Hlen. cbn. split.
    + intros _. eapply holds_mono; [|apply IH; cbn; lia].
      intros [] r' H. exact H.
    + intros c. right. split; [left; reflexivity|]. split.
      * split; [lia|]. intros _.
        eapply holds_mono; [|apply IH; cbn; lia].
        intros [] r' H. exact H.
      * intros _. eapply holds_mono; [|apply IH; cbn; lia].
        intros [] r' H. exact H.
Qed.

Lemma safe_acceptLoop_body : slot_safe acceptLoop_body res0.
Proof. safe. Qed.

Lemma safe_read (ssc : SscId) : slot_safe (read ssc) res0.
Proof. safe. Qed.

Lemma safe_expireLoop_body : slot_safe expireLoop_body res0.
Proof.
  unfold slot_safe, expireLoop_body, expireLoop_scan. cbn.
  intros _ [l|]; cbn; [|auto].
  intros nw keys t. apply holds_bind, holds_bind.
  eapply holds_mono; [|apply holds_collect_kills].
  intros kills r' ->. cbn. intros _. apply holds_bind.
  eapply holds_mono; [|apply holds_bury_all; cbn; lia].
  intros [] r' [Hs Hr]. cbn. auto.
Qed.

Lemma safe_client (c : Call) :
  slot_safe (cur (client c)) res0 /\ slot_safe (body (client c)) res0.
Proof.
  assert (H : forall th, cur th = body th -> slot_safe (cur th) res0 ->
                         slot_safe (cur th) res0 /\ slot_safe (body th) res0).
  { intros th E Hs. rewrite <- E. auto. }
  apply H; [destruct c; reflexivity|].
  destruct c; cbn [client once cur thread_of].
  - safe.
  - unfold slot_safe, Shutdown. cbn. intros _ l _ _ _.
    assert (G : forall err : option Error,
      holds (Vis SrvLock (fun _ => Vis ConnsRange (fun r =>
               do! (do! shutdown_conns r in Vis SrvUnlock (fun _ => Ret err))
               in Ret Return))) res0
            (fun _ r' => r_slots r' = 0 /\ r_raws r' = [])).
    { intros err. cbn. intros _ keys. apply holds_bind, holds_bind.
      eapply holds_mono; [|apply holds_shutdown_conns; cbn; lia].
      intros [] r' [Hs Hr]. cbn. auto. }
    destruct l as [l|]; cbn; [intros err|]; apply G.
  - apply safe_read.
  - safe.
Qed.

Lemma safe_thread_of (t : Task) :
  slot_safe (cur (thread_of t)) res0 /\ slot_safe (body (thread_of t)) res0.
Proof.
  destruct t; cbn [thread_of cur body]; split;
    auto using safe_acceptLoop_body, safe_expireLoop_body, safe_read.
Qed.

(** ** Counting connections *)


Lemma count_insert (f : NetConn -> bool) (l : list NetConn) (c : nat)
    (x y : NetConn) :
  l !! c = Some x ->
  length (List.filter f (<[c := y]> l)) + b2n (f x)
  = length (List.filter f l) + b2n (f y).
Proof.
  revert c. induction l as [|a l IH]; intros c H; [discriminate|].
  destruct c as [|c]; cbn in H; cbn [list_insert insert List.filter].
  - injection H as ->. unfold b2n. destruct (f x), (f y); simpl; lia.
  - specialize (IH c H). unfold b2n in *.
    destruct (f a); simpl; [f_equal|]; exact IH.
Qed.

Lemma count_snoc (f : NetConn -> bool) (l : list NetConn) (x : NetConn) :
  length (List.filter f (l ++ [x])) = length (List.filter f l) + b2n (f x).
Proof.
  rewrite List.filter_app, length_app. cbn. unfold b2n.
  destruct (f x); reflexivity.
Qed.

Lemma open_le_armed_raw (l : list NetConn) :
  length (List.filter nc_open l)
  <= length (List.filter nc_hook l) + length (List.filter raw_nc l).
Proof.
  induction l as [|[[] [] s] l IH]; simpl; lia.
Qed.

Lemma length_remove_In (c : nat) (l : list nat) :
  In c l -> length (remove Nat.eq_dec c l) < length l.
Proof.
  intros H. induction l as [|a l IH]; [destruct H|].
  cbn. destruct (Nat.eq_dec c a) as [->|Hne].
  - pose proof (remove_length_le Nat.eq_dec l a). lia.
  - destruct H as [?|H]; [congruence|]. cbn. specialize (IH H). lia.
Qed.

Lemma raw_count_le (l : list NetConn) (R : list nat) :
  (forall c nc, l !! c = Some nc -> raw_nc nc = true -> In c R) ->
  length (List.filter raw_nc l) <= length R.
Proof.
  revert R. induction l as [|x l IH] using rev_ind; intros R H; [cbn; lia|].
  rewrite count_snoc.
  assert (Hl : forall c nc, l !! c = Some nc -> raw_nc nc = true ->
                            In c (remove Nat.eq_dec (length l) R)).
  { intros c nc Hc Hr. apply in_in_remove.
    - apply lookup_lt_Some in Hc. lia.
    - apply (H c nc); [|exact Hr]. rewrite lookup_app_l; [exact Hc|].
      eapply lookup_lt_Some; eauto. }
  specialize (IH _ Hl).
  destruct (raw_nc x) eqn:Hx; cbn.
  - assert (In (length l) R) by (apply (H _ x); [apply list_lookup_middle; reflexivity|exact Hx]).
    pose proof (length_remove_In _ _ H0). lia.
  - pose proof (remove_length_le Nat.eq_dec R (length l)). lia.
Qed.

Lemma slots_held_insert (rs : list Res) (i : nat) (r r' : Res) :
  rs !! i = Some r ->
  slots_held (<[i := r']> rs) + r_slots r = slots_held rs + r_slots r'.
Proof.
  revert i. induction rs as [|a rs IH]; intros i H; [discriminate|].
  destruct i as [|i]; simpl in *.
  - injection H as ->. lia.
  - specialize (IH i H). lia.
Qed.

Lemma slots_held_app (rs rs' : list Res) :
  slots_held (rs ++ rs') = slots_held rs + slots_held rs'.
Proof. induction rs as [|a rs IH]; simpl; lia. Qed.

Lemma raws_held_le (rs : list Res) :
  Forall (fun r => length (r_raws r) <= r_slots r) rs ->
  length (raws_held rs) <= slots_held rs.
Proof.
  induction 1 as [|r rs H _ IH]; simpl; [lia|].
  rewrite length_app. lia.
Qed.

Lemma In_raws_held (rs : list Res) (i : nat) (r : Res) (c : nat) :
  rs !! i = Some r -> In c (r_raws r) -> In c (raws_held rs).
Proof.
  revert i. induction rs as [|a rs IH]; intros i H Hin; [discriminate|].
  simpl. apply in_or_app. destruct i as [|i]; simpl in H.
  - injection H as ->. left. exact Hin.
  - right. eapply IH; eauto.
Qed.

(** ** The state seen by the invariant *)

Lemma israw_spec c w :
  israw c w <-> exists nc, netconns w !! c = Some nc /\ raw_nc nc = true.
Proof.
  unfold israw, is_open, hook_of, raw_nc.
  destruct (netconns w !! c) as [[o h s]|]; cbn.
  - split.
    + intros [-> ->]. eauto.
    + intros (nc & E & H). injection E as <-. cbn in H.
      destruct o, h; cbn in H; try discriminate. auto.
  - split; [intros [? _]; discriminate|intros (nc & ? & _); discriminate].
Qed.

Lemma israw_lt c w : israw c w -> c < length (netconns w).
Proof.
  intros H. apply israw_spec in H as (nc & H & _).
  eapply lookup_lt_Some; eauto.
Qed.

Lemma israw_nonraw c w : israw c w -> nonraw c w -> False.
Proof.
  intros [Ho Hh] [_ [H|H]]; congruence.
Qed.

(** The bound that the invariant gives. *)
Lemma Inv_bound C w ths rs :
  Inv C w ths rs ->
  (Z.of_nat (open_conns w) <= count (fdl (srv w)) <= C)%Z.
Proof.
  intros I. split; [|apply (inv_bound _ _ _ _ I)].
  rewrite (inv_count _ _ _ _ I).
  pose proof (open_le_armed_raw (netconns w)) as H1.
  assert (H2 : length (List.filter raw_nc (netconns w))
               <= length (raws_held rs)).
  { apply raw_count_le. intros c nc Hc Hr.
    destruct (inv_raw_held _ _ _ _ I c) as (i & r & Hi & Hin).
    { apply israw_spec. eauto. }
    eapply In_raws_held; eauto. }
  pose proof (raws_held_le rs (inv_raws_len _ _ _ _ I)) as H3.
  unfold open_conns, armed_conns. lia.
Qed.

(** ** The invariant is kept *)

(** A goroutine trades holdings [ri] for [ri'] while the state goes from
    [w] to [w']. *)
Lemma inv_update C w w' ths rs i th ri p' ri' :
  Inv C w ths rs ->
  ths !! i = Some th ->
  rs !! i = Some ri ->
  slot_safe p' ri' ->
  limit (fdl (srv w')) = limit (fdl (srv w)) ->
  (count (fdl (srv w')) + Z.of_nat (armed_conns w) + Z.of_nat (r_slots ri)
   = count (fdl (srv w)) + Z.of_nat (armed_conns w') + Z.of_nat (r_slots ri'))%Z ->
  (count (fdl (srv w')) <= C)%Z ->
  length (r_raws ri') <= r_slots ri' ->
  (forall c, In c (r_raws ri') -> israw c w') ->
  (forall c, israw c w -> israw c w' \/ In c (r_raws ri)) ->
  (forall c, In c (r_raws ri') ->
             In c (r_raws ri) \/ ~ c < length (netconns w)) ->
  (forall c, israw c w' ->
             In c (r_raws ri') \/ (israw c w /\ ~ In c (r_raws ri))) ->
  (forall c, nonraw c w -> nonraw c w') ->
  (forall c, In c (r_known ri') -> nonraw c w') ->
  (forall ssc c, attached ssc w' = Some c ->
                 attached ssc w = Some c \/ nonraw c w') ->
  Inv C w' (<[i := mkThread p' (body th)]> ths) (<[i := ri']> rs).
Proof.
  intros I Hth Hri Hsafe Hlim Hcnt Hbound Hlen Hraw' Hkeep Hnew Hheld Hstable
         Hknown Hatt.
  destruct I as [Isafe Ilimit Icount Ibound Ilen Iraw Iown Iheld Iknown Iatt].
  assert (Hi : i < length rs) by (eapply lookup_lt_Some; eauto).
  constructor.
  - apply Forall2_insert; [exact Isafe|]. cbn. split; [exact Hsafe|].
    destruct (Forall2_lookup_lr _ _ _ _ _ _ Isafe Hth Hri) as [_ H]. exact H.
  - congruence.
  - pose proof (slots_held_insert rs i ri ri' Hri). lia.
  - exact Hbound.
  - apply Forall_insert; assumption.
  - intros j r c Hj Hc. apply list_lookup_insert_Some in Hj
      as [(-> & -> & _)|(Hne & Hj)]; [auto|].
    destruct (Hkeep c (Iraw j r c Hj Hc)) as [H|H]; [exact H|].
    exfalso. apply Hne. eapply Iown; eauto.
  - intros j1 j2 r1 r2 c H1 H2 Hc1 Hc2.
    apply list_lookup_insert_Some in H1 as [(-> & -> & _)|(Hne1 & H1)];
      apply list_lookup_insert_Some in H2 as [(E & -> & _)|(Hne2 & H2)];
      try congruence.
    + exfalso. destruct (Hnew c Hc1) as [H|H].
      * apply Hne2. eapply Iown; eauto.
      * apply H. eapply israw_lt, Iraw; eauto.
    + subst. exfalso. destruct (Hnew c Hc2) as [H|H].
      * apply Hne1. eapply Iown; eauto.
      * apply H. eapply israw_lt, Iraw; eauto.
    + eapply Iown; eauto.
  - intros c Hc. destruct (Hheld c Hc) as [H|[H Hn]].
    + exists i, ri'. split; [|exact H].
      apply list_lookup_insert_eq. exact Hi.
    + destruct (Iheld c H) as (j & r & Hj & Hin).
      exists j, r. split; [|exact Hin].
      rewrite list_lookup_insert_ne; [exact Hj|].
      intros ->. apply Hn. congruence.
  - intros j r c Hj Hc. apply list_lookup_insert_Some in Hj
      as [(-> & -> & _)|(Hne & Hj)]; [auto|].
    apply Hstable. eapply Iknown; eauto.
  - intros ssc c H. destruct (Hatt ssc c H) as [H'|H']; [|exact H'].
    apply Hstable. eapply Iatt; eauto.
Qed.


Lemma inv_trade C w w' ths rs i th ri p' ri' :
  Inv C w ths rs ->
  ths !! i = Some th ->
  rs !! i = Some ri ->
  slot_safe p' ri' ->
  trade C w ri w' ri' ->
  Inv C w' (<[i := mkThread p' (body th)]> ths) (<[i := ri']> rs).
Proof.
  intros I Hth Hri Hsafe [].
  eapply inv_update; eauto.
Qed.

(** A step that leaves the connections alone. *)
Lemma trade_same_conns C w ri w' n' kn' :
  netconns w' = netconns w ->
  limit (fdl (srv w')) = limit (fdl (srv w)) ->
  (count (fdl (srv w')) + Z.of_nat (r_slots ri)
   = count (fdl (srv w)) + Z.of_nat n')%Z ->
  (count (fdl (srv w')) <= C)%Z ->
  length (r_raws ri) <= n' ->
  (forall c, In c (r_raws ri) -> israw c w) ->
  (forall c, In c kn' -> nonraw c w) ->
  (forall ssc c, attached ssc w' = Some c ->
                 attached ssc w = Some c \/ nonraw c w) ->
  trade C w ri w' (mkRes n' (r_raws ri) kn').
Proof.
  intros Hn Hl Hcnt Hb Hlen Hraw Hkn Ha.
  assert (Er : forall c, israw c w' <-> israw c w).
  { intros c. unfold israw, is_open, hook_of. rewrite Hn. reflexivity. }
  assert (En : forall c, nonraw c w' <-> nonraw c w).
  { intros c. unfold nonraw, is_open, hook_of. rewrite Hn. reflexivity. }
  constructor; cbn; auto.
  - unfold armed_conns. rewrite Hn. lia.
  - intros c H. apply Er. auto.
  - intros c H. left. apply Er. exact H.
  - intros c H. destruct (in_dec Nat.eq_dec c (r_raws ri)) as [?|?]; [left|right]; auto.
    split; [apply Er; exact H|assumption].
  - intros c H. apply En. exact H.
  - intros c H. apply En. auto.
  - intros ssc c H. destruct (Ha ssc c H) as [?|?]; [left|right]; auto.
    apply En. assumption.
Qed.

(** A step that leaves the connections and the limiter alone. *)
Lemma trade_frame C w ri w' :
  (count (fdl (srv w)) <= C)%Z ->
  length (r_raws ri) <= r_slots ri ->
  (forall c, In c (r_raws ri) -> israw c w) ->
  (forall c, In c (r_known ri) -> nonraw c w) ->
  netconns w' = netconns w ->
  fdl (srv w') = fdl (srv w) ->
  (forall ssc c, attached ssc w' = Some c -> attached ssc w = Some c) ->
  trade C w ri w' ri.
Proof.
  intros Hb Hlen Hraw Hkn Hn Hf Ha. destruct ri as [n raws kn].
  apply (trade_same_conns C w (mkRes n raws kn) w' n kn); cbn in *; auto;
    rewrite ?Hf; auto.
Qed.

Lemma attached_same_conn w ssc s s' ssc' :
  sscs w !! ssc = Some s -> sc_conn s' = sc_conn s ->
  attached ssc' (with_sscs (<[ssc := s']> (sscs w)) w) = attached ssc' w.
Proof.
  intros Hs Hc. unfold attached. cbn.
  destruct (decide (ssc = ssc')) as [->|Hne].
  - rewrite list_lookup_insert_eq by (eapply lookup_lt_Some; eauto).
    rewrite Hs. exact Hc.
  - rewrite list_lookup_insert_ne by exact Hne. reflexivity.
Qed.

Ltac split_op Hop :=
  repeat match type of Hop with
         | context [if ?b then _ else _] => destruct b eqn:?
         | context [match ?m with _ => _ end] => destruct m eqn:?
         end;
  try discriminate Hop.

Lemma nonraw_spec c w :
  nonraw c w <-> exists nc, netconns w !! c = Some nc /\ raw_nc nc = false.
Proof.
  unfold nonraw, is_open, hook_of, raw_nc. split.
  - intros [Hlt H]. destruct (lookup_lt_is_Some_2 _ _ Hlt) as [nc E].
    rewrite E in H. exists nc. split; [exact E|].
    destruct H as [-> | ->]; [reflexivity|]. apply andb_false_r.
  - intros (nc & E & H). split; [eapply lookup_lt_Some; eauto|].
    rewrite E. destruct (nc_open nc), (nc_hook nc); cbn in H;
      try discriminate; auto.
Qed.

(** A connection is accepted. *)
Lemma israw_alloc c e w w1 :
  israw c (with_netconns (netconns w ++ [mkNetConn true false e]) w1)
  <-> israw c w \/ c = length (netconns w).
Proof.
  rewrite !israw_spec. cbn. split.
  - intros (nc & H & Hr). apply lookup_snoc_Some in H as [[_ H]|[-> _]]; eauto.
  - intros [(nc & H & Hr)| ->].
    + exists nc. split; [|exact Hr]. apply lookup_snoc_Some. left.
      split; [eapply lookup_lt_Some; eauto|exact H].
    + eexists. split; [apply lookup_snoc_Some; right; eauto|reflexivity].
Qed.

Lemma nonraw_alloc c e w w1 :
  nonraw c w ->
  nonraw c (with_netconns (netconns w ++ [mkNetConn true false e]) w1).
Proof.
  rewrite !nonraw_spec. cbn. intros (nc & H & Hr).
  exists nc. split; [|exact Hr]. apply lookup_snoc_Some. left.
  split; [eapply lookup_lt_Some; eauto|exact H].
Qed.

Lemma armed_alloc e w w1 :
  armed_conns (with_netconns (netconns w ++ [mkNetConn true false e]) w1)
  = armed_conns w.
Proof. unfold armed_conns. cbn. rewrite count_snoc. cbn. lia. Qed.

(** A connection is changed in place. *)
Lemma israw_set c c' nc nc' w :
  netconns w !! c = Some nc ->
  israw c' (with_netconns (<[c := nc']> (netconns w)) w)
  <-> (c' = c /\ raw_nc nc' = true) \/ (c' <> c /\ israw c' w).
Proof.
  intros Hc. rewrite !israw_spec. cbn. split.
  - intros (x & H & Hr).
    apply list_lookup_insert_Some in H as [(-> & -> & _)|(Hne & H)]; eauto.
  - intros [[-> Hr]|[Hne (x & H & Hr)]].
    + exists nc'. split; [|exact Hr]. apply list_lookup_insert_eq.
      eapply lookup_lt_Some; eauto.
    + exists x. split; [|exact Hr]. rewrite list_lookup_insert_ne; auto.
Qed.

Lemma nonraw_set c c' nc nc' w :
  netconns w !! c = Some nc ->
  nonraw c' (with_netconns (<[c := nc']> (netconns w)) w)
  <-> (c' = c /\ raw_nc nc' = false) \/ (c' <> c /\ nonraw c' w).
Proof.
  intros Hc. rewrite !nonraw_spec. cbn. split.
  - intros (x & H & Hr).
    apply list_lookup_insert_Some in H as [(-> & -> & _)|(Hne & H)]; eauto.
  - intros [[-> Hr]|[Hne (x & H & Hr)]].
    + exists nc'. split; [|exact Hr]. apply list_lookup_insert_eq.
      eapply lookup_lt_Some; eauto.
    + exists x. split; [|exact Hr]. rewrite list_lookup_insert_ne; auto.
Qed.

Lemma armed_set c nc nc' w :
  netconns w !! c = Some nc ->
  armed_conns (with_netconns (<[c := nc']> (netconns w)) w) + b2n (nc_hook nc)
  = armed_conns w + b2n (nc_hook nc').
Proof. intros Hc. unfold armed_conns. cbn. apply count_insert. exact Hc. Qed.

Lemma op_trade {R : Type} C (op : Op R) w x w' ri (K : R -> Res -> Prop) :
  limit (fdl (srv w)) = C ->
  (count (fdl (srv w)) <= C)%Z ->
  length (r_raws ri) <= r_slots ri ->
  (forall c, In c (r_raws ri) -> israw c w) ->
  (forall c, In c (r_known ri) -> nonraw c w) ->
  (forall ssc c, attached ssc w = Some c -> nonraw c w) ->
  safe_op op ri K ->
  do_op op w = Ok x w' ->
  exists ri', K x ri' /\ trade C w ri w' ri'.
Proof.
  intros Hlim Hb Hlen Hraw Hkn Hatt Hsafe Hop.
  destruct op; cbn in Hsafe, Hop; split_op Hop;
    try (injection Hop as <- <-);
    try (exists ri; split; [apply Hsafe|];
         apply trade_frame; auto; try reflexivity;
         try (intros ? ?; erewrite attached_same_conn by eauto; auto); fail).
  - (* MakeServer *) destruct Hsafe.
  - (* FdlInit *) destruct Hsafe.
  - (* FdlLock *)
    apply Z.ltb_lt in Heqb. destruct ri as [n raws kn]. cbn in *.
    eexists. split; [exact Hsafe|].
    apply (trade_same_conns C w (mkRes n raws kn) _ (S n) kn); cbn; auto;
      lia.
  - (* FdlUnlock *)
    destruct Hsafe as [Hlt Hsafe]. destruct ri as [n raws kn]. cbn in *.
    eexists. split; [exact Hsafe|].
    apply (trade_same_conns C w (mkRes n raws kn) _ (pred n) kn); cbn; auto;
      lia.
  - (* Accept: a connection *)
    destruct Hsafe as [Hlt Hsafe]. eexists. split; [apply Hsafe|].
    constructor.
    + reflexivity.
    + rewrite armed_alloc. cbn. lia.
    + exact Hb.
    + cbn. lia.
    + intros c' [<-|H]; apply israw_alloc; auto.
    + intros c' H. left. apply israw_alloc; auto.
    + intros c' [<-|H]; [right; lia|auto].
    + intros c' H. apply israw_alloc in H as [H|H]; [|cbn; auto].
      destruct (in_dec Nat.eq_dec c' (r_raws ri)); cbn; auto.
    + intros c' H. apply nonraw_alloc. exact H.
    + intros c' H. apply nonraw_alloc. auto.
    + intros ssc c' H. left. exact H.
  - (* Accept: an error together with a connection *)
    destruct Hsafe as [Hlt Hsafe]. eexists. split; [apply Hsafe|].
    constructor.
    + reflexivity.
    + rewrite armed_alloc. cbn. lia.
    + exact Hb.
    + cbn. lia.
    + intros c' [<-|H]; apply israw_alloc; auto.
    + intros c' H. left. apply israw_alloc; auto.
    + intros c' [<-|H]; [right; lia|auto].
    + intros c' H. apply israw_alloc in H as [H|H]; [|cbn; auto].
      destruct (in_dec Nat.eq_dec c' (r_raws ri)); cbn; auto.
    + intros c' H. apply nonraw_alloc. exact H.
    + intros c' H. apply nonraw_alloc. auto.
    + intros ssc c' H. left. exact H.
  - (* NewRunOnCloseConn *)
    destruct Hsafe as [Hin Hsafe]. eexists. split; [exact Hsafe|].
    rename n into nc.
    assert (Hr : raw_nc nc = true).
    { destruct (proj1 (israw_spec c w) (Hraw c Hin)) as (x & E & Hx). congruence. }
    assert (Ho : nc_open nc = true /\ nc_hook nc = false).
    { unfold raw_nc in Hr. destruct (nc_open nc), (nc_hook nc); cbn in Hr;
        try discriminate; auto. }
    destruct Ho as [Ho Hh].
    pose proof (length_remove_In c _ Hin) as Hrem.
    pose proof (armed_set c nc (mkNetConn (nc_open nc) true (nc_settmo nc)) w Heqo) as Harm.
    rewrite Hh in Harm. unfold b2n in Harm. cbn [nc_hook] in Harm.
    assert (Hw : raw_nc (mkNetConn (nc_open nc) true (nc_settmo nc)) = false)
      by (unfold raw_nc; cbn; apply andb_false_r).
    constructor.
    + reflexivity.
    + cbn [r_slots]. change (count (fdl (srv (with_netconns _ w))))
        with (count (fdl (srv w))). lia.
    + exact Hb.
    + cbn. lia.
    + intros c' H. apply in_remove in H as [H Hne].
      eapply israw_set; eauto.
    + intros c' H. destruct (decide (c' = c)) as [->|Hne]; [auto|].
      left. eapply israw_set; eauto.
    + intros c' H. apply in_remove in H as [H Hne]. auto.
    + intros c' H. eapply israw_set in H as [[_ H]|[Hne H]]; eauto.
      * congruence.
      * destruct (in_dec Nat.eq_dec c' (r_raws ri)); auto.
        left. apply in_in_remove; auto.
    + intros c' H. eapply nonraw_set; eauto.
      destruct (decide (c' = c)) as [->|Hne]; [left|right]; auto.
    + intros c' [<-|H]; eapply nonraw_set; eauto.
      destruct (decide (c' = c)) as [->|Hne]; [left|right]; auto.
    + intros ssc c' H. left. exact H.
  - (* NewRunOnCloseConn on a handle that does not exist *)
    destruct Hsafe as [Hin _]. exfalso.
    destruct (proj1 (israw_spec c w) (Hraw c Hin)) as (x & E & _). congruence.
  - (* ConnClose *)
    assert (Hclosed : forall nc, raw_nc (mkNetConn false false (nc_settmo nc)) = false)
      by reflexivity.
    destruct Hsafe as [[Hin Hsafe]|(Hin & Ht & Hf)].
    + (* its own unwrapped connection *)
      destruct (proj1 (israw_spec c w) (Hraw c Hin)) as (nc & E & Hr).
      assert (Ho : nc_open nc = true /\ nc_hook nc = false).
      { unfold raw_nc in Hr. destruct (nc_open nc), (nc_hook nc); cbn in Hr;
          try discriminate; auto. }
      destruct Ho as [Ho Hh].
      assert (Hx : hook_of c w = false) by (unfold hook_of; rewrite E; exact Hh).
      rewrite Hx. eexists. split; [exact Hsafe|].
      unfold close_conn. rewrite E.
      pose proof (length_remove_In c _ Hin) as Hrem.
      pose proof (armed_set c nc (mkNetConn false false (nc_settmo nc)) w E) as Harm.
      rewrite Hh in Harm. unfold b2n in Harm. cbn [nc_hook] in Harm.
      constructor.
      * reflexivity.
      * cbn [r_slots]. change (count (fdl (srv (with_netconns _ w))))
          with (count (fdl (srv w))). lia.
      * exact Hb.
      * cbn. lia.
      * intros c' H. apply in_remove in H as [H Hne].
        eapply israw_set; eauto.
      * intros c' H. destruct (decide (c' = c)) as [->|Hne]; [auto|].
        left. eapply israw_set; eauto.
      * intros c' H. apply in_remove in H as [H Hne]. auto.
      * intros c' H. eapply israw_set in H as [[_ H]|[Hne H]]; eauto.
        -- discriminate.
        -- destruct (in_dec Nat.eq_dec c' (r_raws ri)); auto.
           left. apply in_in_remove; auto.
      * intros c' H. eapply nonraw_set; eauto.
        destruct (decide (c' = c)) as [->|Hne]; [left|right]; auto.
      * intros c' [<-|H]; eapply nonraw_set; eauto.
        destruct (decide (c' = c)) as [->|Hne]; [left|right]; auto.
      * intros ssc c' H. left. exact H.
    + (* a connection known to be wrapped or closed *)
      destruct (proj1 (nonraw_spec c w) (Hkn c Hin)) as (nc & E & Hr).
      assert (Hne : forall c', israw c' w -> c' <> c).
      { intros c' H ->. eapply israw_nonraw; eauto. }
      assert (Hx : hook_of c w = nc_hook nc) by (unfold hook_of; rewrite E; reflexivity).
      rewrite Hx. unfold close_conn. rewrite E.
      pose proof (armed_set c nc (mkNetConn false false (nc_settmo nc)) w E) as Harm.
      unfold b2n in Harm. cbn [nc_hook] in Harm.
      exists (if nc_hook nc then mkRes (S (r_slots ri)) (r_raws ri) (r_known ri)
              else ri).
      split; [destruct (nc_hook nc); assumption|].
      assert (Hraws : r_raws (if nc_hook nc
                              then mkRes (S (r_slots ri)) (r_raws ri) (r_known ri)
                              else ri) = r_raws ri) by (destruct (nc_hook nc); reflexivity).
      assert (Hkns : r_known (if nc_hook nc
                              then mkRes (S (r_slots ri)) (r_raws ri) (r_known ri)
                              else ri) = r_known ri) by (destruct (nc_hook nc); reflexivity).
      constructor; rewrite ?Hraws, ?Hkns.
      * reflexivity.
      * change (count (fdl (srv (with_netconns _ w))))
          with (count (fdl (srv w))).
        destruct (nc_hook nc); cbn in *; lia.
      * exact Hb.
      * destruct (nc_hook nc); cbn; lia.
      * intros c' H. eapply israw_set; [exact E|]. right. auto.
      * intros c' H. left. eapply israw_set; [exact E|]. right. auto.
      * intros c' H. left. exact H.
      * intros c' H. eapply israw_set in H as [[_ H]|[Hne' H]]; eauto.
        -- discriminate.
        -- destruct (in_dec Nat.eq_dec c' (r_raws ri)); auto.
      * intros c' H. eapply nonraw_set; eauto.
        destruct (decide (c' = c)) as [->|Hne']; [left|right]; auto.
      * intros c' H. eapply nonraw_set; eauto.
        destruct (decide (c' = c)) as [->|Hne']; [left|right]; auto.
      * intros ssc c' H. left. exact H.
  - (* AllocSsc *)
    destruct Hsafe as [Hin Hsafe]. exists ri. split; [apply Hsafe|].
    destruct ri as [n raws kn].
    apply (trade_same_conns C w (mkRes n raws kn) _ n kn); cbn in *; auto.
    intros ssc c' H. unfold attached in *. cbn in H.
    destruct (sscs w !! ssc) as [s|] eqn:E.
    + left. rewrite lookup_app_l in H by (eapply lookup_lt_Some; eauto).
      rewrite E in H. exact H.
    + right. apply lookup_ge_None in E.
      destruct (decide (ssc = length (sscs w))) as [->|Hne].
      * rewrite lookup_snoc in H. cbn in H. injection H as <-. auto.
      * rewrite lookup_ge_None_2 in H; [discriminate|].
        rewrite length_app. cbn. lia.
  - (* ScClose *)
    destruct Hsafe as [Hnone Hsome].
    assert (Ha : forall ssc' c', attached ssc'
        (with_sscs (<[ssc:=mkSsc None (stamp s) (sc_in s)]> (sscs w)) w) = Some c' ->
        attached ssc' w = Some c' \/ nonraw c' w).
    { intros ssc' c' H. left. unfold attached in *. cbn in H.
      destruct (decide (ssc = ssc')) as [->|Hne].
      - rewrite list_lookup_insert_eq in H by (eapply lookup_lt_Some; eauto).
        discriminate.
      - rewrite list_lookup_insert_ne in H by exact Hne. exact H. }
    destruct ri as [n raws kn]. destruct (sc_conn s) as [c|] eqn:Hc.
    + eexists. split; [apply Hsome|].
      apply (trade_same_conns C w (mkRes n raws kn) _ n (c :: kn));
        cbn in *; auto.
      intros c' [<-|H]; [|auto]. apply (Hatt ssc). unfold attached.
      rewrite Heqo. exact Hc.
    + eexists. split; [apply Hnone|].
      apply (trade_same_conns C w (mkRes n raws kn) _ n kn); cbn in *; auto.
Qed.

(** Goroutines that start hold nothing. *)
Lemma inv_spawn C w ths rs th :
  Inv C w ths rs ->
  slot_safe (cur th) res0 /\ slot_safe (body th) res0 ->
  Inv C w (ths ++ [th]) (rs ++ [res0]).
Proof.
  intros [Isafe Ilimit Icount Ibound Ilen Iraw Iown Iheld Iknown Iatt] Hth.
  assert (Hlook : forall j r, (rs ++ [res0]) !! j = Some r ->
                              rs !! j = Some r \/ r = res0).
  { intros j r H. apply lookup_snoc_Some in H as [[_ H]|[_ <-]]; auto. }
  constructor; auto.
  - apply Forall2_app; [exact Isafe|]. constructor; [exact Hth|constructor].
  - rewrite slots_held_app. cbn. rewrite Icount. f_equal. lia.
  - apply Forall_app. split; [exact Ilen|]. constructor; [cbn; lia|constructor].
  - intros j r c H Hc. destruct (Hlook j r H) as [H'| ->]; [eauto|destruct Hc].
  - intros j1 j2 r1 r2 c H1 H2 Hc1 Hc2.
    destruct (Hlook j1 r1 H1) as [H1'| ->]; [|destruct Hc1].
    destruct (Hlook j2 r2 H2) as [H2'| ->]; [|destruct Hc2].
    eauto.
  - intros c Hc. destruct (Iheld c Hc) as (j & r & Hj & Hin).
    exists j, r. split; [|exact Hin]. apply lookup_app_l_Some. exact Hj.
  - intros j r c H Hc. destruct (Hlook j r H) as [H'| ->]; [eauto|destruct Hc].
Qed.

Lemma inv_spawn_tasks C w ths rs ts :
  Inv C w ths rs ->
  exists rs', Inv C w (ths ++ map thread_of ts) rs'.
Proof.
  revert ths rs. induction ts as [|t ts IH]; intros ths rs I.
  - exists rs. cbn. rewrite app_nil_r. exact I.
  - cbn. change (thread_of t :: map thread_of ts)
      with ([thread_of t] ++ map thread_of ts).
    rewrite app_assoc. eapply IH. apply inv_spawn; [exact I|].
    apply safe_thread_of.
Qed.

(** Every step keeps the invariant. *)
Lemma step_inv C w ths rs w' ths' :
  Inv C w ths rs ->
  step (w, ths) (w', ths') ->
  exists rs', Inv C w' ths' rs'.
Proof.
  intros I Hstep.
  inversion Hstep as [? ? i th p' ? Hth Hs1 | ? ? i th Hth Hc
                     | ? ? c | ? ? ? Henv]; subst; clear Hstep.
  - (* a goroutine runs one operation *)
    destruct (cur th) as [a | R op k | msg] eqn:Hcur; try discriminate.
    cbn in Hs1. destruct (do_op op w) as [x w1| |] eqn:Hop; try discriminate.
    injection Hs1 as <- <-.
    destruct (Forall2_lookup_l _ _ _ _ _ (inv_safe _ _ _ _ I) Hth)
      as (ri & Hri & Hs & Hb).
    rewrite Hcur in Hs. unfold slot_safe in Hs. cbn in Hs.
    pose proof (Forall_lookup_1 _ _ _ _ (inv_raws_len _ _ _ _ I) Hri) as Hlen.
    cbn beta in Hlen.
    destruct (op_trade C op w x w1 ri _
                (inv_limit _ _ _ _ I) (inv_bound _ _ _ _ I) Hlen
                (fun c => inv_raws_raw _ _ _ _ I i ri c Hri)
                (fun c => inv_known _ _ _ _ I i ri c Hri)
                (inv_attached _ _ _ _ I) Hs Hop)
      as (ri' & Hk & Htr).
    eapply inv_spawn_tasks. eapply inv_trade; eauto.
  - (* a loop goes round again *)
    destruct (Forall2_lookup_l _ _ _ _ _ (inv_safe _ _ _ _ I) Hth)
      as (ri & Hri & Hs & Hb).
    rewrite Hc in Hs. unfold slot_safe in Hs. cbn in Hs. destruct Hs as [Hs Hr].
    exists (<[i := res0]> rs). eapply inv_trade; eauto.
    destruct ri as [n raws kn]. cbn in Hs, Hr. subst.
    apply (trade_same_conns C w' (mkRes 0 [] kn) w' 0 []); cbn; auto;
      try lia; try (intros ? []); apply (inv_bound _ _ _ _ I).
  - (* the application calls the server *)
    exists (rs ++ [res0]). apply inv_spawn; [exact I|]. apply safe_client.
  - (* the environment moves *)
    exists rs.
    assert (Hn : netconns w' = netconns w) by (inversion Henv; reflexivity).
    assert (Hf : srv w' = srv w) by (inversion Henv; reflexivity).
    assert (Ha : forall ssc, attached ssc w' = attached ssc w).
    { intros ssc. inversion Henv; subst; try reflexivity.
      eapply attached_same_conn; eauto. }
    destruct I as [Isafe Ilimit Icount Ibound Ilen Iraw Iown Iheld Iknown Iatt].
    assert (Er : forall c, israw c w' <-> israw c w).
    { intros c. unfold israw, is_open, hook_of. rewrite Hn. reflexivity. }
    assert (En : forall c, nonraw c w' <-> nonraw c w).
    { intros c. unfold nonraw, is_open, hook_of. rewrite Hn. reflexivity. }
    constructor; rewrite ?Hf; auto.
    + unfold armed_conns. rewrite Hn. exact Icount.
    + intros j r c Hj Hc. apply Er. eauto.
    + intros c Hc. apply Iheld, Er. exact Hc.
    + intros j r c Hj Hc. apply En. eauto.
    + intros ssc c0 Hc. apply En. rewrite Ha in Hc. eauto.
Qed.

(** [NewServer] establishes it. *)
Lemma boot_inv l t fdlim w ths :
  (0 <= fdlim)%Z ->
  boot l t fdlim = Some (w, ths) ->
  exists rs, Inv fdlim w ths rs.
Proof.
  intros Hpos Hboot. unfold boot in Hboot.
  rewrite NewServer_timeout_guard in Hboot.
  destruct (t <? 2)%Z; [discriminate|]. injection Hboot as <- <-.
  exists [res0; res0]. constructor.
  - repeat constructor; auto using safe_acceptLoop_body, safe_expireLoop_body.
  - reflexivity.
  - reflexivity.
  - exact Hpos.
  - repeat constructor.
  - intros [|[|i]] r c H Hc; cbn in H; try discriminate;
      injection H as <-; destruct Hc.
  - intros [|[|i]] j ri rj c H _ Hc; cbn in H; try discriminate;
      injection H as <-; destruct Hc.
  - intros c [H _]. discriminate.
  - intros [|[|i]] r c H Hc; cbn in H; try discriminate;
      injection H as <-; destruct Hc.
  - intros ssc c H. destruct ssc; discriminate.
Qed.

Lemma reachable_inv l t fdlim cfg :
  (0 <= fdlim)%Z ->
  reachable l t fdlim cfg ->
  exists rs, Inv fdlim (fst cfg) (snd cfg) rs.
Proof.
  intros Hpos. induction 1 as [[w ths] Hboot | [w ths] [w' ths'] _ IH Hstep].
  - eapply boot_inv; eauto.
  - destruct IH as [rs I]. eapply step_inv; eauto.
Qed.

(** C2. In every state the server can reach from [NewServer], whatever
    the peers, the application and the scheduler do, the number of open
    connections is at most the number of slots held, which is at most the
    limit given to [NewServer]; and every slot held is either in the hands
    of a goroutine that will give it back or tie it to a connection, or
    tied to the close hook of a connection, to be released when that
    connection is closed. *)
Theorem open_connections_bounded (l : Listener) (t fdlim : Z)
    (w : World) (ths : list Thread) :
  (0 <= fdlim)%Z ->
  reachable l t fdlim (w, ths) ->
  (Z.of_nat (open_conns w) <= count (fdl (srv w)) <= fdlim)%Z
  /\ limit (fdl (srv w)) = fdlim
  /\ exists rs, Inv fdlim w ths rs.
Proof.
  intros Hpos Hreach.
  destruct (reachable_inv l t fdlim (w, ths) Hpos Hreach) as [rs I].
  split; [eapply Inv_bound; exact I|].
  split; [apply (inv_limit _ _ _ _ I)|].
  exists rs. exact I.
Qed.


(** ** Schedules are runs *)

Lemma run_thread_step i cfg cfg' :
  run_thread i cfg = Some cfg' -> step cfg cfg'.
Proof.
  destruct cfg as [w ths]. unfold run_thread.
  destruct (ths !! i) as [th|] eqn:Hth; [|discriminate].
  destruct (cur th) as [[]|R op k|msg] eqn:Hc.
  - intros H. injection H as <-. eapply step_loop; eauto.
  - discriminate.
  - destruct (step1 (Vis op k) w) as [[p' w']|] eqn:Hs; [|discriminate].
    intros H. injection H as <-. eapply step_run; eauto. rewrite Hc. exact Hs.
  - discriminate.
Qed.

Lemma apply_event_step e cfg cfg' :
  apply_event e cfg = Some cfg' -> step cfg cfg'.
Proof.
  destruct cfg as [w ths]. destruct e as [i|i|ssc r|d|c];
    [|cbn [apply_event fst snd]..].
  - apply run_thread_step.
  - intros H. injection H as <-. apply step_env. constructor.
  - destruct (sscs w !! ssc) as [s|] eqn:E; [|discriminate].
    intros H. injection H as <-. apply step_env. constructor. exact E.
  - destruct (0 <=? d)%Z eqn:E; [|discriminate].
    intros H. injection H as <-. apply step_env. constructor.
    apply Z.leb_le. exact E.
  - intros H. injection H as <-. apply step_call.
Qed.

Lemma schedule_reachable l t fdlim es cfg cfg' :
  reachable l t fdlim cfg ->
  schedule es cfg = Some cfg' ->
  reachable l t fdlim cfg'.
Proof.
  revert cfg. induction es as [|e es IH]; intros cfg Hr H; cbn in H.
  - injection H as <-. exact Hr.
  - destruct (apply_event e cfg) as [cfg1|] eqn:E; [|discriminate].
    eapply IH; [|exact H]. eapply reach_step; [exact Hr|].
    apply (apply_event_step e). exact E.
Qed.

Lemma run_events_reachable l t fdlim es :
  (2 <= t)%Z ->
  reachable l t fdlim (run_events l t fdlim es).
Proof.
  intros Ht. unfold run_events.
  destruct (boot l t fdlim) as [cfg0|] eqn:Hb.
  - assert (Hr : reachable l t fdlim cfg0) by (apply reach_boot; exact Hb).
    destruct (schedule es cfg0) as [cfg|] eqn:Hs; [|exact Hr].
    eapply schedule_reachable; eauto.
  - unfold boot in Hb. rewrite NewServer_timeout_guard in Hb.
    destruct (t <? 2)%Z eqn:E; [|discriminate].
    apply Z.ltb_lt in E. lia.
Qed.

(** ** The theorems at the example states *)

Lemma acceptLoop_register_failure_spawns_reader_witness :
  reachable 0 5 2 cfg_race
  /\ cur <$> (snd cfg_race !! 0) = Some (acceptLoop_conn 0)
  /\ lk (srv world_race) = false
  /\ ch_closed (qch (srv world_race)) = true
  /\ ch_seen (qch (srv world_race)) = true
  /\ netconns world_race !! 0 = Some (mkNetConn true false None)
  /\ exists w',
       exec (acceptLoop_conn 0) world_race = Done Continue w'
       /\ is_open 0 w' = false
       /\ count (fdl (srv w')) = (count (fdl (srv world_race)) - 1)%Z
       /\ conns (srv w') = conns (srv world_race)
       /\ attached (length (sscs world_race)) w' = None
       /\ spawned w' = spawned world_race ++ [TRead (length (sscs world_race))].
Proof.
  split; [apply run_events_reachable; lia|].
  split; [reflexivity|].
  split; [reflexivity|]. split; [reflexivity|]. split; [reflexivity|].
  split; [reflexivity|].
  apply (acceptLoop_register_failure_spawns_reader
           world_race 0 (mkNetConn true false None)); reflexivity.
Defined.

Lemma open_connections_bounded_witness :
  (0 <= 2)%Z
  /\ reachable 0 5 2 cfg_full
  /\ open_conns (fst cfg_full) = 2
  /\ incoming (fst cfg_full) = [InConn None]
  /\ run_thread 0 cfg_full = None
  /\ (Z.of_nat (open_conns (fst cfg_full))
      <= count (fdl (srv (fst cfg_full))) <= 2)%Z
  /\ limit (fdl (srv (fst cfg_full))) = 2%Z
  /\ exists rs, Inv 2 (fst cfg_full) (snd cfg_full) rs.
Proof.
  assert (Hr : reachable 0 5 2 cfg_full)
    by (apply run_events_reachable; lia).
  split; [lia|]. split; [exact Hr|].
  do 3 (split; [vm_compute; reflexivity|]).
  revert Hr. generalize cfg_full. intros [w ths] Hr.
  apply (open_connections_bounded 0 5 2 w ths); [lia|exact Hr].
Defined.



Lemma read_failure_buries_silently_witness :
  lk (srv world_read_fails) = false
  /\ sscs world_read_fails !! 0
     = Some (mkSsc (Some 0) 100 [(None, Some (PathError EAGAIN))])
  /\ exists w',
       exec (read 0) world_read_fails = Done Return w'
       /\ qch (srv w') = qch (srv world_read_fails)
       /\ conns (srv w') = delete 0 (conns (srv world_read_fails))
       /\ attached 0 w' = None
       /\ is_open 0 w' = false
       /\ count (fdl (srv w')) =
            (count (fdl (srv world_read_fails))
             - if hook_of 0 world_read_fails then 1 else 0)%Z
       /\ spawned w' = spawned world_read_fails.
Proof.
  split; [reflexivity|]. split; [reflexivity|].
  apply (read_failure_buries_silently world_read_fails 0
           (mkSsc (Some 0) 100 [(None, Some (PathError EAGAIN))])
           0 None (PathError EAGAIN) []); reflexivity.
Defined.


Lemma expireLoop_cycle_witness :
  lk (srv world_later) = false
  /\ List.filter (expired (tmo (srv world_later)) (now world_later) world_later)
                 (map fst (map_to_list (conns (srv world_later)))) = [0]
  /\ match listen (srv world_later) with
     | None => exec expireLoop_body world_later = Done Return world_later
     | Some _ =>
         let kills :=
           List.filter (expired (tmo (srv world_later)) (now world_later) world_later)
                       (map fst (map_to_list (conns (srv world_later)))) in
         let w' := bury_all_eff kills world_later in
         exec expireLoop_scan world_later = Done (Some kills) world_later
         /\ (forall ssc, ssc ∈ kills <->
               registered ssc world_later
               /\ (tmo (srv world_later)
                   <= sub64 (now world_later) (stamp_of ssc world_later))%Z)
         /\ exec (bury_all kills) world_later = Done tt w'
         /\ exec expireLoop_body world_later
            = Done Continue
                (with_slept (slept world_later ++ [tmo (srv world_later)]) w')
         /\ (forall ssc, registered ssc w' <->
                         registered ssc world_later /\ ssc ∉ kills)
         /\ (forall ssc c, ssc ∈ kills -> attached ssc world_later = Some c ->
                           is_open c w' = false)
         /\ qch (srv w') = qch (srv world_later)
     end.
Proof.
  split; [reflexivity|]. split; [vm_compute; reflexivity|].
  apply (expireLoop_cycle world_later). reflexivity.
Defined.

Lemma register_after_close_succeeds_witness :
  reachable 0 5 2 cfg_unseen
  /\ cur <$> (snd cfg_unseen !! 0)
     = Some (let! ok := register 0 in
             do! (if (ok : bool) then Ret tt
                  else do! call (ScClose 0) in conn_Close 0) in
             do! call (Go (TRead 0)) in
             Ret Continue)
  /\ lk (srv world_unseen) = false
  /\ listen (srv world_unseen) = None
  /\ ch_closed (qch (srv world_unseen)) = true
  /\ ch_seen (qch (srv world_unseen)) = false
  /\ conns (srv world_unseen) !! 0 = None
  /\ exists w',
       exec (register 0) world_unseen = Done true w'
       /\ conns (srv w') = <[0 := 1%Z]> (conns (srv world_unseen))
       /\ ch_closed (qch (srv w')) = true
       /\ listen (srv w') = listen (srv world_unseen).
Proof.
  split; [apply run_events_reachable; lia|].
  split; [reflexivity|].
  do 5 (split; [vm_compute; reflexivity|]).
  apply (register_after_close_succeeds world_unseen 0);
    vm_compute; reflexivity.
Defined.

Lemma Read_drops_query_when_close_seen_witness :
  lk (srv world_query) = false
  /\ ch_closed (qch (srv world_query)) = false
  /\ ch_buf (qch (srv world_query)) = [query_ex]
  /\ getError query_ex = None
  /\ let w1 := upd_srv (set_qch (mkChan [] false false)) world_query in
     exec (Read_check (Some query_ex)) w1 = Done (Some query_ex, None) w1
     /\ exec (Read_check (Some query_ex)) (world_after Shutdown w1)
        = Done (Some query_ex, None) (world_after Shutdown w1)
     /\ exists w3,
          exec Read (world_after Shutdown w1) = Done (None, Some EBADF) w3
          /\ exec (Read_check (Some query_ex)) w3 = Done (None, Some EBADF) w3
          /\ ch_buf (qch (srv w3)) = [].
Proof.
  do 4 (split; [vm_compute; reflexivity|]). cbv zeta.
  pose proof (Read_drops_query_when_close_seen
                world_query query_ex [] eq_refl eq_refl eq_refl eq_refl)
    as (_ & H2 & _ & H4 & H5).
  split; [exact H2|].
  split; [apply (H4 None); vm_compute; reflexivity|].
  apply (H5 None). vm_compute. reflexivity.
Defined.

(** Counterexample to C9 as the claim states it: the request [query_ex]
    is received, then a full [Shutdown] closes the channel; the check of
    [Read] that follows does not return [os.EBADF] but the request. *)
Lemma Read_returns_query_after_close :
  exists w1 err w2,
    do_op ChRecv world_query = Ok (Some query_ex) w1
    /\ exec Shutdown w1 = Done err w2
    /\ ch_closed (qch (srv w2)) = true
    /\ exec (Read_check (Some query_ex)) w2 = Done (Some query_ex, None) w2
    /\ exec (Read_check (Some query_ex)) w2 <> Done (None, Some EBADF) w2.
Proof.
  exists (upd_srv (set_qch (mkChan [] false false)) world_query), None,
    (world_after Shutdown (upd_srv (set_qch (mkChan [] false false)) world_query)).
  assert (E : exec (Read_check (Some query_ex))
                (world_after Shutdown
                   (upd_srv (set_qch (mkChan [] false false)) world_query))
              = Done (Some query_ex, None)
                  (world_after Shutdown
                     (upd_srv (set_qch (mkChan [] false false)) world_query)))
    by (vm_compute; reflexivity).
  split; [vm_compute; reflexivity|].
  split; [vm_compute; reflexivity|].
  split; [vm_compute; reflexivity|].
  split; [exact E|]. rewrite E. discriminate.
Qed.

(** * Further properties of server.go *)

(** ** The registry *)

(** X1. A connection that is not registered can be registered while the
    channel is open; it then maps to 1 and nothing else in the registry
    moves; unregistering it gives back the state before. *)
Theorem register_unregister_roundtrip (w : World) (ssc : SscId) :
  lk (srv w) = false ->
  ch_closed (qch (srv w)) = false ->
  conns (srv w) !! ssc = None ->
  exists w1,
    exec (register ssc) w = Done true w1
    /\ conns (srv w1) !! ssc = Some 1%Z
    /\ (forall k, k <> ssc -> conns (srv w1) !! k = conns (srv w) !! k)
    /\ exec (unregister ssc) w1 = Done tt w.
Proof.
  intros Hl Hc Hn. open_world w. run. rewrite Hn. run.
  eexists. split; [reflexivity|]. run.
  split; [apply lookup_insert_eq|].
  split; [intros k Hk; apply lookup_insert_ne; congruence|].
  rewrite delete_insert_eq, delete_id by exact Hn. reflexivity.
Qed.

Lemma register_unregister_roundtrip_witness :
  let w := world_ex [] in
  lk (srv w) = false
  /\ ch_closed (qch (srv w)) = false
  /\ conns (srv w) !! 0 = None
  /\ exists w1,
       exec (register 0) w = Done true w1
       /\ conns (srv w1) !! 0 = Some 1%Z
       /\ (forall k, k <> 0 -> conns (srv w1) !! k = conns (srv w) !! k)
       /\ exec (unregister 0) w1 = Done tt w.
Proof.
  cbv zeta. repeat (split; [reflexivity|]).
  apply (register_unregister_roundtrip (world_ex []) 0); reflexivity.
Defined.

(** X2. Registering a connection that is already registered panics with
    "register twice", and the registry is not changed by the attempt. *)
Theorem register_twice_panics (w : World) (ssc : SscId) (v : Z) :
  lk (srv w) = false ->
  ch_closed (qch (srv w)) = false ->
  conns (srv w) !! ssc = Some v ->
  exists w1,
    exec (register ssc) w = Panicked "register twice" w1
    /\ conns (srv w1) = conns (srv w).
Proof.
  intros Hl Hc Hn. open_world w. run. rewrite Hn. run.
  eexists. split; reflexivity.
Qed.

Lemma register_twice_panics_witness :
  lk (srv world_one) = false
  /\ ch_closed (qch (srv world_one)) = false
  /\ conns (srv world_one) !! 0 = Some 1%Z
  /\ exists w1,
       exec (register 0) world_one = Panicked "register twice" w1
       /\ conns (srv w1) = conns (srv world_one).
Proof.
  repeat (split; [vm_compute; reflexivity|]).
  apply (register_twice_panics world_one 0 1); vm_compute; reflexivity.
Defined.

(** X3. Burying a connection a second time changes nothing: the
    connection is closed and its slot given back by the first [bury] only,
    so that the limiter's count drops by at most one. *)
Theorem bury_twice (w : World) (ssc : SscId) :
  lk (srv w) = false ->
  exists w1,
    exec (bury ssc) w = Done tt w1
    /\ exec (bury ssc) w1 = Done tt w1
    /\ (count (fdl (srv w)) - 1 <= count (fdl (srv w1)) <= count (fdl (srv w)))%Z
    /\ ~ registered ssc w1
    /\ attached ssc w1 = None.
Proof.
  intros Hl. exists (bury_eff ssc w).
  split; [apply exec_bury; exact Hl|].
  assert (Hidem : bury_eff ssc (bury_eff ssc w) = bury_eff ssc w).
  { unfold bury_eff at 1.
    assert (Ha : attached ssc (unregister_eff ssc (bury_eff ssc w)) = None).
    { rewrite attached_unregister_eff. unfold bury_eff.
      rewrite attached_force_close. rewrite decide_True by reflexivity.
      reflexivity. }
    unfold force_close at 1. rewrite Ha.
    open_world w. unfold bury_eff, force_close, unregister_eff, detach, attached.
    run. destruct (wss !! ssc) as [[sc st si]|] eqn:Hs; run.
    - assert (Hlt : ssc < length wss) by (eapply lookup_lt_Some; eauto).
      destruct sc as [c|]; run; unfold conn_Close_eff, release_slot; run.
      + destruct (wncs !! c) as [[o h t]|] eqn:Hn; run;
          [destruct h; run|];
          rewrite ?list_lookup_insert_eq by exact Hlt; run;
          rewrite list_insert_insert_eq, delete_delete_eq; reflexivity.
      + rewrite ?list_lookup_insert_eq by exact Hlt; run.
        rewrite list_insert_insert_eq, delete_delete_eq; reflexivity.
    - rewrite Hs. rewrite delete_delete_eq. reflexivity. }
  split; [rewrite exec_bury by (rewrite lk_bury_eff; exact Hl);
          rewrite Hidem; reflexivity|].
  split.
  { unfold bury_eff, force_close, conn_Close_eff, release_slot.
    destruct (attached ssc (unregister_eff ssc w)) as [c|];
      [destruct (hook_of c (detach ssc (unregister_eff ssc w)))|];
      cbn; rewrite ?srv_close_conn, ?srv_detach; cbn; lia. }
  split.
  { unfold registered. rewrite conns_bury_eff, lookup_delete_eq.
    intros [? ?]. discriminate. }
  unfold bury_eff. rewrite attached_force_close.
  rewrite decide_True by reflexivity. reflexivity.
Qed.

Lemma bury_twice_witness :
  lk (srv world_one) = false
  /\ exists w1,
       exec (bury 0) world_one = Done tt w1
       /\ exec (bury 0) w1 = Done tt w1
       /\ (count (fdl (srv world_one)) - 1 <= count (fdl (srv w1))
           <= count (fdl (srv world_one)))%Z
       /\ ~ registered 0 w1
       /\ attached 0 w1 = None.
Proof.
  split; [vm_compute; reflexivity|].
  apply (bury_twice world_one 0); vm_compute; reflexivity.
Defined.

(** ** The reader and [Read] *)

Lemma exec_read_success (w : World) (ssc : SscId)
    (s : StampedServerConn) (c : ConnId) (req : option Request)
    (rest : list ReadResult) :
  sscs w !! ssc = Some s ->
  sc_conn s = Some c ->
  sc_in s = (req, None) :: rest ->
  ch_closed (qch (srv w)) = false ->
  exists w',
    exec (read ssc) w = Done Return w'
    /\ ch_buf (qch (srv w'))
       = ch_buf (qch (srv w)) ++ [mkQuery (Some ssc) req None false false]
    /\ conns (srv w') = conns (srv w)
    /\ fdl (srv w') = fdl (srv w)
    /\ netconns w' = netconns w
    /\ attached ssc w' = Some c
    /\ stamp_of ssc w' = now w
    /\ lk (srv w') = lk (srv w)
    /\ ch_closed (qch (srv w')) = false.
Proof.
  intros Hs Hc Hin Hcl. open_world w. destruct s as [sc st si].
  cbn in Hc, Hin. subst.
  assert (Hlt : ssc < length wss) by (eapply lookup_lt_Some; eauto).
  unfold read, ssc_Read, touch. run_at Hs Hlt.
  eexists. split; [reflexivity|]. unfold stamp_of. run_at Hs Hlt.
  repeat split; reflexivity.
Qed.



Lemma exec_Read_query (w : World) (q : Query) (rest : list Query) :
  lk (srv w) = false ->
  ch_closed (qch (srv w)) = false ->
  ch_buf (qch (srv w)) = q :: rest ->
  getError q = None ->
  exists w', exec Read w = Done (Some q, None) w'
             /\ ch_buf (qch (srv w')) = rest
             /\ lk (srv w') = false
             /\ ch_closed (qch (srv w')) = false
             /\ conns (srv w') = conns (srv w).
Proof.
  intros Hl Hc Hb He. open_world w. destruct q as [qs qr qe qf qh].
  cbn in He. subst. run. eexists. split; [reflexivity|]. run. auto.
Qed.

(** X5. What a reader has delivered is what [Read] returns: after a
    successful [read] on an empty channel, [Read] yields the Query of that
    connection and that request, with no error; the channel is empty again
    and the registry as before. *)
Theorem read_then_Read (w : World) (ssc : SscId)
    (s : StampedServerConn) (c : ConnId) (req : option Request)
    (rest : list ReadResult) :
  sscs w !! ssc = Some s ->
  sc_conn s = Some c ->
  sc_in s = (req, None) :: rest ->
  ch_closed (qch (srv w)) = false ->
  ch_buf (qch (srv w)) = [] ->
  lk (srv w) = false ->
  exists w1 w2 q,
    exec (read ssc) w = Done Return w1
    /\ exec Read w1 = Done (Some q, None) w2
    /\ q_ssc q = Some ssc /\ q_req q = req
    /\ ch_buf (qch (srv w2)) = []
    /\ conns (srv w2) = conns (srv w).
Proof.
  intros Hs Hc Hin Hcl Hb Hl.
  destruct (exec_read_success w ssc s c req rest Hs Hc Hin Hcl)
    as (w1 & E & Hbuf & Hconns & _ & _ & _ & _ & Hl1 & Hc1).
  rewrite Hb in Hbuf. rewrite Hl in Hl1. cbn in Hbuf.
  destruct (exec_Read_query w1 _ [] Hl1 Hc1 Hbuf eq_refl)
    as (w2 & E2 & Hb2 & _ & _ & Hconns2).
  exists w1, w2, (mkQuery (Some ssc) req None false false).
  repeat split; try assumption. congruence.
Qed.

Lemma read_then_Read_witness :
  let w := world_request in
  let s := mkSsc (Some 0) 100 [(Some 1, None)] in
  sscs w !! 0 = Some s
  /\ sc_conn s = Some 0
  /\ sc_in s = [(Some 1, None)]
  /\ ch_closed (qch (srv w)) = false
  /\ ch_buf (qch (srv w)) = []
  /\ lk (srv w) = false
  /\ exists w1 w2 q,
       exec (read 0) w = Done Return w1
       /\ exec Read w1 = Done (Some q, None) w2
       /\ q_ssc q = Some 0 /\ q_req q = Some 1
       /\ ch_buf (qch (srv w2)) = []
       /\ conns (srv w2) = conns (srv w).
Proof.
  cbv zeta. repeat (split; [vm_compute; reflexivity|]).
  apply (read_then_Read world_request 0
           (mkSsc (Some 0) 100 [(Some 1, None)]) 0 (Some 1) []);
    vm_compute; reflexivity.
Defined.


(** ** The accept loop, when all goes well *)

Lemma exec_acceptLoop_success (w : World) (l : Listener) (rest : list Incoming) :
  lk (srv w) = false ->
  listen (srv w) = Some l ->
  lst_closed w = false ->
  incoming w = InConn None :: rest ->
  (count (fdl (srv w)) < limit (fdl (srv w)))%Z ->
  ch_closed (qch (srv w)) = false ->
  conns (srv w) !! length (sscs w) = None ->
  let c := length (netconns w) in
  let ssc := length (sscs w) in
  exists w',
    exec acceptLoop_body w = Done Continue w'
    /\ netconns w' = netconns w ++ [mkNetConn true true None]
    /\ sscs w' = sscs w ++ [mkSsc (Some c) (now w) []]
    /\ conns (srv w') = <[ssc := 1%Z]> (conns (srv w))
    /\ count (fdl (srv w')) = (count (fdl (srv w)) + 1)%Z
    /\ limit (fdl (srv w')) = limit (fdl (srv w))
    /\ qch (srv w') = qch (srv w)
    /\ incoming w' = rest
    /\ spawned w' = spawned w ++ [TRead ssc]
    /\ lk (srv w') = false.
Proof.
  intros Hl Hli Hlc Hin Hcnt Hc Hn. open_world w.
  apply Z.ltb_lt in Hcnt. run. rewrite Hcnt. run. rewrite Hn. run.
  eexists. split; [reflexivity|]. run. repeat split; reflexivity.
Qed.

(** X6. An iteration that accepts a connection on which
    [SetReadTimeout] succeeds, with the channel open: the connection is
    open with its close hook armed and holds the slot just taken; a new
    stamped server connection holds it, stamped with the current time, and
    is registered with value 1; one reader is started for it; nothing is
    sent; the loop goes round again. *)
Theorem acceptLoop_success (w : World) (l : Listener) (rest : list Incoming) :
  lk (srv w) = false ->
  listen (srv w) = Some l ->
  lst_closed w = false ->
  incoming w = InConn None :: rest ->
  (count (fdl (srv w)) < limit (fdl (srv w)))%Z ->
  ch_closed (qch (srv w)) = false ->
  conns (srv w) !! length (sscs w) = None ->
  let c := length (netconns w) in
  let ssc := length (sscs w) in
  exists w',
    exec acceptLoop_body w = Done Continue w'
    /\ netconns w' = netconns w ++ [mkNetConn true true None]
    /\ sscs w' = sscs w ++ [mkSsc (Some c) (now w) []]
    /\ conns (srv w') = <[ssc := 1%Z]> (conns (srv w))
    /\ count (fdl (srv w')) = (count (fdl (srv w)) + 1)%Z
    /\ limit (fdl (srv w')) = limit (fdl (srv w))
    /\ qch (srv w') = qch (srv w)
    /\ incoming w' = rest
    /\ spawned w' = spawned w ++ [TRead ssc]
    /\ lk (srv w') = false.
Proof. apply exec_acceptLoop_success. Qed.

Lemma acceptLoop_success_witness :
  let w := world_ex [InConn None] in
  lk (srv w) = false
  /\ listen (srv w) = Some 0
  /\ lst_closed w = false
  /\ incoming w = [InConn None]
  /\ (count (fdl (srv w)) < limit (fdl (srv w)))%Z
  /\ ch_closed (qch (srv w)) = false
  /\ conns (srv w) !! length (sscs w) = None
  /\ exists w',
       exec acceptLoop_body w = Done Continue w'
       /\ netconns w' = netconns w ++ [mkNetConn true true None]
       /\ sscs w' = sscs w ++ [mkSsc (Some (length (netconns w))) (now w) []]
       /\ conns (srv w') = <[length (sscs w) := 1%Z]> (conns (srv w))
       /\ count (fdl (srv w')) = (count (fdl (srv w)) + 1)%Z
       /\ limit (fdl (srv w')) = limit (fdl (srv w))
       /\ qch (srv w') = qch (srv w)
       /\ incoming w' = []
       /\ spawned w' = spawned w ++ [TRead (length (sscs w))]
       /\ lk (srv w') = false.
Proof.
  cbv zeta. repeat (split; [first [reflexivity | cbn; lia]|]).
  apply (acceptLoop_success (world_ex [InConn None]) 0 []);
    first [reflexivity | cbn; lia].
Defined.

(** X7. Accepting a connection and then burying it leaves the limiter
    and the registry as they were: the slot taken for the connection
    comes back when the connection is closed, and the number of open
    connections is what it was before the accept. *)
Theorem accept_then_bury (w : World) (l : Listener) (rest : list Incoming) :
  lk (srv w) = false ->
  listen (srv w) = Some l ->
  lst_closed w = false ->
  incoming w = InConn None :: rest ->
  (count (fdl (srv w)) < limit (fdl (srv w)))%Z ->
  ch_closed (qch (srv w)) = false ->
  conns (srv w) !! length (sscs w) = None ->
  exists w1 w2,
    exec acceptLoop_body w = Done Continue w1
    /\ open_conns w1 = S (open_conns w)
    /\ exec (bury (length (sscs w))) w1 = Done tt w2
    /\ fdl (srv w2) = fdl (srv w)
    /\ conns (srv w2) = conns (srv w)
    /\ open_conns w2 = open_conns w
    /\ armed_conns w2 = armed_conns w
    /\ is_open (length (netconns w)) w2 = false.
Proof.
  intros Hl Hli Hlc Hin Hcnt Hc Hn.
  destruct (exec_acceptLoop_success w l rest Hl Hli Hlc Hin Hcnt Hc Hn)
    as (w1 & E & Hnc & Hss & Hco & Hcn & Hlm & _ & _ & _ & Hl1).
  exists w1, (bury_eff (length (sscs w)) w1).
  split; [exact E|].
  split; [unfold open_conns; rewrite Hnc, count_snoc; cbn; lia|].
  split; [apply exec_bury; exact Hl1|].
  clear E. open_world w. open_world w1. cbn in *. subst.
  unfold bury_eff, force_close, unregister_eff, detach, attached,
    conn_Close_eff, release_slot, open_conns, armed_conns.
  run. rewrite ?count_snoc. cbn.
  rewrite delete_insert_eq, delete_id by exact Hn.
  repeat split; try reflexivity; try lia.
  f_equal. lia.
Qed.

Lemma accept_then_bury_witness :
  let w := world_ex [InConn None] in
  lk (srv w) = false
  /\ listen (srv w) = Some 0
  /\ lst_closed w = false
  /\ incoming w = [InConn None]
  /\ (count (fdl (srv w)) < limit (fdl (srv w)))%Z
  /\ ch_closed (qch (srv w)) = false
  /\ conns (srv w) !! length (sscs w) = None
  /\ exists w1 w2,
       exec acceptLoop_body w = Done Continue w1
       /\ open_conns w1 = S (open_conns w)
       /\ exec (bury (length (sscs w))) w1 = Done tt w2
       /\ fdl (srv w2) = fdl (srv w)
       /\ conns (srv w2) = conns (srv w)
       /\ open_conns w2 = open_conns w
       /\ armed_conns w2 = armed_conns w
       /\ is_open (length (netconns w)) w2 = false.
Proof.
  cbv zeta. repeat (split; [first [reflexivity | cbn; lia]|]).
  apply (accept_then_bury (world_ex [InConn None]) 0 []);
    first [reflexivity | cbn; lia].
Defined.

(** X8. The accept loop does not accept when it should not: with the
    listener reference nil it returns and changes nothing; with every slot
    taken it waits at the limiter, having changed nothing, and what waits
    at the listener stays there. *)
Theorem acceptLoop_no_accept (w : World) :
  lk (srv w) = false ->
  (listen (srv w) = None -> exec acceptLoop_body w = Done Return w)
  /\ (forall l, listen (srv w) = Some l ->
        (limit (fdl (srv w)) <= count (fdl (srv w)))%Z ->
        exists p, exec acceptLoop_body w = Blocked p w).
Proof.
  intros Hl. split.
  - intros Hli. open_world w. reflexivity.
  - intros l Hli Hfull. open_world w.
    assert (E : (wcnt <? wlim)%Z = false) by (apply Z.ltb_ge; exact Hfull).
    run. rewrite E. eexists. reflexivity.
Qed.

Lemma acceptLoop_no_accept_witness :
  let w := world_ex [InConn None] in
  lk (srv w) = false
  /\ (listen (srv w) = None -> exec acceptLoop_body w = Done Return w)
  /\ (forall l, listen (srv w) = Some l ->
        (limit (fdl (srv w)) <= count (fdl (srv w)))%Z ->
        exists p, exec acceptLoop_body w = Blocked p w).
Proof.
  cbv zeta. split; [reflexivity|].
  apply (acceptLoop_no_accept (world_ex [InConn None])). reflexivity.
Defined.

(** ** Stamps *)




(** ** The mutex is held for every access *)

Lemma lock_op_mono {R : Type} (op : Op R) h d (K K' : R -> bool -> bool -> Prop) :
  (forall x h' d', K x h' d' -> K' x h' d') -> lock_op op h d K -> lock_op op h d K'.
Proof.
  intros H. destruct op; cbn; try (intros HK x; apply H, HK);
    try (intros [? HK]; split; [assumption|]; intros x; apply H, HK);
    try tauto.
  - intros [? ?]; split; [assumption|]. apply H. assumption.
  - intros (? & ? & ?); repeat split; try assumption. apply H. assumption.
  - destruct l; [tauto|]. intros [? ?]; split; [assumption|]. apply H. assumption.
  - intros (? & ? & ?); repeat split; try assumption. apply H. assumption.
Qed.

Lemma lock_holds_mono {A : Type} (p : Prog A) h d
    (Q Q' : A -> bool -> bool -> Prop) :
  (forall a h' d', Q a h' d' -> Q' a h' d') ->
  lock_holds p h d Q -> lock_holds p h d Q'.
Proof.
  intros H. revert h d. induction p as [a | R op k IH | msg]; intros h d; cbn.
  - apply H.
  - apply lock_op_mono. intros x h' d'. apply IH.
  - auto.
Qed.

Lemma lock_holds_bind {A B : Type} (p : Prog A) (f : A -> Prog B) h d
    (Q : B -> bool -> bool -> Prop) :
  lock_holds p h d (fun a h' d' => lock_holds (f a) h' d' Q) ->
  lock_holds (bind p f) h d Q.
Proof.
  revert h d. induction p as [a | R op k IH | msg]; intros h d; cbn.
  - auto.
  - apply lock_op_mono. intros x h' d'. apply IH.
  - auto.
Qed.

Ltac lock_step :=
  match goal with
  | |- lock_holds (match ?x with _ => _ end) _ _ _ => destruct x
  | |- lock_holds (bind (match ?x with _ => _ end) _) _ _ _ => destruct x
  | |- True => exact I
  | |- _ /\ _ => split
  | |- forall _, _ => intro
  | |- _ = _ => reflexivity
  end; cbn.

Ltac lock_tac := unfold lock_safe; cbn; repeat lock_step.

Lemma lock_bury (ssc : SscId) :
  lock_holds (bury ssc) false false (fun _ h d => h = false /\ d = false).
Proof. lock_tac. Qed.

Lemma lock_bury_all (kills : list SscId) :
  lock_holds (bury_all kills) false false (fun _ h d => h = false /\ d = false).
Proof.
  induction kills as [|ssc rest IH]; [cbn; auto|].
  cbn [bury_all]. apply lock_holds_bind.
  eapply lock_holds_mono; [|apply lock_bury].
  intros [] h d [-> ->]. exact IH.
Qed.

Lemma lock_collect_kills (t nw : Z) (keys acc : list SscId) :
  lock_holds (collect_kills t nw keys acc) true false
             (fun _ h d => h = true /\ d = false).
Proof.
  revert acc. induction keys as [|ssc rest IH]; intros acc; cbn; [auto|].
  intros st. apply IH.
Qed.

Lemma lock_shutdown_conns (keys : list SscId) :
  lock_holds (shutdown_conns keys) true false
             (fun _ h d => h = true /\ d = false).
Proof.
  induction keys as [|ssc rest IH]; cbn; [auto|].
  intros [c|]; cbn.
  - intros fired. destruct fired; cbn; [intros _|]; split; auto.
  - split; auto.
Qed.

Lemma lock_acceptLoop_body : lock_safe acceptLoop_body.
Proof. lock_tac. Qed.

Lemma lock_read (ssc : SscId) : lock_safe (read ssc).
Proof. lock_tac. Qed.

Lemma lock_expireLoop_body : lock_safe expireLoop_body.
Proof.
  unfold lock_safe, expireLoop_body, expireLoop_scan. cbn.
  split; [reflexivity|]. split; [reflexivity|].
  intros [l|]; cbn; [|auto].
  intros nw. split; [reflexivity|]. intros keys t.
  apply lock_holds_bind, lock_holds_bind.
  eapply lock_holds_mono; [|apply lock_collect_kills].
  intros kills h d [-> ->]. cbn. repeat split.
  apply lock_holds_bind.
  eapply lock_holds_mono; [|apply lock_bury_all].
  intros [] h d [-> ->]. cbn. auto.
Qed.

Lemma lock_Shutdown : lock_safe (do! Shutdown in Ret Return).
Proof.
  unfold lock_safe, Shutdown. cbn.
  split; [reflexivity|]. split; [reflexivity|]. intros l.
  split; [reflexivity|]. split; [reflexivity|]. split; [reflexivity|].
  split; [reflexivity|]. split; [reflexivity|].
  assert (G : forall err : option Error,
    lock_holds (Vis SrvLock (fun _ => Vis ConnsRange (fun r =>
             do! (do! shutdown_conns r in Vis SrvUnlock (fun _ => Ret err))
             in Ret Return))) false false
          (fun _ h d => h = false /\ d = false)).
  { intros err. cbn. split; [reflexivity|]. split; [reflexivity|].
    intros keys. apply lock_holds_bind, lock_holds_bind.
    eapply lock_holds_mono; [|apply lock_shutdown_conns].
    intros [] h d [-> ->]. cbn. auto. }
  destruct l as [l|]; cbn; [intros err|]; apply G.
Qed.

Lemma lock_thread_of (t : Task) :
  lock_safe (cur (thread_of t)) /\ lock_safe (body (thread_of t)).
Proof.
  destruct t; cbn [thread_of cur body]; split;
    auto using lock_acceptLoop_body, lock_expireLoop_body, lock_read.
Qed.

Lemma lock_client (c : Call) :
  lock_safe (cur (client c)) /\ lock_safe (body (client c)).
Proof.
  destruct c; cbn [client once cur body thread_of]; split;
    try apply lock_Shutdown; try apply lock_read; lock_tac.
Qed.

Ltac same_move :=
  match goal with
  | H : Ok _ _ = Ok _ _ |- _ => injection H as <- <-
  | H : Ok _ _ = Ok _ _ |- _ => injection H as <-
  end.

Lemma lock_do_op {R : Type} (op : Op R) (w : World) (x : R) (w' : World)
    (h d : bool) (K : R -> bool -> bool -> Prop) :
  lock_op op h d K ->
  do_op op w = Ok x w' ->
  exists h' d', K x h' d' /\ lock_move w w' h d h' d'.
Proof.
  intros HK Hop.
  destruct op; cbn in HK;
    try (destruct HK as [-> HK]);
    try (exists h, d; split; [apply HK|]);
    try (exists true, d; split; [apply HK|]).
  all: try (open_world w; cbn in Hop;
            repeat match type of Hop with
                   | context [match ?e with _ => _ end] =>
                       destruct e eqn:?; cbn in Hop; try discriminate
                   end;
            inversion Hop; subst; cbn;
            apply lm_same; reflexivity).
  - (* SrvLock *)
    exists true, false. split; [destruct x; exact HK|].
    open_world w. cbn in Hop. destruct wlk; [discriminate|].
    inversion Hop; subst. apply lm_lock; reflexivity.
  - (* SrvUnlock *)
    destruct HK as [-> HK]. exists false, false. split; [destruct x; exact HK|].
    open_world w. cbn in Hop. destruct wlk; [|discriminate].
    inversion Hop; subst. apply lm_unlock; reflexivity.
  - (* MakeServer *) destruct HK.
  - (* SetListen *)
    destruct l as [l|]; [destruct HK|]. destruct HK as [-> HK].
    exists true, true. split; [destruct x; exact HK|].
    open_world w. cbn in Hop. inversion Hop; subst. apply lm_nil; reflexivity.
  - (* ChClose *)
    destruct HK as [-> HK]. exists true, false. split; [destruct x; exact HK|].
    open_world w. cbn in Hop. destruct wcl; [discriminate|].
    inversion Hop; subst. apply lm_close; reflexivity.
  - (* ConnClose *)
    cbn in Hop. inversion Hop; subst.
    apply lm_same; rewrite srv_close_conn; reflexivity.
Qed.

(** An operation of a goroutine keeps the invariant. *)
Lemma lock_inv_run (w : World) (ths : list Thread) (ho : option nat) (d : bool)
    (i : nat) (th : Thread) {R : Type} (op : Op R) (k : R -> Prog Ctl)
    (x : R) (w' : World) (ts : list Task) :
  LockInv w ths ho d ->
  ths !! i = Some th ->
  cur th = Vis op k ->
  do_op op w = Ok x w' ->
  exists ho' d',
    LockInv w' (<[i := mkThread (k x) (body th)]> ths ++ map thread_of ts) ho' d'.
Proof.
  intros [Isafe Ilk Irange Idebt Iagree] Hth Hcur Hop.
  destruct (Isafe i th Hth) as [Hs Hb]. rewrite Hcur in Hs. cbn in Hs.
  destruct (lock_do_op op w x w' _ _ _ Hs Hop) as (h' & d' & HK & Hmove).
  clear Hs.
  remember (bool_decide (ho = Some i)) as h eqn:Eh0.
  remember (d && h) as dd eqn:Ed0.
  assert (Hlen : i < length ths) by (apply lookup_lt_is_Some; eauto).
  assert (Hthreads : forall ho1 d1,
    (h' = bool_decide (ho1 = Some i)) ->
    (d' = d1 && bool_decide (ho1 = Some i)) ->
    (forall j, j <> i -> bool_decide (ho1 = Some j) = bool_decide (ho = Some j)
                         /\ d1 && bool_decide (ho1 = Some j)
                            = d && bool_decide (ho = Some j)) ->
    (forall j, ho1 = Some j -> j < length ths) ->
    forall j th',
      (<[i := mkThread (k x) (body th)]> ths ++ map thread_of ts) !! j = Some th' ->
      lock_holds (cur th') (bool_decide (ho1 = Some j))
                 (d1 && bool_decide (ho1 = Some j))
                 (fun _ h d => h = false /\ d = false)
      /\ lock_safe (body th')).
  { intros ho1 d1 Eh Ed Hoth Hr j th' Hj.
    apply lookup_app_Some in Hj as [Hj | [Hge Hj]].
    - apply list_lookup_insert_Some in Hj as [(<- & <- & _) | (Hne & Hj)].
      + cbn [cur body]. rewrite <- Ed, <- Eh. split; assumption.
      + destruct (Hoth j ltac:(congruence)) as [-> ->]. apply Isafe. exact Hj.
    - rewrite length_insert in Hge.
      assert (Hnot : bool_decide (ho1 = Some j) = false).
      { apply bool_decide_eq_false. intros E. apply Hr in E. lia. }
      rewrite Hnot, andb_false_r.
      change (map thread_of ts) with (thread_of <$> ts) in Hj.
      apply list_lookup_fmap_Some in Hj as (t & -> & _).
      apply lock_thread_of. }
  destruct Hmove as [h0 d0 Elk El Ec | d0 Elk0 Elk El Ec | Elk El Ec
                     | d0 Elk El Ec | Elk El Ec].
  - (* nothing of the mutex moves *)
    exists ho, d. constructor.
    + apply Hthreads; auto. rewrite <- Eh0. exact Ed0.
    + rewrite Elk. exact Ilk.
    + intros j Hj. rewrite length_app, length_insert. apply Irange in Hj. lia.
    + rewrite El. exact Idebt.
    + rewrite El, Ec. exact Iagree.
  - (* Lock *)
    assert (Hno : ho = None).
    { destruct ho as [j|]; [|reflexivity].
      assert (E : lk (srv w) = true) by (apply Ilk; eauto). congruence. }
    assert (Hd : d = false).
    { destruct d; [|reflexivity]. destruct (Idebt eq_refl) as [[j Hj] _].
      congruence. }
    subst ho d. exists (Some i), false. constructor.
    + apply Hthreads.
      * symmetry. apply bool_decide_eq_true. reflexivity.
      * reflexivity.
      * intros j Hne. split; [|reflexivity].
        rewrite !bool_decide_eq_false_2; congruence.
      * intros j [= <-]. exact Hlen.
    + split; eauto.
    + intros j [= <-]. rewrite length_app, length_insert. lia.
    + discriminate.
    + intros _. rewrite El, Ec. apply Iagree. reflexivity.
  - (* Unlock *)
    assert (Hho : ho = Some i).
    { symmetry in Eh0. apply bool_decide_eq_true in Eh0. exact Eh0. }
    assert (Hd : d = false).
    { rewrite andb_true_r in Ed0. auto. }
    subst ho d. exists None, false. constructor.
    + apply Hthreads.
      * symmetry. apply bool_decide_eq_false. discriminate.
      * reflexivity.
      * intros j Hne. split; [|reflexivity].
        rewrite !bool_decide_eq_false_2; congruence.
      * discriminate.
    + rewrite Elk. split; [discriminate|]. intros [j Hj]. discriminate.
    + discriminate.
    + discriminate.
    + intros _. rewrite El, Ec. apply Iagree. reflexivity.
  - (* srv.listen = nil *)
    assert (Hho : ho = Some i).
    { symmetry in Eh0. apply bool_decide_eq_true in Eh0. exact Eh0. }
    subst ho. exists (Some i), true. constructor.
    + apply Hthreads.
      * symmetry. apply bool_decide_eq_true. reflexivity.
      * rewrite bool_decide_eq_true_2; reflexivity.
      * intros j Hne. split; [reflexivity|].
        rewrite !bool_decide_eq_false_2, !andb_false_r; congruence.
      * intros j [= <-]. exact Hlen.
    + rewrite Elk. exact Ilk.
    + intros j [= <-]. rewrite length_app, length_insert. lia.
    + intros _. split; eauto.
    + discriminate.
  - (* close(srv.qch) *)
    assert (Hho : ho = Some i).
    { symmetry in Eh0. apply bool_decide_eq_true in Eh0. exact Eh0. }
    assert (Hd : d = true).
    { rewrite andb_true_r in Ed0. auto. }
    subst ho d. exists (Some i), false. constructor.
    + apply Hthreads.
      * symmetry. apply bool_decide_eq_true. reflexivity.
      * reflexivity.
      * intros j Hne. split; [reflexivity|].
        rewrite !bool_decide_eq_false_2, !andb_false_r; congruence.
      * intros j [= <-]. exact Hlen.
    + rewrite Elk. exact Ilk.
    + intros j [= <-]. rewrite length_app, length_insert. lia.
    + discriminate.
    + intros _. rewrite El, Ec. destruct (Idebt eq_refl) as [_ ->]. tauto.
Qed.

Lemma lock_inv_step (w : World) (ths : list Thread) (ho : option nat) (d : bool)
    (w' : World) (ths' : list Thread) :
  LockInv w ths ho d ->
  step (w, ths) (w', ths') ->
  exists ho' d', LockInv w' ths' ho' d'.
Proof.
  intros I Hstep.
  inversion Hstep as [? ? i th p' ? Hth Hs1 | ? ? i th Hth Hc
                     | ? ? c | ? ? ? Henv]; subst; clear Hstep.
  - destruct (cur th) as [a | R op k | msg] eqn:Hcur; try discriminate.
    cbn in Hs1. destruct (do_op op w) as [x w1| |] eqn:Hop; try discriminate.
    injection Hs1 as <- <-.
    eapply lock_inv_run; eauto.
  - destruct I as [Isafe Ilk Irange Idebt Iagree].
    destruct (Isafe i th Hth) as [Hs Hb]. rewrite Hc in Hs. cbn in Hs.
    destruct Hs as [Hh Hd].
    exists ho, d. constructor; auto.
    + intros j th' Hj.
      apply list_lookup_insert_Some in Hj as [(<- & <- & _) | (Hne & Hj)].
      * cbn [cur body]. rewrite Hd, Hh. split; exact Hb.
      * apply Isafe. exact Hj.
    + intros j Hj. rewrite length_insert. auto.
  - destruct I as [Isafe Ilk Irange Idebt Iagree].
    exists ho, d. constructor; auto.
    + intros j th' Hj.
      apply lookup_app_Some in Hj as [Hj | [Hge Hj]]; [apply Isafe; exact Hj|].
      assert (Hnot : bool_decide (ho = Some j) = false).
      { apply bool_decide_eq_false. intros E. apply Irange in E. lia. }
      rewrite Hnot, andb_false_r.
      apply list_lookup_singleton_Some in Hj as [_ <-]. apply lock_client.
    + intros j Hj. rewrite length_app. apply Irange in Hj. lia.
  - assert (Hf : srv w' = srv w) by (inversion Henv; reflexivity).
    destruct I as [Isafe Ilk Irange Idebt Iagree].
    exists ho, d. constructor; rewrite ?Hf; auto.
Qed.

Lemma lock_inv_boot (l : Listener) (t fdlim : Z) (w : World) (ths : list Thread) :
  boot l t fdlim = Some (w, ths) ->
  LockInv w ths None false.
Proof.
  unfold boot, NewServer. cbn. destruct (t <? 2)%Z; cbn; [discriminate|].
  intros [= <- <-]. constructor.
  - intros [|[|i]] th H; cbn in H; try discriminate; injection H as <-;
      cbn [cur body thread_of bool_decide andb];
      split; first [apply lock_acceptLoop_body | apply lock_expireLoop_body].
  - split; [discriminate|]. intros [? ?]. discriminate.
  - discriminate.
  - discriminate.
  - intros _. split; discriminate.
Qed.

Lemma lock_inv_reachable (l : Listener) (t fdlim : Z) (cfg : World * list Thread) :
  reachable l t fdlim cfg ->
  exists ho d, LockInv (fst cfg) (snd cfg) ho d.
Proof.
  induction 1 as [[w ths] Hboot | [w ths] [w' ths'] _ IH Hstep].
  - exists None, false. eapply lock_inv_boot. exact Hboot.
  - destruct IH as (ho & d & I). eapply lock_inv_step; eauto.
Qed.

Lemma critical_holds {A : Type} (p : Prog A) (h d : bool)
    (Q : A -> bool -> bool -> Prop) :
  critical p -> lock_holds p h d Q -> h = true.
Proof.
  destruct p as [a | R op k | msg]; cbn; try tauto.
  destruct op; cbn; try discriminate; try tauto.
  destruct l; tauto.
Qed.

(** X10. Mutual exclusion.  In every state the server can reach, two
    different goroutines are never both about to touch what [srv.lk]
    protects (the listener reference, the registry [srv.conns], the closed
    state of [srv.qch]) or to unlock the mutex; and when one is, the mutex
    is locked, so that no [Unlock] ever finds it free. *)
Theorem mutex_excludes (l : Listener) (t fdlim : Z)
    (w : World) (ths : list Thread) :
  reachable l t fdlim (w, ths) ->
  (forall i j thi thj,
     ths !! i = Some thi -> ths !! j = Some thj ->
     critical (cur thi) -> critical (cur thj) -> i = j)
  /\ (forall i thi, ths !! i = Some thi -> critical (cur thi) ->
        lk (srv w) = true).
Proof.
  intros Hreach.
  destruct (lock_inv_reachable _ _ _ _ Hreach) as (ho & d & I).
  cbn [fst snd] in I. destruct I as [Isafe Ilk Irange Idebt Iagree].
  assert (Hone : forall i thi, ths !! i = Some thi -> critical (cur thi) ->
                   ho = Some i).
  { intros i thi Hi Hc. destruct (Isafe i thi Hi) as [Hs _].
    apply (critical_holds _ _ _ _ Hc) in Hs.
    apply bool_decide_eq_true in Hs. exact Hs. }
  split.
  - intros i j thi thj Hi Hj Hci Hcj.
    pose proof (Hone i thi Hi Hci). pose proof (Hone j thj Hj Hcj). congruence.
  - intros i thi Hi Hc. apply Ilk. rewrite (Hone i thi Hi Hc). eauto.
Qed.

(** X11. Whenever the mutex is free, the listener reference is nil
    exactly when the channel of queries is closed: [Shutdown] does both
    under the mutex and nothing else does either. *)
Theorem listen_nil_iff_closed (l : Listener) (t fdlim : Z)
    (w : World) (ths : list Thread) :
  reachable l t fdlim (w, ths) ->
  lk (srv w) = false ->
  (listen (srv w) = None <-> ch_closed (qch (srv w)) = true).
Proof.
  intros Hreach Hlk.
  destruct (lock_inv_reachable _ _ _ _ Hreach) as (ho & d & I).
  cbn [fst snd] in I. destruct I as [Isafe Ilk Irange Idebt Iagree].
  apply Iagree. destruct d; [|reflexivity].
  destruct (Idebt eq_refl) as [Hsome _]. apply Ilk in Hsome. congruence.
Qed.


Lemma mutex_excludes_witness :
  reachable 0 5 2 cfg_locked
  /\ lk (srv (fst cfg_locked)) = true
  /\ (forall i j thi thj,
        snd cfg_locked !! i = Some thi -> snd cfg_locked !! j = Some thj ->
        critical (cur thi) -> critical (cur thj) -> i = j)
  /\ (forall i thi, snd cfg_locked !! i = Some thi -> critical (cur thi) ->
        lk (srv (fst cfg_locked)) = true).
Proof.
  assert (Hr : reachable 0 5 2 cfg_locked)
    by (apply run_events_reachable; lia).
  split; [exact Hr|]. split; [vm_compute; reflexivity|].
  revert Hr. generalize cfg_locked. intros [w ths] Hr.
  apply (mutex_excludes 0 5 2 w ths Hr).
Defined.

Lemma listen_nil_iff_closed_witness :
  reachable 0 5 2 cfg_race
  /\ lk (srv (fst cfg_race)) = false
  /\ (listen (srv (fst cfg_race)) = None
      <-> ch_closed (qch (srv (fst cfg_race))) = true).
Proof.
  assert (Hr : reachable 0 5 2 cfg_race)
    by (apply run_events_reachable; lia).
  assert (Hl : lk (srv (fst cfg_race)) = false) by (vm_compute; reflexivity).
  split; [exact Hr|]. split; [exact Hl|].
  revert Hr Hl. generalize cfg_race. intros [w ths] Hr Hl.
  apply (listen_nil_iff_closed 0 5 2 w ths Hr Hl).
Defined.

(** ** Slots come back *)

(** X12. In every state the server can reach, burying a server
    connection that holds an open connection closes that connection and
    gives exactly one slot back to the limiter, whose count stays at least
    the number of open connections. *)
Theorem bury_releases_slot (l : Listener) (t fdlim : Z)
    (w : World) (ths : list Thread) (ssc : SscId) (c : ConnId) :
  (0 <= fdlim)%Z ->
  reachable l t fdlim (w, ths) ->
  lk (srv w) = false ->
  attached ssc w = Some c ->
  is_open c w = true ->
  exists w',
    exec (bury ssc) w = Done tt w'
    /\ count (fdl (srv w')) = (count (fdl (srv w)) - 1)%Z
    /\ is_open c w' = false
    /\ open_conns w' + 1 = open_conns w
    /\ attached ssc w' = None
    /\ ~ registered ssc w'.
Proof.
  intros Hpos Hreach Hlk Hatt Hopen.
  destruct (reachable_inv l t fdlim (w, ths) Hpos Hreach) as [rs I].
  cbn [fst snd] in I.
  destruct (inv_attached _ _ _ _ I ssc c Hatt) as [Hlt [Hcl | Hhook]];
    [congruence|].
  exists (bury_eff ssc w). split; [apply exec_bury; exact Hlk|].
  assert (E : bury_eff ssc w
              = release_slot (close_conn c (detach ssc (unregister_eff ssc w)))).
  { unfold bury_eff, force_close. rewrite attached_unregister_eff, Hatt.
    unfold conn_Close_eff.
    replace (hook_of c (detach ssc (unregister_eff ssc w))) with true;
      [reflexivity|].
    unfold hook_of in *. rewrite netconns_detach. symmetry. exact Hhook. }
  assert (Hnc : netconns (detach ssc (unregister_eff ssc w)) = netconns w)
    by (rewrite netconns_detach; reflexivity).
  unfold is_open in Hopen.
  destruct (netconns w !! c) as [nc|] eqn:Hn; [|discriminate].
  split; [|split; [|split; [|split]]].
  - rewrite E. unfold release_slot. cbn.
    rewrite srv_close_conn, srv_detach. reflexivity.
  - rewrite E. unfold is_open, release_slot, close_conn. cbn.
    rewrite Hnc, Hn. cbn. rewrite list_lookup_insert_eq by exact Hlt.
    reflexivity.
  - rewrite E. unfold open_conns, release_slot, close_conn. cbn.
    rewrite Hnc, Hn. cbn.
    pose proof (count_insert nc_open (netconns w) c nc
                  (mkNetConn false false (nc_settmo nc)) Hn) as Hc.
    rewrite Hopen in Hc. unfold b2n in Hc. cbn [nc_open] in Hc. lia.
  - unfold bury_eff. rewrite attached_force_close.
    rewrite decide_True by reflexivity. reflexivity.
  - unfold registered. rewrite conns_bury_eff, lookup_delete_eq.
    intros [? ?]. discriminate.
Qed.

Lemma bury_releases_slot_witness :
  (0 <= 2)%Z
  /\ reachable 0 5 2 cfg_full
  /\ lk (srv (fst cfg_full)) = false
  /\ attached 0 (fst cfg_full) = Some 0
  /\ is_open 0 (fst cfg_full) = true
  /\ exists w',
       exec (bury 0) (fst cfg_full) = Done tt w'
       /\ count (fdl (srv w')) = (count (fdl (srv (fst cfg_full))) - 1)%Z
       /\ is_open 0 w' = false
       /\ open_conns w' + 1 = open_conns (fst cfg_full)
       /\ attached 0 w' = None
       /\ ~ registered 0 w'.
Proof.
  assert (Hr : reachable 0 5 2 cfg_full)
    by (apply run_events_reachable; lia).
  assert (Hl : lk (srv (fst cfg_full)) = false) by (vm_compute; reflexivity).
  assert (Ha : attached 0 (fst cfg_full) = Some 0) by (vm_compute; reflexivity).
  assert (Ho : is_open 0 (fst cfg_full) = true) by (vm_compute; reflexivity).
  split; [lia|]. split; [exact Hr|]. split; [exact Hl|].
  split; [exact Ha|]. split; [exact Ho|].
  revert Hr Hl Ha Ho. generalize cfg_full. intros [w ths] Hr Hl Ha Ho.
  apply (bury_releases_slot 0 5 2 w ths 0 0); [lia|exact Hr|exact Hl|exact Ha|exact Ho].
Defined.


(** ** No panic is reached *)

Lemma np_op_mono {R : Type} (op : Op R) f kc
    (K K' : R -> option SscId -> bool -> Prop) :
  (forall x f' kc', K x f' kc' -> K' x f' kc') ->
  np_op op f kc K -> np_op op f kc K'.
Proof.
  intros H. destruct op; cbn; try (intros HK x; apply H, HK); try tauto.
  - intros [? ?]; split; [assumption|]. apply H. assumption.
  - intros [? ?]; split; [assumption|]. apply H. assumption.
  - intros [? ?]; split; [intros q|]; apply H; auto.
  - intros [? ?]; split; [|intros E]; apply H; auto.
  - intros HK x Hx. apply H, HK, Hx.
Qed.

Lemma np_holds_bind {A B : Type} (p : Prog A) (g : A -> Prog B) f kc :
  np_holds p f kc ->
  (forall a f' kc', np_holds (g a) f' kc') ->
  np_holds (bind p g) f kc.
Proof.
  intros Hp Hg. revert f kc Hp.
  induction p as [a | R op k IH | msg]; intros f kc; cbn.
  - intros _. apply Hg.
  - apply np_op_mono. intros x f' kc'. apply IH.
  - auto.
Qed.

Ltac np_step :=
  match goal with
  | |- np_holds (match ?x with _ => _ end) _ _ => destruct x
  | |- np_holds (bind (match ?x with _ => _ end) _) _ _ => destruct x
  | |- True => exact I
  | |- _ /\ _ => split
  | |- forall _, _ => intro
  | |- _ = _ => reflexivity
  | H : ?x <> ?x |- _ => destruct (H eq_refl)
  | H : true = false |- _ => discriminate H
  end; cbn.

Ltac np_tac := unfold np_safe; cbn; repeat np_step.

Lemma np_bury (ssc : SscId) f kc : np_holds (bury ssc) f kc.
Proof. np_tac. Qed.

Lemma np_bury_all (kills : list SscId) f kc : np_holds (bury_all kills) f kc.
Proof.
  revert f kc. induction kills as [|ssc rest IH]; intros f kc; [exact I|].
  cbn [bury_all]. apply np_holds_bind; [apply np_bury|].
  intros [] f' kc'. apply IH.
Qed.

Lemma np_collect_kills (t nw : Z) (keys acc : list SscId) f kc :
  np_holds (collect_kills t nw keys acc) f kc.
Proof.
  revert acc. induction keys as [|ssc rest IH]; intros acc; cbn; [exact I|].
  intros st. apply IH.
Qed.

Lemma np_shutdown_conns (keys : list SscId) f kc :
  np_holds (shutdown_conns keys) f kc.
Proof.
  revert f kc. induction keys as [|ssc rest IH]; intros f kc; cbn; [exact I|].
  intros [c|]; cbn.
  - intros fired. destruct fired; cbn; [intros _|]; intros _; apply IH.
  - intros _. apply IH.
Qed.

Lemma np_acceptLoop_body : np_safe acceptLoop_body.
Proof. np_tac. Qed.

Lemma np_read (ssc : SscId) : np_safe (read ssc).
Proof. np_tac. Qed.

Lemma np_Read : np_safe (do! Read in Ret Return).
Proof. np_tac. Qed.

Lemma np_expireLoop_body : np_safe expireLoop_body.
Proof.
  unfold np_safe, expireLoop_body, expireLoop_scan. cbn.
  intros _ [l|]; cbn; [|intros _; exact I].
  intros nw keys t.
  apply np_holds_bind.
  - apply np_holds_bind; [apply np_collect_kills|].
    intros kills f kc. cbn. intros _. exact I.
  - intros [kills|] f kc; [|exact I].
    apply np_holds_bind; [apply np_bury_all|].
    intros [] f' kc'. cbn. intros _ _. exact I.
Qed.

Lemma np_Shutdown : np_safe (do! Shutdown in Ret Return).
Proof.
  unfold np_safe, Shutdown. cbn. intros _ l _ _ _.
  assert (G : forall (err : option Error) f kc,
    np_holds (Vis SrvLock (fun _ => Vis ConnsRange (fun r =>
             do! (do! shutdown_conns r in Vis SrvUnlock (fun _ => Ret err))
             in Ret Return))) f kc).
  { intros err f kc. cbn. intros _ keys.
    apply np_holds_bind; [|intros a f' kc'; exact I].
    apply np_holds_bind; [apply np_shutdown_conns|].
    intros [] f' kc'. cbn. intros _. exact I. }
  destruct l as [l|]; cbn; [intros err|]; apply G.
Qed.

Lemma np_thread_of (t : Task) :
  np_safe (cur (thread_of t)) /\ np_safe (body (thread_of t)).
Proof.
  destruct t; cbn [thread_of cur body]; split;
    auto using np_acceptLoop_body, np_expireLoop_body, np_read.
Qed.

Lemma np_client (c : Call) :
  np_safe (cur (client c)) /\ np_safe (body (client c)).
Proof.
  destruct c; cbn [client once cur body thread_of]; split;
    try apply np_Shutdown; try apply np_read; try apply np_Read; np_tac.
Qed.

Lemma np_move_same (w w' : World) (f : option SscId) (kc : bool) :
  (kc = true -> closed_seen w = true) ->
  (closed_seen w = true -> closed_seen w' = true) ->
  length (sscs w) <= length (sscs w') ->
  (forall ssc, is_Some (conns (srv w') !! ssc) -> is_Some (conns (srv w) !! ssc)) ->
  np_move w w' f kc f kc.
Proof. intros Hk Hc Hs Hm. constructor; auto. Qed.

Lemma np_do_op {R : Type} (op : Op R) (w : World) (x : R) (w' : World)
    (f : option SscId) (kc : bool) (K : R -> option SscId -> bool -> Prop) :
  np_op op f kc K ->
  do_op op w = Ok x w' ->
  (forall ssc, f = Some ssc -> conns (srv w) !! ssc = None) ->
  (kc = true -> closed_seen w = true) ->
  exists f' kc', K x f' kc' /\ np_move w w' f kc f' kc'.
Proof.
  intros HK Hop Hf Hk. unfold closed_seen in Hk.
  destruct op; cbn in HK;
    try (exists f, kc; split; [apply HK|]; apply np_move_same; [exact Hk|..];
         unfold closed_seen; open_world w; cbn in Hop;
         repeat match type of Hop with
                | context [match ?e with _ => _ end] =>
                    destruct e eqn:?; cbn in Hop; try discriminate
                end;
         inversion Hop; subst; cbn; rewrite ?length_insert; auto; fail).
  - (* MakeServer *) destruct HK.
  - (* ConnsLookup *)
    destruct HK as [E HK]. cbn in Hop. inversion Hop; subst.
    rewrite (Hf ssc eq_refl). exists (Some ssc), kc. split; [exact HK|].
    apply np_move_same; auto.
  - (* ConnsStore *)
    destruct HK as [E HK]. destruct x. cbn in Hop. inversion Hop; subst.
    exists None, kc. split; [exact HK|].
    open_world w. constructor; unfold closed_seen; cbn; auto.
    + intros k Hs. destruct (decide (k = ssc)) as [->|Hne]; [right; auto|].
      left. rewrite lookup_insert_ne in Hs by congruence. exact Hs.
    + discriminate.
  - (* ConnsDelete *)
    exists f, kc. split; [apply HK|]. cbn in Hop. inversion Hop; subst.
    open_world w. apply np_move_same; unfold closed_seen; cbn; auto.
    intros k Hs. apply lookup_delete_is_Some in Hs. tauto.
  - (* ChRecv *)
    destruct HK as [HK1 HK2]. open_world w. cbn in Hop.
    destruct wbuf as [|q rest]; [destruct wcl; [|discriminate]|];
      inversion Hop; subst.
    + exists f, true. split; [exact HK2|].
      constructor; unfold closed_seen; cbn; auto.
    + exists f, kc. split; [apply HK1|].
      apply np_move_same; unfold closed_seen; cbn; auto.
  - (* ChClosed *)
    destruct HK as [HK1 HK2]. cbn in Hop. inversion Hop; subst.
    exists f, kc. split; [|apply np_move_same; auto].
    destruct (ch_closed (qch (srv w')) && ch_seen (qch (srv w'))) eqn:E;
      [exact HK1|].
    apply HK2. destruct kc; [|reflexivity]. symmetry. auto.
  - (* Accept *)
    exists f, kc. split.
    + apply HK. open_world w. cbn in Hop.
      repeat match type of Hop with
             | context [match ?e with _ => _ end] =>
                 destruct e eqn:?; cbn in Hop; try discriminate
             end; inversion Hop; subst; discriminate.
    + apply np_move_same; [exact Hk|..]; unfold closed_seen; open_world w;
        cbn in Hop;
        repeat match type of Hop with
               | context [match ?e with _ => _ end] =>
                   destruct e eqn:?; cbn in Hop; try discriminate
               end; inversion Hop; subst; cbn; auto.
  - (* ConnClose *)
    exists f, kc. split; [apply HK|]. cbn in Hop. inversion Hop; subst.
    apply np_move_same; unfold closed_seen;
      rewrite ?srv_close_conn, ?sscs_close_conn; auto.
  - (* AllocSsc *)
    cbn in Hop. inversion Hop; subst.
    exists (Some (length (sscs w))), kc. split; [apply HK|].
    open_world w. constructor; unfold closed_seen; cbn; auto.
    + rewrite length_app. lia.
    + intros ssc [= <-]. right. rewrite length_app. cbn. lia.
Qed.

Lemma np_spawned (ts : list Task) :
  Forall2 (fun th k => np_holds (cur th) (fst k) (snd k) /\ np_safe (body th))
          (map thread_of ts) ((fun _ => (None, false)) <$> ts).
Proof.
  induction ts as [|t ts IH]; cbn; constructor; [|exact IH].
  apply np_thread_of.
Qed.

Lemma np_lookup_new (ks : list (option SscId * bool)) (i : nat)
    (k' : option SscId * bool) {T : Type} (ts : list T) (j : nat)
    (kj : option SscId * bool) :
  (<[i := k']> ks ++ ((fun _ => (None, false)) <$> ts)) !! j = Some kj ->
  (j = i /\ kj = k') \/ (j <> i /\ ks !! j = Some kj) \/ kj = (None, false).
Proof.
  intros H. apply lookup_app_Some in H as [H | [_ H]].
  - apply list_lookup_insert_Some in H as [(<- & <- & _) | (Hne & H)]; auto.
  - apply list_lookup_fmap_Some in H as (t & -> & _). auto.
Qed.

(** An operation of a goroutine keeps the invariant. *)
Lemma np_inv_run (w : World) (ths : list Thread)
    (ks : list (option SscId * bool))
    (i : nat) (th : Thread) {R : Type} (op : Op R) (k : R -> Prog Ctl)
    (x : R) (w' : World) (ts : list Task) :
  NpInv w ths ks ->
  ths !! i = Some th ->
  cur th = Vis op k ->
  do_op op w = Ok x w' ->
  exists ks',
    NpInv w' (<[i := mkThread (k x) (body th)]> ths ++ map thread_of ts) ks'.
Proof.
  intros [Ith Imade Ifresh Iown Iclosed] Hth Hcur Hop.
  destruct (Forall2_lookup_l _ _ _ _ _ Ith Hth) as ([f kc] & Hki & Hs & Hb).
  rewrite Hcur in Hs. cbn in Hs.
  destruct (np_do_op op w x w' f kc _ Hs Hop) as (f' & kc' & HK & M).
  { intros ssc ->. apply (Ifresh i _ ssc Hki eq_refl). }
  { intros ->. apply (Iclosed i _ Hki eq_refl). }
  destruct M as [Mclosed Mknows Msscs Mconns Mfresh].
  exists (<[i := (f', kc')]> ks ++ ((fun _ => (None, false)) <$> ts)).
  assert (Hnone : forall j kj ssc, ks !! j = Some kj -> fst kj = Some ssc ->
                    j <> i -> conns (srv w') !! ssc = None).
  { intros j kj ssc Hj Hfj Hne.
    destruct (conns (srv w') !! ssc) as [v|] eqn:E; [|reflexivity].
    destruct (Mconns ssc) as [Hold | [-> _]]; [rewrite E; eauto| |].
    - destruct (Ifresh j kj ssc Hj Hfj) as [_ Hn]. rewrite Hn in Hold.
      destruct Hold as [? ?]. discriminate.
    - destruct Hne. apply (Iown j i kj (Some ssc, kc) ssc); auto. }
  assert (Hmine : forall ssc, f' = Some ssc ->
                    ssc < length (sscs w') /\ conns (srv w') !! ssc = None).
  { intros ssc E. destruct (Mfresh ssc E) as [-> | [-> Hlt]].
    - destruct (Ifresh i _ ssc Hki eq_refl) as [Hlt Hn]. split; [lia|].
      destruct (conns (srv w') !! ssc) as [v|] eqn:E'; [|reflexivity].
      destruct (Mconns ssc) as [Hold | [_ ->]]; [rewrite E'; eauto| |].
      + rewrite Hn in Hold. destruct Hold as [? ?]. discriminate.
      + discriminate.
    - split; [exact Hlt|].
      destruct (conns (srv w') !! length (sscs w)) as [v|] eqn:E'; [|reflexivity].
      destruct (Mconns (length (sscs w))) as [Hold | [_ ->]];
        [rewrite E'; eauto| |].
      + apply Imade in Hold. lia.
      + discriminate. }
  constructor.
  - apply Forall2_app; [|apply np_spawned].
    apply Forall2_insert; [exact Ith|]. cbn. split; assumption.
  - intros ssc Hs'. destruct (Mconns ssc Hs') as [Hold | [-> _]].
    + apply Imade in Hold. lia.
    + destruct (Ifresh i _ ssc Hki eq_refl). lia.
  - intros j kj ssc Hj Hfj.
    apply np_lookup_new in Hj as [[-> ->] | [[Hne Hj] | ->]];
      [apply Hmine; exact Hfj| |discriminate].
    split; [|eapply Hnone; eauto].
    destruct (Ifresh j kj ssc Hj Hfj). lia.
  - intros j1 j2 k1 k2 ssc H1 H2 Hf1 Hf2.
    apply np_lookup_new in H1 as [[-> ->] | [[Hne1 H1] | ->]];
      apply np_lookup_new in H2 as [[-> ->] | [[Hne2 H2] | ->]];
      try discriminate; try reflexivity.
    + cbn in Hf1. exfalso. destruct (Mfresh ssc Hf1) as [-> | [-> _]].
      * apply Hne2. apply (Iown j2 i k2 (Some ssc, kc) ssc); auto.
      * destruct (Ifresh j2 k2 _ H2 Hf2). lia.
    + cbn in Hf2. exfalso. destruct (Mfresh ssc Hf2) as [-> | [-> _]].
      * apply Hne1. apply (Iown j1 i k1 (Some ssc, kc) ssc); auto.
      * destruct (Ifresh j1 k1 _ H1 Hf1). lia.
    + eapply Iown; eauto.
  - intros j kj Hj Hkj.
    apply np_lookup_new in Hj as [[-> ->] | [[Hne Hj] | ->]];
      [apply Mknows; exact Hkj | |discriminate].
    apply Mclosed. eapply Iclosed; eauto.
Qed.

Lemma np_inv_step (w : World) (ths : list Thread)
    (ks : list (option SscId * bool)) (w' : World) (ths' : list Thread) :
  NpInv w ths ks ->
  step (w, ths) (w', ths') ->
  exists ks', NpInv w' ths' ks'.
Proof.
  intros I Hstep.
  inversion Hstep as [? ? i th p' ? Hth Hs1 | ? ? i th Hth Hc
                     | ? ? c | ? ? ? Henv]; subst; clear Hstep.
  - destruct (cur th) as [a | R op k | msg] eqn:Hcur; try discriminate.
    cbn in Hs1. destruct (do_op op w) as [x w1| |] eqn:Hop; try discriminate.
    injection Hs1 as <- <-.
    eapply np_inv_run; eauto.
  - destruct I as [Ith Imade Ifresh Iown Iclosed].
    destruct (Forall2_lookup_l _ _ _ _ _ Ith Hth) as (ki & Hki & Hs & Hb).
    exists (<[i := (None, false)]> ks). constructor; auto.
    + apply Forall2_insert; [exact Ith|]. cbn. split; exact Hb.
    + intros j kj ssc Hj Hfj.
      apply list_lookup_insert_Some in Hj as [(_ & <- & _) | (Hne & Hj)];
        [discriminate|]. eapply Ifresh; eauto.
    + intros j1 j2 k1 k2 ssc H1 H2 Hf1 Hf2.
      apply list_lookup_insert_Some in H1 as [(_ & <- & _) | (Hne1 & H1)];
        [discriminate|].
      apply list_lookup_insert_Some in H2 as [(_ & <- & _) | (Hne2 & H2)];
        [discriminate|]. eapply Iown; eauto.
    + intros j kj Hj Hkj.
      apply list_lookup_insert_Some in Hj as [(_ & <- & _) | (Hne & Hj)];
        [discriminate|]. eapply Iclosed; eauto.
  - destruct I as [Ith Imade Ifresh Iown Iclosed].
    exists (ks ++ [(None, false)]). constructor; auto.
    + apply Forall2_app; [exact Ith|]. constructor; [|constructor].
      apply np_client.
    + intros j kj ssc Hj Hfj.
      apply lookup_app_Some in Hj as [Hj | [_ Hj]]; [eapply Ifresh; eauto|].
      apply list_lookup_singleton_Some in Hj as [_ <-]. discriminate.
    + intros j1 j2 k1 k2 ssc H1 H2 Hf1 Hf2.
      apply lookup_app_Some in H1 as [H1 | [_ H1]];
        [|apply list_lookup_singleton_Some in H1 as [_ <-]; discriminate].
      apply lookup_app_Some in H2 as [H2 | [_ H2]];
        [|apply list_lookup_singleton_Some in H2 as [_ <-]; discriminate].
      eapply Iown; eauto.
    + intros j kj Hj Hkj.
      apply lookup_app_Some in Hj as [Hj | [_ Hj]]; [eapply Iclosed; eauto|].
      apply list_lookup_singleton_Some in Hj as [_ <-]. discriminate.
  - assert (Hf : srv w' = srv w) by (inversion Henv; reflexivity).
    assert (Hl : length (sscs w') = length (sscs w)).
    { inversion Henv; subst; cbn; rewrite ?length_insert; reflexivity. }
    destruct I as [Ith Imade Ifresh Iown Iclosed].
    exists ks. constructor; unfold closed_seen in *; rewrite ?Hf, ?Hl; auto.
Qed.

Lemma np_inv_boot (l : Listener) (t fdlim : Z) (w : World) (ths : list Thread) :
  boot l t fdlim = Some (w, ths) ->
  NpInv w ths [(None, false); (None, false)].
Proof.
  unfold boot, NewServer. cbn. destruct (t <? 2)%Z; cbn; [discriminate|].
  intros [= <- <-]. constructor.
  - repeat constructor;
      first [apply np_acceptLoop_body | apply np_expireLoop_body].
  - intros ssc [v Hv]. discriminate.
  - intros [|[|i]] k ssc H Hk; cbn in H; try discriminate;
      injection H as <-; discriminate.
  - intros [|[|i]] j ki kj ssc H _ Hk; cbn in H; try discriminate;
      injection H as <-; discriminate.
  - intros [|[|i]] k H Hk; cbn in H; try discriminate;
      injection H as <-; discriminate.
Qed.

Lemma np_inv_reachable (l : Listener) (t fdlim : Z) (cfg : World * list Thread) :
  reachable l t fdlim cfg ->
  exists ks, NpInv (fst cfg) (snd cfg) ks.
Proof.
  induction 1 as [[w ths] Hboot | [w ths] [w' ths'] _ IH Hstep].
  - eexists. eapply np_inv_boot. exact Hboot.
  - destruct IH as (ks & I). eapply np_inv_step; eauto.
Qed.

(** X13. No goroutine of the server ever reaches a [panic] statement:
    the connection [register] is asked to register is never in the
    registry already ("register twice"), [Accept] never leaves the accept
    loop with neither a connection nor an error, and [Read] never looks
    into the nil Query that a closed channel yields.  What a goroutine
    looks up in the registry is not there.  (The panics of the run-time
    system, that of a send on a closed channel for one, are another
    matter: an operation that would panic takes no [step].) *)
Theorem no_panic_reached (l : Listener) (t fdlim : Z)
    (w : World) (ths : list Thread) :
  reachable l t fdlim (w, ths) ->
  (forall i th msg, ths !! i = Some th -> cur th <> Panic msg)
  /\ (forall i th ssc k, ths !! i = Some th ->
        cur th = Vis (ConnsLookup ssc) k ->
        conns (srv w) !! ssc = None).
Proof.
  intros Hreach.
  destruct (np_inv_reachable _ _ _ _ Hreach) as (ks & I).
  cbn [fst snd] in I. destruct I as [Ith Imade Ifresh Iown Iclosed].
  split.
  - intros i th msg Hth Hc.
    destruct (Forall2_lookup_l _ _ _ _ _ Ith Hth) as (ki & Hki & Hs & Hb).
    rewrite Hc in Hs. exact Hs.
  - intros i th ssc k Hth Hc.
    destruct (Forall2_lookup_l _ _ _ _ _ Ith Hth) as (ki & Hki & Hs & Hb).
    rewrite Hc in Hs. cbn in Hs. destruct Hs as [Hf _].
    apply (Ifresh i ki ssc Hki Hf).
Qed.

Lemma no_panic_reached_witness :
  reachable 0 5 2 cfg_full
  /\ (forall i th msg, snd cfg_full !! i = Some th -> cur th <> Panic msg)
  /\ (forall i th ssc k, snd cfg_full !! i = Some th ->
        cur th = Vis (ConnsLookup ssc) k ->
        conns (srv (fst cfg_full)) !! ssc = None).
Proof.
  assert (Hr : reachable 0 5 2 cfg_full)
    by (apply run_events_reachable; lia).
  split; [exact Hr|].
  revert Hr. generalize cfg_full. intros [w ths] Hr.
  apply (no_panic_reached 0 5 2 w ths Hr).
Defined.


(** * Properties of package rpc *)

(** X14. [QueryBool] returns a value without error exactly when the
    query has the key with a first value that is "0" or "1", and the value
    is then the boolean that string stands for; in every other case (no
    query map, no such key, no value, another first value) it returns
    false with [ErrArg]. *)
Theorem QueryBool_decodes (a : rpc.Args) (key : string) :
  (forall b, rpc.QueryBool a key = (b, None)
     <-> exists m rest,
           rpc.Query a = Some m
           /\ m !! key = Some ((if b then "1" else "0")%string :: rest))
  /\ (forall b e, rpc.QueryBool a key = (b, Some e) ->
        b = false /\ e = rpc.ErrArg).
Proof.
  unfold rpc.QueryBool. destruct (rpc.Query a) as [m|].
  2:{ split; [intros b; split; [discriminate|intros (? & ? & ? & _); discriminate]|].
      intros b e [= <- <-]. auto. }
  destruct (m !! key) as [[|v0 rest]|] eqn:Hk.
  - split; [intros b; split; [discriminate|]|intros b e [= <- <-]; auto].
    intros (m' & r & [= <-] & H). rewrite Hk in H. discriminate.
  - destruct (String.eqb v0 "0") eqn:E0; [|destruct (String.eqb v0 "1") eqn:E1].
    + apply String.eqb_eq in E0. subst. split; [|discriminate].
      intros [|]; split; try discriminate.
      * intros (m' & r & [= <-] & H). rewrite Hk in H. discriminate.
      * intros _. exists m, rest. auto.
      * reflexivity.
    + apply String.eqb_eq in E1. subst. split; [|discriminate].
      intros [|]; split; try discriminate.
      * intros _. exists m, rest. auto.
      * reflexivity.
      * intros (m' & r & [= <-] & H). rewrite Hk in H. discriminate.
    + apply String.eqb_neq in E0, E1.
      split; [intros b; split; [discriminate|]|intros b e [= <- <-]; auto].
      intros (m' & r & [= <-] & H). rewrite Hk in H.
      injection H as H _. destruct b; congruence.
  - split; [intros b; split; [discriminate|]|intros b e [= <- <-]; auto].
    intros (m' & r & [= <-] & H). rewrite Hk in H. discriminate.
Qed.

(** X15. [QueryString] returns the first value of the key, and fails with
    the empty string and [ErrArg] exactly when there is none; whenever
    [QueryBool] succeeds so does [QueryString], with "1" for true and "0"
    for false, and whenever [QueryString] fails so does [QueryBool]. *)
Theorem QueryString_first_value (a : rpc.Args) (key : string) :
  (forall s, rpc.QueryString a key = (s, None)
     <-> exists m rest, rpc.Query a = Some m /\ m !! key = Some (s :: rest))
  /\ (forall s e, rpc.QueryString a key = (s, Some e) ->
        s = EmptyString /\ e = rpc.ErrArg
        /\ rpc.QueryBool a key = (false, Some rpc.ErrArg))
  /\ (forall b, rpc.QueryBool a key = (b, None) ->
        rpc.QueryString a key = ((if b then "1" else "0")%string, None)).
Proof.
  unfold rpc.QueryString, rpc.QueryBool. destruct (rpc.Query a) as [m|].
  2:{ split; [intros s; split; [discriminate|intros (? & ? & ? & _); discriminate]|].
      split; [intros s e [= <- <-]; auto | discriminate]. }
  destruct (m !! key) as [[|v0 rest]|] eqn:Hk.
  - split; [intros s; split; [discriminate|]|].
    + intros (m' & r & [= <-] & H). rewrite Hk in H. discriminate.
    + split; [intros s e [= <- <-]; auto | discriminate].
  - split; [intros s; split|split; [discriminate|]].
    + intros [= <-]. exists m, rest. auto.
    + intros (m' & r & [= <-] & H). rewrite Hk in H. injection H as -> _.
      reflexivity.
    + intros b. destruct (String.eqb v0 "0") eqn:E0;
        [|destruct (String.eqb v0 "1") eqn:E1; [|discriminate]].
      * apply String.eqb_eq in E0. intros [= <-]. subst. reflexivity.
      * apply String.eqb_eq in E1. intros [= <-]. subst. reflexivity.
  - split; [intros s; split; [discriminate|]|].
    + intros (m' & r & [= <-] & H). rewrite Hk in H. discriminate.
    + split; [intros s e [= <- <-]; auto | discriminate].
Qed.

Lemma rpc_set_stores (r : rpc.Ret) (key : string) (s : rpc.Setter) :
  exists r',
    rpc.set r key s = Some r'
    /\ rpc.value_of r' key = Some (rpc.stored s)
    /\ (forall k, k <> key -> rpc.value_of r' k = rpc.value_of r k)
    /\ rpc.SetCookies r' = rpc.SetCookies r
    /\ rpc.Value r' <> None.
Proof.
  destruct r as [cs [m|]]; destruct s; cbn;
    unfold rpc.SetBool, rpc.SetInt, rpc.SetString, rpc.SetInterface,
      rpc.initIfZero, rpc.assign, rpc.value_of; cbn;
    eexists; (split; [reflexivity|]); cbn;
    (split; [apply lookup_insert_eq|]);
    (split; [intros k Hk; rewrite lookup_insert_ne by congruence;
             try reflexivity; apply lookup_empty|]);
    (split; [reflexivity|discriminate]).
Qed.

(** X16. A setter never assigns to a nil map: whatever the [Ret], also
    the zero one, each of [SetBool], [SetInt], [SetString] and
    [SetInterface] returns; the key then maps to the value given ("1" or
    "0" for a boolean), every other key maps to what it did, and the
    cookies are untouched. *)
Theorem setters_store (r : rpc.Ret) (key : string) (s : rpc.Setter) :
  exists r',
    rpc.set r key s = Some r'
    /\ rpc.value_of r' key = Some (rpc.stored s)
    /\ (forall k, k <> key -> rpc.value_of r' k = rpc.value_of r k)
    /\ rpc.SetCookies r' = rpc.SetCookies r
    /\ rpc.Value r' <> None.
Proof. apply rpc_set_stores. Qed.

(** X17. Of two setters on the same key the later one wins, and setters
    on different keys do not disturb each other. *)
Theorem setters_compose (r : rpc.Ret) (k1 k2 : string) (s1 s2 : rpc.Setter) :
  exists r1 r2,
    rpc.set r k1 s1 = Some r1
    /\ rpc.set r1 k2 s2 = Some r2
    /\ rpc.value_of r2 k2 = Some (rpc.stored s2)
    /\ (k1 <> k2 -> rpc.value_of r2 k1 = Some (rpc.stored s1))
    /\ (forall k, k <> k1 -> k <> k2 -> rpc.value_of r2 k = rpc.value_of r k).
Proof.
  destruct (rpc_set_stores r k1 s1) as (r1 & E1 & V1 & O1 & _ & _).
  destruct (rpc_set_stores r1 k2 s2) as (r2 & E2 & V2 & O2 & _ & _).
  exists r1, r2. repeat split; auto.
  - intros Hne. rewrite O2 by exact Hne. exact V1.
  - intros k H1 H2. rewrite O2, O1 by assumption. reflexivity.
Qed.

(** X18. What [SetBool] writes is what [QueryBool] reads: the string
    [SetBool] stores for a boolean, found as the first value of a key of
    the query, makes [QueryBool] return that boolean without error, and
    [QueryString] return the string. *)
Theorem SetBool_QueryBool_roundtrip (r : rpc.Ret) (key : string) (b : bool) :
  exists r' s,
    rpc.SetBool r key b = Some r'
    /\ rpc.value_of r' key = Some (rpc.VString s)
    /\ forall (a : rpc.Args) (qkey : string) m rest,
         rpc.Query a = Some m ->
         m !! qkey = Some (s :: rest) ->
         rpc.QueryBool a qkey = (b, None)
         /\ rpc.QueryString a qkey = (s, None).
Proof.
  destruct (rpc_set_stores r key (rpc.ByBool b)) as (r' & E & V & _).
  exists r', (if b then "1" else "0")%string.
  split; [exact E|]. split; [exact V|].
  intros a qkey m rest Hq Hm. unfold rpc.QueryBool, rpc.QueryString.
  rewrite Hq, Hm. destruct b; split; reflexivity.
Qed.

(** X19. [AddSetCookie] appends: cookies added one after the other come
    after those already there, in the order they were added.  It leaves
    every value as it was, and the value map is not nil afterwards. *)
Theorem AddSetCookie_appends (r : rpc.Ret) (cs : list nat) :
  rpc.SetCookies (foldl rpc.AddSetCookie r cs) = rpc.SetCookies r ++ cs
  /\ (forall k, rpc.value_of (foldl rpc.AddSetCookie r cs) k = rpc.value_of r k)
  /\ (cs <> [] -> rpc.Value (foldl rpc.AddSetCookie r cs) <> None).
Proof.
  assert (H1 : forall r c,
            rpc.SetCookies (rpc.AddSetCookie r c) = rpc.SetCookies r ++ [c]
            /\ (forall k, rpc.value_of (rpc.AddSetCookie r c) k = rpc.value_of r k)
            /\ rpc.Value (rpc.AddSetCookie r c) <> None).
  { intros [cs' [m|]] c; unfold rpc.AddSetCookie, rpc.initIfZero, rpc.value_of;
      cbn; (split; [reflexivity|]); (split; [|discriminate]);
      intros k; try reflexivity; apply lookup_empty. }
  assert (Hkeep : forall cs r, rpc.Value r <> None ->
                    rpc.Value (foldl rpc.AddSetCookie r cs) <> None).
  { intros cs'. induction cs' as [|c cs' IH]; intros r' Hr; [exact Hr|].
    cbn. apply IH. apply H1. }
  revert r. induction cs as [|c cs IH]; intros r.
  - cbn. rewrite app_nil_r. split; [reflexivity|]. split; [reflexivity|].
    intros H. destruct H. reflexivity.
  - cbn. destruct (IH (rpc.AddSetCookie r c)) as (E & V & _).
    destruct (H1 r c) as (E1 & V1 & N1).
    split; [rewrite E, E1, <- app_assoc; reflexivity|].
    split; [intros k; rewrite V, V1; reflexivity|].
    intros _. apply Hkeep. exact N1.
Qed.
